(** * AArch64 assembler and emulator: shallow embedding and checked properties

    The development follows the layout of the C sources:
    - [Bits]: fixed-width integers as [Z] with the wrap-around written out,
      and bit fields of a 32-bit word;
    - [Memory]: the 2 MiB byte array and its accessors ([memory.c]);
    - one module per bit-field struct of [instructions.h];
    - [Register]: the register file ([register.c]);
    - [Cpu]: the execution engine ([cpu.c], [utils.c]);
    - [SymbolTable]: labels and back-patching ([symbol_table.c]);
    - [CString]: the functions of the C library the assembler calls;
    - [Decode]: the line decoder ([decode_helper.c], [decode.c]);
    - [Assemble]: the driver ([assemble.c]);
    - [Hashmap]: the hash map behind the symbol table ([hashmap.c]).

    A call of [exit(EXIT_FAILURE)] or [abort()] is the [Fatal] result.
    Where C leaves the behaviour undefined the choice made is stated at
    the definition. *)

From Stdlib Require Import ZArith Lia Bool Ascii.
From stdpp Require Import gmap strings list.

Local Open Scope Z_scope.

(** ** Results of fallible code *)

(** The diagnostics the C code prints before it terminates the process. *)
Inductive error : Type :=
| OutOfBoundsWord (address : Z)
| OutOfBoundsDoubleWord (address : Z)
| RegisterDoesNotExist (reg_num : Z)
| UnknownInstruction (data pc : Z)
| InputTooLarge
| NotABranchLiteral (data : Z)
| MultipleDefinitions (label : string)
| IndexOutOfBounds (index : Z)
| AssertionFailed (what : string)
| NullPointer
| BufferOverrun
| EncodingError (what : string).

Inductive result (A : Type) : Type :=
| Ok (a : A)
| Fatal (e : error).
Arguments Ok {A} a.
Arguments Fatal {A} e.

Definition is_Ok {A} (r : result A) : Prop := ∃ a, r = Ok a.
Definition is_Fatal {A} (r : result A) : Prop := ∃ e, r = Fatal e.

Definition result_bind {A B} (r : result A) (k : A → result B) : result B :=
  match r with
  | Ok a => k a
  | Fatal e => Fatal e
  end.

Declare Scope res_scope.
Delimit Scope res_scope with res.
Notation "x <- m ;; k" := (result_bind m (λ x, k))
  (at level 100, m at next level, right associativity) : res_scope.
Notation "m ;;; k" := (result_bind m (λ _, k))
  (at level 100, right associativity) : res_scope.

(** ** Fixed-width integers and bit fields *)

Module Bits.

(** Conversion to [uint32_t] and [uint64_t]. *)
Definition wrap32 (z : Z) : Z := z mod 2 ^ 32.
Definition wrap64 (z : Z) : Z := z mod 2 ^ 64.

(** The value of an unsigned pattern read as [int32_t] / [int64_t]. *)
Definition to_int32 (z : Z) : Z := if z <? 2 ^ 31 then z else z - 2 ^ 32.
Definition to_int64 (z : Z) : Z := if z <? 2 ^ 63 then z else z - 2 ^ 64.

(** A bit field of [width] bits whose least significant bit is bit [lo]
    of the word.  The structs of [instructions.h] are laid out from the
    least significant bit upwards, in declaration order. *)
Definition field (lo width : Z) (w : Z) : Z :=
  Z.land (Z.shiftr w lo) (Z.ones width).

(** Assignment to a bit field: the value is truncated to the width of
    the field and the other bits of the word are kept. *)
Definition set_field (lo width : Z) (w v : Z) : Z :=
  Z.lor (Z.land w (Z.lnot (Z.shiftl (Z.ones width) lo)))
        (Z.shiftl (Z.land v (Z.ones width)) lo).

(** A named bit field of a struct; applied to a word it reads the field. *)
Record bitfield : Type := BitField { lo : Z; width : Z }.

Definition get (f : bitfield) (w : Z) : Z := field (lo f) (width f) w.
Definition put (f : bitfield) (v : Z) (w : Z) : Z :=
  set_field (lo f) (width f) w v.

Coercion get : bitfield >-> Funclass.

(** A field that lies inside a 32-bit word; two fields without a common
    bit. *)
Definition fits32 (f : bitfield) : Prop :=
  0 ≤ lo f ∧ 0 ≤ width f ∧ lo f + width f ≤ 32.

Definition disjoint_fields (f g : bitfield) : Prop :=
  lo f + width f ≤ lo g ∨ lo g + width g ≤ lo f.

End Bits.
Import Bits.

(** ** Memory ([memory.c]) *)

Module Memory.

Definition NUM_OF_MEMORY_ADDRESS : Z := Z.shiftl 1 21.
Definition INSTR_SIZE : Z := 4.

(** [sizeof(word)] and [sizeof(double_word)]. *)
Definition sizeof_word : Z := 4.
Definition sizeof_double_word : Z := 8.

(** The array [mem] maps each address to a byte.  The array is kept
    sparse: an address that is absent holds the byte 0 that
    [init_memory] wrote there. *)
Definition init_memory : gmap Z Z := ∅.

Definition mem_byte (mem : gmap Z Z) (a : Z) : Z := default 0 (mem !! a).

(** The object representation of an [n]-byte unsigned integer, least
    significant byte first, and the value of such a representation. *)
Fixpoint object_bytes (n : nat) (v : Z) : list Z :=
  match n with
  | O => []
  | S n' => Z.land v 255 :: object_bytes n' (Z.shiftr v 8)
  end.

Fixpoint object_value (bs : list Z) : Z :=
  match bs with
  | [] => 0
  | b :: rest => Z.lor b (Z.shiftl (object_value rest) 8)
  end.

(** [memcpy(&data, mem + a, n)] and [memcpy(mem + a, &data, n)]. *)
Fixpoint memcpy_from (mem : gmap Z Z) (a : Z) (n : nat) : list Z :=
  match n with
  | O => []
  | S n' => mem_byte mem a :: memcpy_from mem (a + 1) n'
  end.

Fixpoint memcpy_to (mem : gmap Z Z) (a : Z) (bs : list Z) : gmap Z Z :=
  match bs with
  | [] => mem
  | b :: rest => memcpy_to (<[a:=b]> mem) (a + 1) rest
  end.

(** The accessors take a [uint32_t] address; [set_word] takes a
    [uint32_t] datum and [set_double_word] a [uint64_t] one. *)
Definition get_word (mem : gmap Z Z) (address : Z) : result Z :=
  let address := wrap32 address in
  if NUM_OF_MEMORY_ADDRESS - sizeof_word <? address
  then Fatal (OutOfBoundsWord address)
  else Ok (object_value (memcpy_from mem address 4)).

Definition set_word (mem : gmap Z Z) (address data : Z) : result (gmap Z Z) :=
  let address := wrap32 address in
  let data := wrap32 data in
  if NUM_OF_MEMORY_ADDRESS - sizeof_word <? address
  then Fatal (OutOfBoundsWord address)
  else Ok (memcpy_to mem address (object_bytes 4 data)).

Definition get_double_word (mem : gmap Z Z) (address : Z) : result Z :=
  let address := wrap32 address in
  if NUM_OF_MEMORY_ADDRESS - sizeof_double_word <? address
  then Fatal (OutOfBoundsDoubleWord address)
  else Ok (object_value (memcpy_from mem address 8)).

Definition set_double_word (mem : gmap Z Z) (address data : Z)
  : result (gmap Z Z) :=
  let address := wrap32 address in
  let data := wrap64 data in
  if NUM_OF_MEMORY_ADDRESS - sizeof_double_word <? address
  then Fatal (OutOfBoundsDoubleWord address)
  else Ok (memcpy_to mem address (object_bytes 8 data)).

(** [load_instructions_to_memory]: the file is a list of bytes.  The
    value of [ftell] is stored in an [int], which keeps its low 32 bits
    as a signed number; the quotient by [INSTR_SIZE] truncates towards
    zero, and the loop copies that many 4-byte groups, none when the
    number is negative, to the start of memory. *)
Definition load_instructions_to_memory (mem : gmap Z Z) (file : list Z)
  : result (gmap Z Z) :=
  let file_size := to_int32 (wrap32 (Z.of_nat (length file))) in
  let num_of_instructions := Z.quot file_size INSTR_SIZE in
  if NUM_OF_MEMORY_ADDRESS <? file_size then Fatal InputTooLarge
  else Ok (memcpy_to mem 0
             (take (Z.to_nat (num_of_instructions * INSTR_SIZE)) file)).

End Memory.

(** ** Instruction layouts ([instructions.h])

    One module per bit-field struct of the [Instruction] union; a field
    [inst.imm_arith.rd] of the C code is [ImmArith.rd w] here. *)

Module GeneralDpImm.
Definition op0 := BitField 26 3.
End GeneralDpImm.

Module GeneralDpReg.
Definition op0 := BitField 25 3.
End GeneralDpReg.

Module GeneralDT.
Definition op0_2 := BitField 25 1.
Definition op0_1 := BitField 27 1.
End GeneralDT.

Module GeneralBranch.
Definition op0 := BitField 26 3.
End GeneralBranch.

Module ImmArith.
Definition rd := BitField 0 5.
Definition rn := BitField 5 5.
Definition imm12 := BitField 10 12.
Definition sh := BitField 22 1.
Definition opi := BitField 23 3.
Definition op0 := BitField 26 3.
Definition opc_flag := BitField 29 1.
Definition opc_op := BitField 30 1.
Definition sf := BitField 31 1.
End ImmArith.

Module ImmWide.
Definition rd := BitField 0 5.
Definition imm16 := BitField 5 16.
Definition hw := BitField 21 2.
Definition opi := BitField 23 3.
Definition op0 := BitField 26 3.
Definition opc := BitField 29 2.
Definition sf := BitField 31 1.
End ImmWide.

Module RegArith.
Definition rd := BitField 0 5.
Definition rn := BitField 5 5.
Definition operand := BitField 10 6.
Definition rm := BitField 16 5.
Definition N := BitField 21 1.
Definition shift := BitField 22 2.
Definition id := BitField 24 1.
Definition op0 := BitField 25 3.
Definition M := BitField 28 1.
Definition opc_flag := BitField 29 1.
Definition opc_op := BitField 30 1.
Definition sf := BitField 31 1.
End RegArith.

Module RegLogic.
Definition rd := BitField 0 5.
Definition rn := BitField 5 5.
Definition operand := BitField 10 6.
Definition rm := BitField 16 5.
Definition N := BitField 21 1.
Definition shift := BitField 22 2.
Definition id := BitField 24 1.
Definition op0 := BitField 25 3.
Definition M := BitField 28 1.
Definition opc := BitField 29 2.
Definition sf := BitField 31 1.
End RegLogic.

Module RegMultiply.
Definition rd := BitField 0 5.
Definition rn := BitField 5 5.
Definition ra := BitField 10 5.
Definition x := BitField 15 1.
Definition rm := BitField 16 5.
Definition opr := BitField 21 3.
Definition id := BitField 24 1.
Definition op0 := BitField 25 3.
Definition M := BitField 28 1.
Definition opc := BitField 29 2.
Definition sf := BitField 31 1.
End RegMultiply.

Module DTImmOffset.
Definition rt := BitField 0 5.
Definition xn := BitField 5 5.
Definition imm12 := BitField 10 12.
Definition L := BitField 22 1.
Definition NIL_1 := BitField 23 1.
Definition U := BitField 24 1.
Definition op0_2 := BitField 25 1.
Definition NIL_3 := BitField 26 1.
Definition op0_1 := BitField 27 1.
Definition NIL_4 := BitField 28 1.
Definition NIL_5 := BitField 29 1.
Definition sf := BitField 30 1.
Definition id := BitField 31 1.
End DTImmOffset.

Module DTRegOffset.
Definition rt := BitField 0 5.
Definition xn := BitField 5 5.
Definition NIL_1 := BitField 10 6.
Definition xm := BitField 16 5.
Definition id2 := BitField 21 1.
Definition L := BitField 22 1.
Definition NIL_2 := BitField 23 1.
Definition U := BitField 24 1.
Definition op0 := BitField 25 4.
Definition NIL_4 := BitField 29 1.
Definition sf := BitField 30 1.
Definition id := BitField 31 1.
End DTRegOffset.

Module DTLoadLiteral.
Definition rt := BitField 0 5.
Definition simm19 := BitField 5 19.
Definition NIL_1 := BitField 24 1.
Definition op0_2 := BitField 25 1.
Definition NIL_2 := BitField 26 1.
Definition op0_1 := BitField 27 1.
Definition NIL_3 := BitField 28 2.
Definition sf := BitField 30 1.
Definition id := BitField 31 1.
End DTLoadLiteral.

Module DTPrePostIndex.
Definition rt := BitField 0 5.
Definition xn := BitField 5 5.
Definition NIL_1 := BitField 10 1.
Definition I := BitField 11 1.
Definition simm9 := BitField 12 9.
Definition NIL_2 := BitField 21 1.
Definition L := BitField 22 1.
Definition NIL_3 := BitField 23 1.
Definition U := BitField 24 1.
Definition op0 := BitField 25 4.
Definition NIL_4 := BitField 29 1.
Definition sf := BitField 30 1.
Definition id := BitField 31 1.
End DTPrePostIndex.

Module BranchUncond.
Definition simm26 := BitField 0 26.
Definition op0 := BitField 26 3.
Definition NIL_1 := BitField 29 1.
Definition id := BitField 30 2.
End BranchUncond.

Module BranchCond.
Definition cond := BitField 0 4.
Definition NIL_1 := BitField 4 1.
Definition simm19 := BitField 5 19.
Definition NIL_2 := BitField 24 2.
Definition op0 := BitField 26 3.
Definition NIL_3 := BitField 29 1.
Definition id := BitField 30 2.
End BranchCond.

Module BranchReg.
Definition NIL_1 := BitField 0 5.
Definition xn := BitField 5 5.
Definition NIL_2 := BitField 10 6.
Definition NIL_3 := BitField 16 10.
Definition op0 := BitField 26 3.
Definition NIL_4 := BitField 29 1.
Definition id := BitField 30 2.
End BranchReg.

(** [enum InstTypePatterns] and the other enumerations. *)
Definition ITP_DP_IMM : Z := 4.
Definition ITP_IMM_ARITH : Z := 2.
Definition ITP_WIDE_MOVE : Z := 5.
Definition ITP_DP_REG : Z := 5.
Definition ITP_REG_MULTIPLY : Z := 1.
Definition ITP_REG_ARITH : Z := 1.
Definition ITP_REG_LOGIC : Z := 0.
Definition ITP_DT_1 : Z := 1.
Definition ITP_DT_2 : Z := 0.
Definition ITP_DT_LOAD_LITERAL : Z := 0.
Definition ITP_DT_IMM_OFFSET : Z := 1.
Definition ITP_DT_REGISTER_OFFSET : Z := 1.
Definition ITP_DT_PRE_INDEX : Z := 1.
Definition ITP_DT_POST_INDEX : Z := 0.
Definition ITP_BRANCH : Z := 5.
Definition ITP_BRANCH_UNCOND : Z := 0.
Definition ITP_BRANCH_COND : Z := 1.
Definition ITP_BRANCH_REG : Z := 3.

Definition ITP_EQ : Z := 0.
Definition ITP_NE : Z := 1.
Definition ITP_GE : Z := 10.
Definition ITP_LT : Z := 11.
Definition ITP_GT : Z := 12.
Definition ITP_LE : Z := 13.
Definition ITP_AL : Z := 14.

Definition ITP_MOVN : Z := 0.
Definition ITP_MOVZ : Z := 2.
Definition ITP_MOVK : Z := 3.

Definition ITP_AND : Z := 0.
Definition ITP_OR : Z := 1.
Definition ITP_XOR : Z := 2.
Definition ITP_AND_W_FLAGS : Z := 3.

Definition ITP_LSL : Z := 0.
Definition ITP_LSR : Z := 1.
Definition ITP_ASR : Z := 2.
Definition ITP_ROR : Z := 3.

(** ** Machine state and the monad of the emulator

    The C code keeps the registers, the flags and the memory in
    module-level variables; here they are the fields of one record that
    is threaded through every call. *)

Record processor_state : Type := {
  negative_flag : bool;
  zero_flag : bool;
  carry_flag : bool;
  overflow_flag : bool
}.

Record machine : Type := {
  gen_registers : list Z;
  program_counter : Z;
  stack_pointer : Z;
  pstate : processor_state;
  mem : gmap Z Z
}.

Definition with_gen_registers (rs : list Z) (s : machine) : machine :=
  {| gen_registers := rs; program_counter := program_counter s;
     stack_pointer := stack_pointer s; pstate := pstate s; mem := mem s |}.

Definition with_program_counter (pc : Z) (s : machine) : machine :=
  {| gen_registers := gen_registers s; program_counter := pc;
     stack_pointer := stack_pointer s; pstate := pstate s; mem := mem s |}.

Definition with_pstate (ps : processor_state) (s : machine) : machine :=
  {| gen_registers := gen_registers s; program_counter := program_counter s;
     stack_pointer := stack_pointer s; pstate := ps; mem := mem s |}.

Definition with_mem (m : gmap Z Z) (s : machine) : machine :=
  {| gen_registers := gen_registers s; program_counter := program_counter s;
     stack_pointer := stack_pointer s; pstate := pstate s; mem := m |}.

(** A computation reads and updates the machine, or ends the process. *)
Definition M (A : Type) : Type := machine → result (A * machine).

Definition ret {A} (a : A) : M A := λ s, Ok (a, s).

Definition bind {A B} (m : M A) (k : A → M B) : M B :=
  λ s, match m s with
       | Ok (a, s') => k a s'
       | Fatal e => Fatal e
       end.

Definition exit_failure {A} (e : error) : M A := λ _, Fatal e.

Definition get_state : M machine := λ s, Ok (s, s).
Definition modify (f : machine → machine) : M unit := λ s, Ok (tt, f s).

(** Lifts an accessor of [memory.c] that only reads. *)
Definition read_mem {A} (f : gmap Z Z → result A) : M A :=
  λ s, match f (mem s) with
       | Ok a => Ok (a, s)
       | Fatal e => Fatal e
       end.

(** Lifts an accessor of [memory.c] that writes. *)
Definition write_mem (f : gmap Z Z → result (gmap Z Z)) : M unit :=
  λ s, match f (mem s) with
       | Ok m => Ok (tt, with_mem m s)
       | Fatal e => Fatal e
       end.

Declare Scope cpu_scope.
Delimit Scope cpu_scope with cpu.
Notation "x <- m ;; k" := (bind m (λ x, k))
  (at level 100, m at next level, right associativity) : cpu_scope.
Notation "m ;;; k" := (bind m (λ _, k))
  (at level 100, right associativity) : cpu_scope.

(** ** Register file ([register.c]) *)

Module Register.

Definition NUM_REGISTERS : Z := 31.
Definition INSTR_SIZE : Z := 4.

Definition init_register (s : machine) : machine :=
  with_program_counter 0
    (with_gen_registers (replicate (Z.to_nat NUM_REGISTERS) 0) s).

Definition set_reg_value (reg_num value : Z) : M unit :=
  let reg_num := wrap32 reg_num in
  let value := wrap64 value in
  if reg_num =? NUM_REGISTERS then ret tt
  else if NUM_REGISTERS <? reg_num
  then exit_failure (RegisterDoesNotExist reg_num)
  else modify (λ s,
         with_gen_registers (<[Z.to_nat reg_num := value]> (gen_registers s)) s).

Definition get_reg_value_64 (reg_num : Z) : M Z :=
  let reg_num := wrap32 reg_num in
  if reg_num =? NUM_REGISTERS then ret 0
  else if NUM_REGISTERS <? reg_num
  then exit_failure (RegisterDoesNotExist reg_num)
  else (s <- get_state;; ret (default 0 (gen_registers s !! Z.to_nat reg_num)))%cpu.

(** The member [wn] of the union is the low half of [xn]. *)
Definition get_reg_value_32 (reg_num : Z) : M Z :=
  let reg_num := wrap32 reg_num in
  if reg_num =? NUM_REGISTERS then ret 0
  else if NUM_REGISTERS <? reg_num
  then exit_failure (RegisterDoesNotExist reg_num)
  else (s <- get_state;;
        ret (wrap32 (default 0 (gen_registers s !! Z.to_nat reg_num))))%cpu.

(** [get_spec_register(PROGRAM_COUNTER)] and
    [set_spec_register(PROGRAM_COUNTER, value)]. *)
Definition get_program_counter : M Z :=
  (s <- get_state;; ret (program_counter s))%cpu.

Definition set_program_counter (value : Z) : M unit :=
  modify (with_program_counter (wrap64 value)).

Definition increase_pc (offset : Z) : M unit :=
  modify (λ s, with_program_counter (wrap64 (program_counter s + offset)) s).

Definition increment_pc : M unit :=
  modify (λ s, with_program_counter (wrap64 (program_counter s + INSTR_SIZE)) s).

End Register.

(** ** Execution engine ([cpu.c], [utils.c]) *)

Module Cpu.
Import Register.
Local Open Scope cpu_scope.

Definition HALT_INSTRUCTION : Z := 0x8a000000.
Definition MSB_32_BIT : Z := Z.shiftl 1 31.
Definition MSB_64_BIT : Z := Z.shiftl 1 63.
Definition CONST_32 : Z := 32.
Definition CONST_64 : Z := 64.

(** The static initialiser of [pstate]. *)
Definition initial_pstate : processor_state :=
  {| negative_flag := false; zero_flag := true;
     carry_flag := false; overflow_flag := false |}.

(** [sign_extend] of [utils.c]; the result is an [int64_t]. *)
Definition sign_extend (bits bit_length : Z) : Z :=
  let bits := wrap64 bits in
  if Z.shiftr bits (bit_length - 1) =? 1
  then to_int64
         (Z.lor (Z.lxor 0xFFFFFFFFFFFFFFFF (wrap64 (Z.shiftl 1 bit_length - 1)))
                bits)
  else to_int64 bits.

Definition fetch : M Z :=
  pc <- get_program_counter;; read_mem (λ m, Memory.get_word m pc).

Definition set_flags (n z c v : bool) : M unit :=
  modify (with_pstate {| negative_flag := n; zero_flag := z;
                         carry_flag := c; overflow_flag := v |}).

(** [apply_arithmetic_32].  The sum or difference is formed in [int32_t]
    and converted back; C leaves a signed overflow undefined, the result
    taken here is the one modulo [2^32] that the conversion gives.
    [result] is unsigned, so is the comparison [result < 0] of the
    overflow test. *)
Definition apply_arithmetic_32 (src operand2 dest_reg_index : Z)
    (opc_flag opc_op : Z) : M unit :=
  let src := wrap32 src in
  let operand2 := wrap32 operand2 in
  let temp_result :=
    if negb (opc_op =? 0)
    then to_int32 src - to_int32 operand2
    else to_int32 src + to_int32 operand2 in
  let result := wrap32 temp_result in
  (if negb (opc_flag =? 0)
   then set_flags
          (negb (Z.land result MSB_32_BIT =? 0))
          (result =? 0)
          (if negb (opc_op =? 0)
           then operand2 <=? src
           else (result <? src) || (result <? operand2))
          ((0 <? src) && (0 <? operand2) && (result <? 0))
   else ret tt);;;
  if wrap32 dest_reg_index =? NUM_REGISTERS then ret tt
  else set_reg_value dest_reg_index result.

(** [apply_arithmetic_64]. *)
Definition apply_arithmetic_64 (src operand2 dest_reg_index : Z)
    (opc_flag opc_op : Z) : M unit :=
  let src := wrap64 src in
  let operand2 := wrap64 operand2 in
  let temp_result :=
    if negb (opc_op =? 0)
    then to_int64 src - to_int64 operand2
    else to_int64 src + to_int64 operand2 in
  let result := wrap64 temp_result in
  (if negb (opc_flag =? 0)
   then set_flags
          (negb (Z.land result MSB_64_BIT =? 0))
          (result =? 0)
          (if negb (opc_op =? 0)
           then operand2 <=? src
           else (result <? src) || (result <? operand2))
          ((0 <? src) && (0 <? operand2) && (result <? 0))
   else ret tt);;;
  if wrap32 dest_reg_index =? NUM_REGISTERS then ret tt
  else set_reg_value dest_reg_index result.

(** [apply_shift_32] and [apply_shift_64].  C leaves a shift by the
    width or more undefined; the count is reduced modulo the width, as
    the shift instructions of the host do. *)
Definition apply_shift_32 (operand shift shift_option : Z) : Z :=
  let operand := wrap32 operand in
  let count := shift mod CONST_32 in
  if shift_option =? ITP_LSL then wrap32 (Z.shiftl operand count)
  else if shift_option =? ITP_LSR then Z.shiftr operand count
  else if shift_option =? ITP_ASR
  then wrap32 (Z.shiftr (to_int32 operand) count)
  else if shift_option =? ITP_ROR
  then Z.lor (Z.shiftr operand count)
             (wrap32 (Z.shiftl operand ((CONST_32 - shift) mod CONST_32)))
  else operand.

Definition apply_shift_64 (operand shift shift_option : Z) : Z :=
  let operand := wrap64 operand in
  let count := shift mod CONST_64 in
  if shift_option =? ITP_LSL then wrap64 (Z.shiftl operand count)
  else if shift_option =? ITP_LSR then Z.shiftr operand count
  else if shift_option =? ITP_ASR
  then wrap64 (Z.shiftr (to_int64 operand) count)
  else if shift_option =? ITP_ROR
  then Z.lor (Z.shiftr operand count)
             (wrap64 (Z.shiftl operand ((CONST_64 - shift) mod CONST_64)))
  else operand.

(** [apply_logic]; the 2-bit [opc] has no fifth value. *)
Definition apply_logic (src operand2 opc N : Z) : Z :=
  let src := wrap64 src in
  let operand2 := wrap64 operand2 in
  let operand2 := if negb (N =? 0) then wrap64 (Z.lnot operand2) else operand2 in
  if (opc =? ITP_AND) || (opc =? ITP_AND_W_FLAGS) then Z.land src operand2
  else if opc =? ITP_OR then Z.lor src operand2
  else Z.lxor src operand2.

Definition exec_imm_arithmetic (inst : Z) : M unit :=
  let operand2 := ImmArith.imm12 inst in
  let operand2 :=
    if negb (ImmArith.sh inst =? 0) then wrap32 (Z.shiftl operand2 12)
    else operand2 in
  if negb (ImmArith.sf inst =? 0)
  then src <- get_reg_value_64 (ImmArith.rn inst);;
       apply_arithmetic_64 src operand2 (ImmArith.rd inst)
         (ImmArith.opc_flag inst) (ImmArith.opc_op inst)
  else src <- get_reg_value_32 (ImmArith.rn inst);;
       apply_arithmetic_32 src operand2 (ImmArith.rd inst)
         (ImmArith.opc_flag inst) (ImmArith.opc_op inst).

Definition exec_wide_move (inst : Z) : M unit :=
  if ImmWide.opc inst =? ITP_MOVK
  then let position := 16 * ImmWide.hw inst in
       register_value <- get_reg_value_64 (ImmWide.rd inst);;
       let mask := wrap64 (Z.lnot (wrap64 (Z.shiftl 0xFFFF position))) in
       let register_value := Z.land register_value mask in
       let register_value :=
         Z.lor register_value (wrap64 (Z.shiftl (ImmWide.imm16 inst) position)) in
       let register_value :=
         if ImmWide.sf inst =? 0 then Z.land register_value 0xFFFFFFFF
         else register_value in
       set_reg_value (ImmWide.rd inst) register_value
  else let operand :=
         wrap64 (Z.shiftl (ImmWide.imm16 inst) (ImmWide.hw inst * 16)) in
       let operand :=
         if ImmWide.opc inst =? ITP_MOVN then wrap64 (Z.lnot operand)
         else operand in
       let operand :=
         if ImmWide.sf inst =? 0 then Z.land operand 0xFFFFFFFF else operand in
       set_reg_value (ImmWide.rd inst) operand.

Definition exec_reg_arithmetic (inst : Z) : M unit :=
  if negb (RegArith.sf inst =? 0)
  then operand2 <- get_reg_value_64 (RegArith.rm inst);;
       let operand2 :=
         apply_shift_64 operand2 (RegArith.operand inst) (RegArith.shift inst) in
       src <- get_reg_value_64 (RegArith.rn inst);;
       apply_arithmetic_64 src operand2 (RegArith.rd inst)
         (RegArith.opc_flag inst) (RegArith.opc_op inst)
  else operand2 <- get_reg_value_32 (RegArith.rm inst);;
       let operand2 :=
         apply_shift_32 operand2 (RegArith.operand inst) (RegArith.shift inst) in
       src <- get_reg_value_32 (RegArith.rn inst);;
       apply_arithmetic_32 src operand2 (RegArith.rd inst)
         (RegArith.opc_flag inst) (RegArith.opc_op inst).

Definition exec_reg_logic (inst : Z) : M unit :=
  if negb (RegLogic.sf inst =? 0)
  then operand2 <- get_reg_value_64 (RegLogic.rm inst);;
       let operand2 :=
         apply_shift_64 operand2 (RegLogic.operand inst) (RegLogic.shift inst) in
       src <- get_reg_value_64 (RegLogic.rn inst);;
       let result := apply_logic src operand2 (RegLogic.opc inst) (RegLogic.N inst) in
       (if RegLogic.opc inst =? ITP_AND_W_FLAGS
        then set_flags (negb (Z.land result MSB_64_BIT =? 0)) (result =? 0)
               false false
        else ret tt);;;
       set_reg_value (RegLogic.rd inst) result
  else operand2 <- get_reg_value_32 (RegLogic.rm inst);;
       let operand2 :=
         apply_shift_32 operand2 (RegLogic.operand inst) (RegLogic.shift inst) in
       src <- get_reg_value_32 (RegLogic.rn inst);;
       let result :=
         wrap32 (apply_logic src operand2 (RegLogic.opc inst) (RegLogic.N inst)) in
       (if RegLogic.opc inst =? ITP_AND_W_FLAGS
        then set_flags (negb (Z.land result MSB_32_BIT =? 0)) (result =? 0)
               false false
        else ret tt);;;
       set_reg_value (RegLogic.rd inst) result.

(** The accumulator operand of [exec_reg_multiply]: the test of [ra]
    against 32 and the read of the register otherwise. *)
Definition accumulator_64 (ra : Z) : M Z :=
  if ra =? 32 then ret 0 else get_reg_value_64 ra.

Definition accumulator_32 (ra : Z) : M Z :=
  if ra =? 32 then ret 0 else get_reg_value_32 ra.

(** [exec_reg_multiply], on the fields of a [RegMultiply]. *)
Definition exec_reg_multiply_fields (sf x rm ra rn rd : Z) : M unit :=
  if negb (sf =? 0)
  then rn_val <- get_reg_value_64 rn;;
       rm_val <- get_reg_value_64 rm;;
       ra_val <- accumulator_64 ra;;
       let temp_result :=
         if negb (x =? 0) then wrap64 (ra_val - wrap64 (rn_val * rm_val))
         else wrap64 (ra_val + wrap64 (rn_val * rm_val)) in
       let result := wrap64 temp_result in
       set_reg_value rd result
  else rn_val <- get_reg_value_32 rn;;
       rm_val <- get_reg_value_32 rm;;
       ra_val <- accumulator_32 ra;;
       let temp_result :=
         if negb (x =? 0) then wrap32 (ra_val - wrap32 (rn_val * rm_val))
         else wrap32 (ra_val + wrap32 (rn_val * rm_val)) in
       let result := wrap32 temp_result in
       set_reg_value rd result.

Definition exec_reg_multiply (inst : Z) : M unit :=
  exec_reg_multiply_fields (RegMultiply.sf inst) (RegMultiply.x inst)
    (RegMultiply.rm inst) (RegMultiply.ra inst) (RegMultiply.rn inst)
    (RegMultiply.rd inst).

Definition load_double_word (rt address : Z) : M unit :=
  v <- read_mem (λ m, Memory.get_double_word m address);; set_reg_value rt v.

Definition load_word (rt address : Z) : M unit :=
  v <- read_mem (λ m, Memory.get_word m address);; set_reg_value rt v.

Definition store_double_word (rt address : Z) : M unit :=
  v <- get_reg_value_64 rt;;
  write_mem (λ m, Memory.set_double_word m address v).

Definition store_word (rt address : Z) : M unit :=
  v <- get_reg_value_32 rt;;
  write_mem (λ m, Memory.set_word m address v).

Definition exec_dt_imm_offset (inst : Z) : M unit :=
  xn_val <- get_reg_value_64 (DTImmOffset.xn inst);;
  if negb (DTImmOffset.sf inst =? 0)
  then let address :=
         wrap32 (wrap64 (xn_val + DTImmOffset.imm12 inst * Memory.sizeof_double_word)) in
       if negb (DTImmOffset.L inst =? 0)
       then load_double_word (DTImmOffset.rt inst) address
       else store_double_word (DTImmOffset.rt inst) address
  else let address :=
         wrap32 (wrap64 (xn_val + DTImmOffset.imm12 inst * Memory.sizeof_word)) in
       if negb (DTImmOffset.L inst =? 0)
       then load_word (DTImmOffset.rt inst) address
       else store_word (DTImmOffset.rt inst) address.

Definition exec_dt_reg_offset (inst : Z) : M unit :=
  xn_val <- get_reg_value_64 (DTRegOffset.xn inst);;
  xm_val <- get_reg_value_64 (DTRegOffset.xm inst);;
  let address := wrap32 (wrap64 (xn_val + xm_val)) in
  if negb (DTRegOffset.sf inst =? 0)
  then if negb (DTRegOffset.L inst =? 0)
       then load_double_word (DTRegOffset.rt inst) address
       else store_double_word (DTRegOffset.rt inst) address
  else if negb (DTRegOffset.L inst =? 0)
       then load_word (DTRegOffset.rt inst) address
       else store_word (DTRegOffset.rt inst) address.

Definition exec_dt_load_literal (inst : Z) : M unit :=
  pc <- get_program_counter;;
  let address :=
    wrap32 (wrap64 (pc + wrap64 (sign_extend (DTLoadLiteral.simm19 inst) 19
                                 * Memory.sizeof_word))) in
  if negb (DTLoadLiteral.sf inst =? 0)
  then load_double_word (DTLoadLiteral.rt inst) address
  else load_word (DTLoadLiteral.rt inst) address.

Definition exec_dt_pre_index (inst : Z) : M unit :=
  xn_val <- get_reg_value_64 (DTPrePostIndex.xn inst);;
  let new_address :=
    wrap32 (wrap64 (xn_val + sign_extend (DTPrePostIndex.simm9 inst) 9)) in
  set_reg_value (DTPrePostIndex.xn inst) new_address;;;
  if negb (DTPrePostIndex.sf inst =? 0)
  then if negb (DTPrePostIndex.L inst =? 0)
       then load_double_word (DTPrePostIndex.rt inst) new_address
       else store_double_word (DTPrePostIndex.rt inst) new_address
  else if negb (DTPrePostIndex.L inst =? 0)
       then load_word (DTPrePostIndex.rt inst) new_address
       else store_word (DTPrePostIndex.rt inst) new_address.

(** [exec_dt_post_index].  The store of the 32-bit branch calls
    [set_double_word] with [get_reg_value_64], as the source does. *)
Definition exec_dt_post_index (inst : Z) : M unit :=
  xn_val <- get_reg_value_64 (DTPrePostIndex.xn inst);;
  let address := wrap32 xn_val in
  if negb (DTPrePostIndex.sf inst =? 0)
  then (if negb (DTPrePostIndex.L inst =? 0)
        then load_double_word (DTPrePostIndex.rt inst) address
        else store_double_word (DTPrePostIndex.rt inst) address);;;
       set_reg_value (DTPrePostIndex.xn inst)
         (address + sign_extend (DTPrePostIndex.simm9 inst) 9)
  else (if negb (DTPrePostIndex.L inst =? 0)
        then load_word (DTPrePostIndex.rt inst) address
        else store_double_word (DTPrePostIndex.rt inst) address);;;
       set_reg_value (DTPrePostIndex.xn inst)
         (address + sign_extend (DTPrePostIndex.simm9 inst) 9).

Definition exec_branch_uncond (inst : Z) : M unit :=
  let offset := sign_extend (BranchUncond.simm26 inst) 26 * INSTR_SIZE in
  increase_pc offset.

Definition branch_condition (cond : Z) (ps : processor_state) : bool :=
  if cond =? ITP_EQ then zero_flag ps
  else if cond =? ITP_NE then negb (zero_flag ps)
  else if cond =? ITP_GE then eqb (negative_flag ps) (overflow_flag ps)
  else if cond =? ITP_LT then negb (eqb (negative_flag ps) (overflow_flag ps))
  else if cond =? ITP_GT
  then negb (zero_flag ps) && eqb (negative_flag ps) (overflow_flag ps)
  else if cond =? ITP_LE
  then negb (negb (zero_flag ps) && eqb (negative_flag ps) (overflow_flag ps))
  else if cond =? ITP_AL then true
  else false.

Definition exec_branch_cond (inst : Z) : M unit :=
  let offset := sign_extend (BranchCond.simm19 inst) 19 * INSTR_SIZE in
  s <- get_state;;
  if branch_condition (BranchCond.cond inst) (pstate s)
  then increase_pc offset
  else increment_pc.

Definition exec_branch_reg (inst : Z) : M unit :=
  v <- get_reg_value_64 (BranchReg.xn inst);; set_program_counter v.

Definition unknown_instruction (inst : Z) : M unit :=
  pc <- get_program_counter;; exit_failure (UnknownInstruction inst pc).

(** The data-transfer group of [decode_and_execute]. *)
Definition decode_and_execute_dt (inst : Z) : M unit :=
  if (GeneralDT.op0_1 inst =? ITP_DT_1) && (GeneralDT.op0_2 inst =? ITP_DT_2)
  then if DTLoadLiteral.id inst =? ITP_DT_LOAD_LITERAL
       then exec_dt_load_literal inst
       else if DTImmOffset.U inst =? ITP_DT_IMM_OFFSET
       then exec_dt_imm_offset inst
       else if DTRegOffset.id2 inst =? ITP_DT_REGISTER_OFFSET
       then exec_dt_reg_offset inst
       else if DTPrePostIndex.I inst =? ITP_DT_PRE_INDEX
       then exec_dt_pre_index inst
       else exec_dt_post_index inst
  else unknown_instruction inst.

(** The data-processing-register group, falling through to the next. *)
Definition decode_and_execute_dp_reg (inst : Z) : M unit :=
  if GeneralDpReg.op0 inst =? ITP_DP_REG
  then if RegMultiply.M inst =? ITP_REG_MULTIPLY
       then exec_reg_multiply inst
       else if RegArith.id inst =? ITP_REG_ARITH
       then exec_reg_arithmetic inst
       else if RegLogic.id inst =? ITP_REG_LOGIC
       then exec_reg_logic inst
       else decode_and_execute_dt inst
  else decode_and_execute_dt inst.

Definition decode_and_execute (inst : Z) : M unit :=
  if GeneralBranch.op0 inst =? ITP_BRANCH
  then if BranchUncond.id inst =? ITP_BRANCH_UNCOND
       then exec_branch_uncond inst
       else if BranchCond.id inst =? ITP_BRANCH_COND
       then exec_branch_cond inst
       else exec_branch_reg inst
  else if GeneralDpImm.op0 inst =? ITP_DP_IMM
  then if ImmArith.opi inst =? ITP_IMM_ARITH
       then exec_imm_arithmetic inst
       else if ImmWide.opi inst =? ITP_WIDE_MOVE
       then exec_wide_move inst
       else decode_and_execute_dp_reg inst
  else decode_and_execute_dp_reg inst.

(** [run_cpu].  The loop of the source has no bound; [fuel] bounds the
    number of executed instructions, and the result tells whether the
    halt instruction was fetched. *)
Fixpoint run_cpu (fuel : nat) : M bool :=
  inst <- fetch;;
  if inst =? HALT_INSTRUCTION then ret true
  else match fuel with
       | O => ret false
       | S fuel' =>
           decode_and_execute inst;;;
           (if GeneralBranch.op0 inst =? ITP_BRANCH then ret tt
            else increment_pc);;;
           run_cpu fuel'
       end.

(** [step_instruction], the single cycle of the debugger: the fetched
    word is executed before it is compared with the halt instruction. *)
Definition step_instruction : M bool :=
  inst <- fetch;;
  decode_and_execute inst;;;
  (if GeneralBranch.op0 inst =? ITP_BRANCH then ret tt else increment_pc);;;
  ret (negb (inst =? HALT_INSTRUCTION)).

(** [init_cpu], with the content of the input file as a list of bytes. *)
Definition init_cpu (file : list Z) : result machine :=
  let s := {| gen_registers := []; program_counter := 0; stack_pointer := 0;
              pstate := initial_pstate; mem := Memory.init_memory |} in
  let s := init_register s in
  result_bind (Memory.load_instructions_to_memory (mem s) file)
    (λ m, Ok (with_mem m s)).

(** The [PSTATE] line that [print_cpu] writes. *)
Definition pstate_line (ps : processor_state) : string :=
  "PSTATE : " +:+ (if negative_flag ps then "N" else "-")
              +:+ (if zero_flag ps then "Z" else "-")
              +:+ (if carry_flag ps then "C" else "-")
              +:+ (if overflow_flag ps then "V" else "-").

(** [emulate]: the machine after [run_cpu], when the program halts
    within [fuel] instructions. *)
Definition emulate (fuel : nat) (file : list Z) : result (bool * machine) :=
  result_bind (init_cpu file) (run_cpu fuel).

End Cpu.

(** ** Symbol table ([symbol_table.c])

    [labels] maps a defined label to its address; [addresses] maps a
    label to the addresses of the instructions that referred to it before
    it was defined.  Both hash maps are keyed by the text of the label. *)

Record symbol_table : Type := {
  labels : gmap string Z;
  addresses : gmap string (list Z)
}.

Module SymbolTable.

Definition INSTR_SIZE : Z := 4.

Definition symbol_table_init : symbol_table :=
  {| labels := ∅; addresses := ∅ |}.

(** The three encodings that carry a branch literal. *)
Inductive literal_kind : Type :=
  | LitBranchUncond
  | LitBranchCond
  | LitLoadLiteral.

(** The cascade of tests of [modify_line]. *)
Definition literal_kind_of (inst : Z) : option literal_kind :=
  if (GeneralBranch.op0 inst =? ITP_BRANCH)
     && (BranchUncond.id inst =? ITP_BRANCH_UNCOND)
  then Some LitBranchUncond
  else if (GeneralBranch.op0 inst =? ITP_BRANCH)
          && (BranchCond.id inst =? ITP_BRANCH_COND)
  then Some LitBranchCond
  else if (GeneralDT.op0_1 inst =? ITP_DT_1)
          && (GeneralDT.op0_2 inst =? ITP_DT_2)
          && (DTLoadLiteral.id inst =? ITP_DT_LOAD_LITERAL)
  then Some LitLoadLiteral
  else None.

(** The displacement field of each encoding. *)
Definition literal_field (k : literal_kind) : bitfield :=
  match k with
  | LitBranchUncond => BranchUncond.simm26
  | LitBranchCond => BranchCond.simm19
  | LitLoadLiteral => DTLoadLiteral.simm19
  end.

(** The displacement field of a word of a given encoding. *)
Definition displacement (k : literal_kind) (inst : Z) : Z :=
  get (literal_field k) inst.

(** [modify_line]: the new content of [*instruction].  The difference of
    the two [uint32_t] addresses and its quotient by [INSTR_SIZE] are
    unsigned; the assignment to the bit field truncates. *)
Definition modify_line (instruction instruction_address literal_address : Z)
  : result Z :=
  let inst := wrap32 instruction in
  let offset :=
    to_int32
      (wrap32 (wrap32 literal_address - wrap32 instruction_address) / INSTR_SIZE) in
  match literal_kind_of inst with
  | Some k => Ok (put (literal_field k) offset inst)
  | None => Fatal (NotABranchLiteral inst)
  end.

(** The loop of [symbol_table_add_label] over the recorded addresses;
    [darray_get] aborts on an index outside the array. *)
Fixpoint modify_lines (instructions : list Z) (literal_address : Z)
    (addresses_of_instructions : list Z) : result (list Z) :=
  match addresses_of_instructions with
  | [] => Ok instructions
  | instruction_address :: rest =>
      let index := instruction_address / INSTR_SIZE in
      match instructions !! Z.to_nat index with
      | None => Fatal (IndexOutOfBounds index)
      | Some instruction =>
          result_bind (modify_line instruction instruction_address literal_address)
            (λ w, modify_lines (<[Z.to_nat index := w]> instructions)
                    literal_address rest)
      end
  end.

Definition symbol_table_add_label (st : symbol_table) (instructions : list Z)
    (literal_address : Z) (label : string)
  : result (symbol_table * list Z) :=
  match labels st !! label with
  | Some _ => Fatal (MultipleDefinitions label)
  | None =>
      let st' := {| labels := <[label := wrap32 literal_address]> (labels st);
                    addresses := addresses st |} in
      match addresses st !! label with
      | None => Ok (st', instructions)
      | Some addresses_of_instructions =>
          result_bind
            (modify_lines instructions literal_address addresses_of_instructions)
            (λ instructions', Ok (st', instructions'))
      end
  end.

(** [symbol_table_get_address]: the difference is formed in [int] and
    the division truncates towards zero. *)
Definition symbol_table_get_address (st : symbol_table)
    (instruction_address : Z) (label : string) : Z * symbol_table :=
  let instruction_address := wrap32 instruction_address in
  match labels st !! label with
  | Some literal_address =>
      (Z.quot (to_int32 (wrap32 (to_int32 literal_address
                                 - to_int32 instruction_address)))
              INSTR_SIZE,
       st)
  | None =>
      let addresses_of_instructions :=
        default [] (addresses st !! label) ++ [instruction_address] in
      (0, {| labels := labels st;
             addresses := <[label := addresses_of_instructions]> (addresses st) |})
  end.

End SymbolTable.

(** ** C strings ([string.h], [stdlib.h], [ctype.h]) *)

Module CString.

Definition chars (s : string) : list ascii := String.list_ascii_of_string s.
Definition of_chars (cs : list ascii) : string := String.string_of_list_ascii cs.

Definition code (c : ascii) : Z := Z.of_nat (nat_of_ascii c).

Definition char_eqb (c d : ascii) : bool := code c =? code d.

(** [str[0] == c] and [str[strlen(str) - 1] == c]. *)
Definition first_is (c : ascii) (s : string) : bool :=
  match chars s with
  | d :: _ => char_eqb c d
  | [] => false
  end.

Definition last_is (c : ascii) (s : string) : bool :=
  match last (chars s) with
  | Some d => char_eqb c d
  | None => false
  end.

(** [str + 1]. *)
Definition skip1 (s : string) : string := of_chars (drop 1 (chars s)).

(** The string with its last [n] characters cut off. *)
Definition chop (n : nat) (s : string) : string :=
  of_chars (take (length (chars s) - n) (chars s)).

Definition streq (s t : string) : bool := bool_decide (s = t).

(** [strncmp(s, p, strlen(p)) == 0]. *)
Fixpoint has_prefix (p s : list ascii) : bool :=
  match p, s with
  | [], _ => true
  | c :: p', d :: s' => char_eqb c d && has_prefix p' s'
  | _ :: _, [] => false
  end.

Definition starts_with (p s : string) : bool := has_prefix (chars p) (chars s).

Definition isdigit (c : ascii) : bool := (48 <=? code c) && (code c <=? 57).
Definition isalpha (c : ascii) : bool :=
  ((65 <=? code c) && (code c <=? 90)) || ((97 <=? code c) && (code c <=? 122)).
Definition isalnum (c : ascii) : bool := isalpha c || isdigit c.
Definition isspace (c : ascii) : bool :=
  (code c =? 32) || ((9 <=? code c) && (code c <=? 13)).

(** The tokens [strtok] yields: the maximal runs of characters that are
    not delimiters. *)
Fixpoint tokens_from (delims : list ascii) (cur : list ascii) (s : list ascii)
  : list (list ascii) :=
  match s with
  | [] => match cur with [] => [] | _ => [reverse cur] end
  | c :: s' =>
      if existsb (char_eqb c) delims
      then match cur with
           | [] => tokens_from delims [] s'
           | _ => reverse cur :: tokens_from delims [] s'
           end
      else tokens_from delims (c :: cur) s'
  end.

Definition tokens (delims s : string) : list string :=
  of_chars <$> tokens_from (chars delims) [] (chars s).

(** The buffer after a first call [strtok(s, delims)]: the terminator
    is written over the delimiter that ends the first token. *)
Fixpoint cut_after_token (delims : list ascii) (in_token : bool)
    (s : list ascii) : list ascii :=
  match s with
  | [] => []
  | c :: s' =>
      if existsb (char_eqb c) delims
      then if in_token then [] else c :: cut_after_token delims false s'
      else c :: cut_after_token delims true s'
  end.

Definition strtok_cut (delims s : string) : string :=
  of_chars (cut_after_token (chars delims) false (chars s)).

(** [strtol]: white space, a sign, for base 16 a [0x] prefix, then the
    longest run of digits; the value is clamped to the range of [long]. *)
Definition digit_value (base : Z) (c : ascii) : option Z :=
  let d := if isdigit c then Some (code c - 48)
           else if (97 <=? code c) && (code c <=? 122) then Some (code c - 87)
           else if (65 <=? code c) && (code c <=? 90) then Some (code c - 55)
           else None in
  match d with
  | Some v => if v <? base then Some v else None
  | None => None
  end.

Fixpoint digits_value (base acc : Z) (s : list ascii) : Z :=
  match s with
  | [] => acc
  | c :: s' =>
      match digit_value base c with
      | Some v => digits_value base (acc * base + v) s'
      | None => acc
      end
  end.

Fixpoint skip_spaces (s : list ascii) : list ascii :=
  match s with
  | c :: s' => if isspace c then skip_spaces s' else s
  | [] => []
  end.

Definition skip_hex_prefix (s : list ascii) : list ascii :=
  match s with
  | z :: x :: h :: s' =>
      if (code z =? 48) && ((code x =? 120) || (code x =? 88))
         && bool_decide (is_Some (digit_value 16 h))
      then h :: s' else s
  | _ => s
  end.

Definition strtol (s : string) (base : Z) : Z :=
  let s := skip_spaces (chars s) in
  let '(negative, s) :=
    match s with
    | c :: s' => if code c =? 45 then (true, s')
                 else if code c =? 43 then (false, s') else (false, s)
    | [] => (false, s)
    end in
  let s := if base =? 16 then skip_hex_prefix s else s in
  let v := digits_value base 0 s in
  let v := if negative then - v else v in
  Z.max (- 2 ^ 63) (Z.min (2 ^ 63 - 1) v).

(** [atoi(s)] is [(int) strtol(s, NULL, 10)]. *)
Definition atoi (s : string) : Z := to_int32 (wrap32 (strtol s 10)).

End CString.

(** ** Line decoder ([decode_helper.c], [decode.c]) *)

Record assembler : Type := {
  table : symbol_table;
  instructions : list Z;
  current_address : Z
}.

Module Decode.
Import CString SymbolTable.
Local Open Scope res_scope.

Definition OPCODE_SIZE : nat := 10.
Definition MAX_NUM_OPERANDS : nat := 5.
Definition ZERO_REGISTER : string := "rzr".
Definition ZERO_REGISTER_INDEX : Z := 31.
Definition DIV_VAL_HW : Z := 16.
Definition DT_REG_PATTERN : Z := 26.
Definition BR_REG_PATTERN : Z := 543.

Definition is_zero_register (s : string) : bool := streq (skip1 s) "zr".
Definition is_bit_mode_32 (s : string) : bool := first_is "w" s.
Definition is_bit_mode_64 (s : string) : bool := first_is "x" s.
Definition is_valid_register (s : string) : bool :=
  is_bit_mode_32 s || is_bit_mode_64 s || is_zero_register s.
Definition is_hex_number (s : string) : bool := starts_with "0x" s.
Definition is_immediate (s : string) : bool := first_is "#" s.
Definition is_set_flags (opcode : string) : bool :=
  Nat.eqb (length (chars opcode)) 4.
Definition is_pre_index (s : string) : bool := last_is "!" s.

Definition is_label (s : string) : bool := last_is ":" s.

Definition is_label_literal (s : string) : bool :=
  match chars s with
  | [] => false
  | c :: rest =>
      (isalpha c || char_eqb c "_" || char_eqb c ".")
      && forallb (λ d, isalnum d || char_eqb d "$" || char_eqb d "_"
                       || char_eqb d ".") rest
  end.

Definition is_directive (s : string) : bool := first_is "." s.
Definition is_int_directive (s : string) : bool := streq s ".int".

Definition assert_msg (cond : bool) (what : string) : result unit :=
  if cond then Ok tt else Fatal (AssertionFailed what).

Definition read_reg_value (opcode_segment : string) : result Z :=
  assert_msg (is_valid_register opcode_segment) "is_valid_register";;;
  if is_zero_register opcode_segment then Ok ZERO_REGISTER_INDEX
  else Ok (wrap32 (atoi (skip1 opcode_segment))).

Definition read_imm_value (opcode_segment : string) : Z :=
  let opcode_segment :=
    if is_immediate opcode_segment then skip1 opcode_segment
    else opcode_segment in
  if is_hex_number opcode_segment then wrap32 (strtol opcode_segment 16)
  else wrap32 (atoi opcode_segment).

Definition read_shift_type (opcode_segment : string) : result Z :=
  if streq opcode_segment "lsl" then Ok ITP_LSL
  else if streq opcode_segment "lsr" then Ok ITP_LSR
  else if streq opcode_segment "asr" then Ok ITP_ASR
  else if streq opcode_segment "ror" then Ok ITP_ROR
  else Fatal (EncodingError "Unrecognised shift name").

Definition read_branch_cond_type (opcode_segment : string) : result Z :=
  assert_msg (starts_with "b." opcode_segment) "branch condition";;;
  let cond := skip1 (skip1 opcode_segment) in
  if streq cond "eq" then Ok ITP_EQ
  else if streq cond "ne" then Ok ITP_NE
  else if streq cond "ge" then Ok ITP_GE
  else if streq cond "lt" then Ok ITP_LT
  else if streq cond "gt" then Ok ITP_GT
  else if streq cond "le" then Ok ITP_LE
  else if streq cond "al" then Ok ITP_AL
  else Fatal (EncodingError "Unrecognised branch condition name").

Definition is_opcode (opcode : string) (opcodes : list string) : bool :=
  existsb (streq opcode) opcodes.

(** The array [operands]: five slots, [None] for a null pointer. *)
Definition operand (operands : list (option string)) (i : nat) : option string :=
  default None (operands !! i).

(** Passing an operand to code that reads the string. *)
Definition deref (o : option string) : result string :=
  match o with
  | Some s => Ok s
  | None => Fatal NullPointer
  end.

Definition assert_num_opcodes (operands : list (option string))
    (num_required : nat) : result unit :=
  assert_msg (forallb (λ o, bool_decide (is_Some o)) (take num_required operands))
    "Not enough arguments".

Definition OPERAND_1 : nat := 0.
Definition OPERAND_2 : nat := 1.
Definition OPERAND_3 : nat := 2.
Definition OPERAND_4 : nat := 3.
Definition OPERAND_5 : nat := 4.

(** The bit mode of an instruction whose first operand may be the zero
    register. *)
Definition bit_mode (op1 op2 : string) : Z :=
  if is_zero_register op1 then Z.b2z (is_bit_mode_64 op2)
  else Z.b2z (is_bit_mode_64 op1).

Definition assemble_multiply (opcode : string) (operands : list (option string))
  : result Z :=
  assert_num_opcodes operands 4;;;
  op1 <- deref (operand operands OPERAND_1);;
  op2 <- deref (operand operands OPERAND_2);;
  op3 <- deref (operand operands OPERAND_3);;
  op4 <- deref (operand operands OPERAND_4);;
  let inst := 0 in
  let inst := put RegMultiply.op0 ITP_DP_REG inst in
  let inst := put RegMultiply.M 1 inst in
  let inst := put RegMultiply.id 1 inst in
  let inst := put RegMultiply.sf (Z.b2z (is_bit_mode_64 op1)) inst in
  rd <- read_reg_value op1;;
  let inst := put RegMultiply.rd rd inst in
  rn <- read_reg_value op2;;
  let inst := put RegMultiply.rn rn inst in
  rm <- read_reg_value op3;;
  let inst := put RegMultiply.rm rm inst in
  ra <- read_reg_value op4;;
  let inst := put RegMultiply.ra ra inst in
  let inst :=
    put RegMultiply.x (Z.b2z (streq opcode "msub" || streq opcode "mneg")) inst in
  Ok inst.

Definition assemble_add_sub (opcode : string) (operands : list (option string))
  : result Z :=
  assert_num_opcodes operands 3;;;
  op1 <- deref (operand operands OPERAND_1);;
  op2 <- deref (operand operands OPERAND_2);;
  op3 <- deref (operand operands OPERAND_3);;
  let inst := 0 in
  let inst := put ImmArith.sf (bit_mode op1 op2) inst in
  let inst := put ImmArith.opc_op (Z.b2z (starts_with "sub" opcode)) inst in
  let inst := put ImmArith.opc_flag (Z.b2z (is_set_flags opcode)) inst in
  rn <- read_reg_value op2;;
  let inst := put ImmArith.rn rn inst in
  rd <- read_reg_value op1;;
  let inst := put ImmArith.rd rd inst in
  if is_immediate op3
  then let inst := put ImmArith.op0 ITP_DP_IMM inst in
       let inst := put ImmArith.opi ITP_IMM_ARITH inst in
       let inst :=
         match operand operands OPERAND_5 with
         | Some op5 =>
             put ImmArith.sh (Z.b2z (negb (read_imm_value op5 =? 0))) inst
         | None => inst
         end in
       Ok (put ImmArith.imm12 (read_imm_value op3) inst)
  else let inst := put RegArith.op0 ITP_DP_REG inst in
       let inst := put RegArith.id ITP_REG_ARITH inst in
       rm <- read_reg_value op3;;
       let inst := put RegArith.rm rm inst in
       match operand operands OPERAND_4 with
       | Some op4 =>
           shift <- read_shift_type op4;;
           let inst := put RegArith.shift shift inst in
           op5 <- deref (operand operands OPERAND_5);;
           Ok (put RegArith.operand (read_imm_value op5) inst)
       | None => Ok inst
       end.

Definition assemble_wide_move (opcode : string) (operands : list (option string))
  : result Z :=
  assert_num_opcodes operands 2;;;
  op1 <- deref (operand operands OPERAND_1);;
  op2 <- deref (operand operands OPERAND_2);;
  let inst := 0 in
  let inst := put ImmWide.opi ITP_WIDE_MOVE inst in
  let inst := put ImmWide.op0 ITP_DP_IMM inst in
  let inst := put ImmWide.sf (bit_mode op1 op2) inst in
  let inst :=
    if streq opcode "movn" then put ImmWide.opc ITP_MOVN inst
    else if streq opcode "movk" then put ImmWide.opc ITP_MOVK inst
    else if streq opcode "movz" then put ImmWide.opc ITP_MOVZ inst
    else inst in
  rd <- read_reg_value op1;;
  let inst := put ImmWide.rd rd inst in
  let inst := put ImmWide.imm16 (read_imm_value op2) inst in
  match operand operands OPERAND_3 with
  | Some _ =>
      op4 <- deref (operand operands OPERAND_4);;
      Ok (put ImmWide.hw (read_imm_value op4 / DIV_VAL_HW) inst)
  | None => Ok inst
  end.

Definition assemble_logic (opcode : string) (operands : list (option string))
  : result Z :=
  assert_num_opcodes operands 3;;;
  op1 <- deref (operand operands OPERAND_1);;
  op2 <- deref (operand operands OPERAND_2);;
  op3 <- deref (operand operands OPERAND_3);;
  let inst := 0 in
  let inst := put RegLogic.op0 ITP_DP_REG inst in
  let inst := put RegLogic.sf (bit_mode op1 op2) inst in
  let inst :=
    if streq opcode "and" || streq opcode "bic"
    then put RegLogic.opc ITP_AND inst
    else if streq opcode "orr" || streq opcode "orn"
    then put RegLogic.opc ITP_OR inst
    else if streq opcode "eor" || streq opcode "eon"
    then put RegLogic.opc ITP_XOR inst
    else if streq opcode "ands" || streq opcode "bics"
    then put RegLogic.opc ITP_AND_W_FLAGS inst
    else inst in
  let inst :=
    put RegLogic.N (Z.b2z (is_opcode opcode ["bic"; "orn"; "eon"; "bics"])) inst in
  inst <-
    match operand operands OPERAND_4 with
    | Some op4 =>
        shift <- read_shift_type op4;;
        let inst := put RegLogic.shift shift inst in
        op5 <- deref (operand operands OPERAND_5);;
        Ok (put RegLogic.operand (read_imm_value op5) inst)
    | None => Ok inst
    end;;
  rd <- read_reg_value op1;;
  let inst := put RegLogic.rd rd inst in
  rn <- read_reg_value op2;;
  let inst := put RegLogic.rn rn inst in
  rm <- read_reg_value op3;;
  Ok (put RegLogic.rm rm inst).

(** A literal operand of [ldr] or of a branch consults the symbol table
    at the address of the instruction being assembled. *)
Definition assemble_load_store (st : symbol_table) (current_address : Z)
    (opcode : string) (operands : list (option string))
  : result (Z * symbol_table) :=
  assert_num_opcodes operands 2;;;
  op1 <- deref (operand operands OPERAND_1);;
  op2 <- deref (operand operands OPERAND_2);;
  let inst := 0 in
  rt <- read_reg_value op1;;
  let inst := put DTImmOffset.rt rt inst in
  let inst := put DTImmOffset.sf (Z.b2z (is_bit_mode_64 op1)) inst in
  match operand operands OPERAND_3 with
  | None =>
      if negb (first_is "[" op2)
      then (* load literal *)
           let inst := put DTLoadLiteral.op0_1 1 inst in
           let inst := put DTLoadLiteral.NIL_3 1 inst in
           if is_label_literal op2
           then let '(offset, st') :=
                  symbol_table_get_address st current_address op2 in
                Ok (put DTLoadLiteral.simm19 offset inst, st')
           else if is_immediate op2
           then Ok (put DTLoadLiteral.simm19
                      (read_imm_value op2 / SymbolTable.INSTR_SIZE) inst, st)
           else Fatal (EncodingError "Unknown operand")
      else (* zero offset *)
           let inst := put DTImmOffset.id 1 inst in
           let inst := put DTImmOffset.NIL_5 1 inst in
           let inst := put DTImmOffset.NIL_4 1 inst in
           let inst := put DTImmOffset.op0_1 1 inst in
           let inst :=
             put DTImmOffset.L (Z.b2z (streq opcode "ldr")) inst in
           xn <- read_reg_value (skip1 op2);;
           let inst := put DTImmOffset.xn xn inst in
           Ok (put DTImmOffset.U 1 inst, st)
  | Some op3 =>
      let inst := put DTImmOffset.id 1 inst in
      let inst := put DTImmOffset.NIL_5 1 inst in
      let inst := put DTImmOffset.NIL_4 1 inst in
      let inst := put DTImmOffset.op0_1 1 inst in
      let inst := put DTImmOffset.L (Z.b2z (streq opcode "ldr")) inst in
      xn <- read_reg_value (skip1 op2);;
      let inst := put DTImmOffset.xn xn inst in
      if is_pre_index op3
      then let inst := put DTPrePostIndex.I 1 inst in
           let inst := put DTPrePostIndex.NIL_1 1 inst in
           Ok (put DTPrePostIndex.simm9 (read_imm_value (chop 2 op3)) inst, st)
      else if is_immediate op3 && negb (last_is "]" op3)
      then let inst := put DTPrePostIndex.NIL_1 1 inst in
           Ok (put DTPrePostIndex.simm9 (read_imm_value op3) inst, st)
      else if is_immediate op3
      then let inst := put DTImmOffset.U 1 inst in
           let immediate := read_imm_value op3 in
           if negb (DTImmOffset.sf inst =? 0)
           then Ok (put DTImmOffset.imm12 (immediate / 8) inst, st)
           else Ok (put DTImmOffset.imm12 (immediate / 4) inst, st)
      else if last_is "]" op3
      then let inst := put DTRegOffset.id2 1 inst in
           let inst := put DTRegOffset.NIL_1 DT_REG_PATTERN inst in
           xm <- read_reg_value (chop 1 op3);;
           Ok (put DTRegOffset.xm xm inst, st)
      else Fatal (EncodingError "Unknown load/store type")
  end.

Definition assemble_branch (st : symbol_table) (current_address : Z)
    (opcode : string) (operands : list (option string))
  : result (Z * symbol_table) :=
  assert_num_opcodes operands 1;;;
  op1 <- deref (operand operands OPERAND_1);;
  let inst := 0 in
  let inst := put BranchCond.op0 ITP_BRANCH inst in
  if streq opcode "b"
  then let inst := put BranchUncond.id ITP_BRANCH_UNCOND inst in
       assert_msg (is_label_literal op1) "First operand is not a label";;;
       let '(offset, st') := symbol_table_get_address st current_address op1 in
       Ok (put BranchUncond.simm26 offset inst, st')
  else if starts_with "b." opcode
  then let inst := put BranchCond.id ITP_BRANCH_COND inst in
       cond <- read_branch_cond_type opcode;;
       let inst := put BranchCond.cond cond inst in
       assert_msg (is_label_literal op1) "First operand is not a label";;;
       let '(offset, st') := symbol_table_get_address st current_address op1 in
       Ok (put BranchCond.simm19 offset inst, st')
  else if streq opcode "br"
  then let inst := put BranchReg.id ITP_BRANCH_REG inst in
       let inst := put BranchReg.NIL_3 BR_REG_PATTERN inst in
       xn <- read_reg_value op1;;
       Ok (put BranchReg.xn xn inst, st)
  else Fatal (EncodingError "Unknown branch instruction type").

(** [op2] moves to the third slot and the zero register takes its place. *)
Definition insert_zero_second (operands : list (option string))
  : list (option string) :=
  <[OPERAND_2 := Some ZERO_REGISTER]>
    (<[OPERAND_3 := operand operands OPERAND_2]> operands).

(** Both operands move up and the zero register becomes the first. *)
Definition insert_zero_first (operands : list (option string))
  : list (option string) :=
  <[OPERAND_1 := Some ZERO_REGISTER]>
    (<[OPERAND_2 := operand operands OPERAND_1]>
       (<[OPERAND_3 := operand operands OPERAND_2]> operands)).

Definition convert_aliases (opcode : string) (operands : list (option string))
  : string * list (option string) :=
  let shift_alias := is_opcode opcode ["neg"; "negs"; "cmp"; "cmn"; "tst"] in
  let operands :=
    if shift_alias && bool_decide (is_Some (operand operands OPERAND_3))
    then <[OPERAND_4 := operand operands OPERAND_3]>
           (<[OPERAND_5 := operand operands OPERAND_4]> operands)
    else operands in
  if shift_alias && streq opcode "neg"
  then ("sub", insert_zero_second operands)
  else if shift_alias && streq opcode "negs"
  then ("subs", insert_zero_second operands)
  else if shift_alias && streq opcode "cmn"
  then ("adds", insert_zero_first operands)
  else if shift_alias && streq opcode "cmp"
  then ("subs", insert_zero_first operands)
  else if streq opcode "mul"
  then ("madd", <[OPERAND_4 := Some ZERO_REGISTER]> operands)
  else if streq opcode "mneg"
  then ("msub", <[OPERAND_4 := Some ZERO_REGISTER]> operands)
  else if streq opcode "tst"
  then ("ands", insert_zero_first operands)
  else if streq opcode "mvn"
  then ("orn", insert_zero_second operands)
  else if streq opcode "mov"
  then ("orr", insert_zero_second operands)
  else (opcode, operands).

Definition determine_and_assemble (st : symbol_table) (current_address : Z)
    (opcode : string) (operands : list (option string))
  : result (Z * symbol_table) :=
  if is_directive opcode
  then assert_msg (is_int_directive opcode) "Unknown directive";;;
       op1 <- deref (operand operands OPERAND_1);;
       Ok (read_imm_value op1, st)
  else if is_opcode opcode ["add"; "adds"; "sub"; "subs"]
  then w <- assemble_add_sub opcode operands;; Ok (w, st)
  else if is_opcode opcode ["madd"; "msub"]
  then w <- assemble_multiply opcode operands;; Ok (w, st)
  else if is_opcode opcode
            ["and"; "ands"; "bic"; "bics"; "orn"; "orr"; "eor"; "eon"]
  then w <- assemble_logic opcode operands;; Ok (w, st)
  else if is_opcode opcode ["movn"; "movz"; "movk"]
  then w <- assemble_wide_move opcode operands;; Ok (w, st)
  else if is_opcode opcode ["ldr"; "str"]
  then assemble_load_store st current_address opcode operands
  else if is_opcode opcode ["b"; "br"] || starts_with "b." opcode
  then assemble_branch st current_address opcode operands
  else Fatal (EncodingError "Haven't implemented this function type").

(** [decode]: one source line.  A segment that does not fit [opcode] and
    a sixth operand overrun their arrays; the model stops there. *)
Definition decode (assembly_line_input : string) (a : assembler)
  : result assembler :=
  let line := strtok_cut "/" assembly_line_input in
  match tokens ", " line with
  | [] => Fatal (AssertionFailed "str != NULL")
  | segment :: rest =>
      if is_label segment
      then r <- symbol_table_add_label (table a) (instructions a)
                  (current_address a) (chop 1 segment);;
           Ok {| table := r.1; instructions := r.2;
                 current_address := current_address a |}
      else if (OPCODE_SIZE <=? length (chars segment))%nat
              || (MAX_NUM_OPERANDS <? length rest)%nat
      then Fatal BufferOverrun
      else let operands :=
             (Some <$> rest)
             ++ replicate (MAX_NUM_OPERANDS - length rest) None in
           let '(opcode, operands) := convert_aliases segment operands in
           r <- determine_and_assemble (table a) (current_address a)
                  opcode operands;;
           Ok {| table := r.2; instructions := instructions a ++ [r.1];
                 current_address :=
                   wrap32 (current_address a + SymbolTable.INSTR_SIZE) |}
  end.

Definition decode_init : assembler :=
  {| table := symbol_table_init; instructions := []; current_address := 0 |}.

End Decode.

(** ** Assembler driver ([assemble.c]) *)

Module Assemble.
Import CString Decode.
Local Open Scope res_scope.

(** The string a call-back receives ends at the first null character. *)
Fixpoint c_string (cs : list ascii) : list ascii :=
  match cs with
  | [] => []
  | c :: cs' => if code c =? 0 then [] else c :: c_string cs'
  end.

(** [for_each_line_in_file]: the lines of the input, empty ones left
    out.  [fgetc] is read into a [char], so the byte 255 compares equal
    to [EOF]. *)
Fixpoint lines_from (cur : list ascii) (s : list ascii) : list string :=
  match s with
  | [] => match cur with [] => [] | _ => [of_chars (c_string (reverse cur))] end
  | c :: s' =>
      if code c =? 255
      then match cur with [] => [] | _ => [of_chars (c_string (reverse cur))] end
      else if code c =? 10
      then match cur with
           | [] => lines_from [] s'
           | _ => of_chars (c_string (reverse cur)) :: lines_from [] s'
           end
      else lines_from (c :: cur) s'
  end.

Fixpoint for_each_line (lines : list string) (a : assembler)
  : result assembler :=
  match lines with
  | [] => Ok a
  | line :: rest => a' <- decode line a;; for_each_line rest a'
  end.

(** [write_to_binray_file]: the bytes written to the output file. *)
Definition write_to_binary_file (instructions : list Z) : list Z :=
  mjoin (Memory.object_bytes 4 <$> instructions).

(** [assemble] followed by the return of [main]: [Ok] is the exit with
    [EXIT_SUCCESS], carrying the content of the output file. *)
Definition assemble (input : string) : result (list Z) :=
  a <- for_each_line (lines_from [] (chars input)) decode_init;;
  Ok (write_to_binary_file (instructions a)).

End Assemble.

(** ** Invariant of the assembler state

    The state between two lines: the current address is four times the
    number of emitted words and fits 32 bits; every recorded reference
    address is the 4-aligned address of an emitted word and is recorded
    for one label only; the word at an address recorded for a label that
    is not defined yet has a displacement field, which holds zero. *)

Record well_formed (a : assembler) : Prop := {
  wf_address :
    current_address a = 4 * Z.of_nat (length (instructions a));
  wf_bound :
    4 * Z.of_nat (length (instructions a)) < 2 ^ 32;
  wf_pending :
    ∀ label rs R, addresses (table a) !! label = Some rs → R ∈ rs →
      0 ≤ R < current_address a ∧ R mod 4 = 0;
  wf_owner :
    ∀ label1 label2 rs1 rs2 R,
      addresses (table a) !! label1 = Some rs1 →
      addresses (table a) !! label2 = Some rs2 →
      R ∈ rs1 → R ∈ rs2 → label1 = label2;
  wf_placeholder :
    ∀ label rs R,
      labels (table a) !! label = None →
      addresses (table a) !! label = Some rs → R ∈ rs →
      ∃ w k, instructions a !! Z.to_nat (R / 4) = Some w
             ∧ SymbolTable.literal_kind_of w = Some k
             ∧ get (SymbolTable.literal_field k) w = 0
}.

(** What assembling one instruction does to the symbol table: nothing,
    or one more reference, at the current address, to a label that is
    not defined; the word then has a displacement field that holds 0. *)
Definition table_step (st : symbol_table) (cur : Z) (w : Z)
    (st' : symbol_table) : Prop :=
  st' = st
  ∨ ∃ label k,
      labels st !! label = None
      ∧ st' = {| labels := labels st;
                 addresses :=
                   <[label := default [] (addresses st !! label) ++ [wrap32 cur]]>
                     (addresses st) |}
      ∧ SymbolTable.literal_kind_of w = Some k
      ∧ get (SymbolTable.literal_field k) w = 0.

(** ** Reference notions and concrete scenarios *)

Module Reference.

(** The value of a [w]-bit pattern read as a two's complement number. *)
Definition signed (w : Z) (a : Z) : Z :=
  if a mod 2 ^ w <? 2 ^ (w - 1) then a mod 2 ^ w else a mod 2 ^ w - 2 ^ w.

(** Signed overflow of a [w]-bit addition or subtraction, as the
    architecture defines the V flag: the exact result of the operation on
    the operands read as signed numbers is not a signed [w]-bit number. *)
Definition signed_overflow (w : Z) (subtract : bool) (a b : Z) : bool :=
  let exact := if subtract then signed w a - signed w b
               else signed w a + signed w b in
  negb ((- 2 ^ (w - 1) <=? exact) && (exact <? 2 ^ (w - 1))).

(** The displacement of a reference at [R] to a label at [addr], in
    words, as a field of the width of encoding [k] holds it. *)
Definition patched_displacement (k : SymbolTable.literal_kind) (addr R : Z)
  : Z :=
  (wrap32 (addr - R) / 4) mod 2 ^ width (SymbolTable.literal_field k).

End Reference.

Module Scenario.

Definition newline : string := String (ascii_of_nat 10) EmptyString.

(** A machine as [init_cpu] leaves it, with values in [X0] and [X1]. *)
Definition machine_with (x0 x1 : Z) : machine :=
  {| gen_registers := x0 :: x1 :: replicate 29 0;
     program_counter := 0; stack_pointer := 0;
     pstate := Cpu.initial_pstate; mem := Memory.init_memory |}.

(** [movz x0, #5] followed by the halt instruction, as source text and
    as the bytes of the binary file. *)
Definition movz_halt_source : string :=
  "movz x0, #5" +:+ newline +:+ "and x0, x0, x0" +:+ newline.

Definition movz_halt_image : list Z :=
  [0xA0; 0x00; 0x80; 0xD2; 0x00; 0x00; 0x00; 0x8A].

(** Instruction words used below, with their source text. *)
Definition adds_x2_x0_x1 : Z := 0xAB010002.
Definition subs_w2_w0_w1 : Z := 0x6B010002.
Definition str_w0_x1_post_8 : Z := 0xB8008420.
Definition str_w0_x1_pre_0 : Z := 0xB8000C20.

Definition instruction_sources : string :=
  "adds x2, x0, x1" +:+ newline +:+ "subs w2, w0, w1" +:+ newline
  +:+ "str w0, [x1], #8" +:+ newline +:+ "str w0, [x1, #0]!" +:+ newline.

(** A symbol table in which the branch at address 0 waits for the label
    [end], and the words emitted so far: [b end] with a zero placeholder
    and [movz x0, #7]; the same with a word without displacement field
    at the recorded address. *)
Definition pending_end : symbol_table :=
  {| labels := ∅; addresses := {["end" := [0]]} |}.

Definition emitted_branch : list Z := [0x14000000; 0xD28000E0].
Definition emitted_other : list Z := [0xD28000E0; 0xD28000E0].

(** A branch to a label that no line defines, and the state of the
    assembler after that line. *)
Definition dangling_branch_source : string := "b foo" +:+ newline.

Definition dangling_branch_state : assembler :=
  {| table := {| labels := ∅; addresses := {["foo" := [0]]} |};
     instructions := [0x14000000];
     current_address := 4 |}.

End Scenario.

(** ** Hash map ([hashmap.c])

    The two tables of the symbol table are hash maps with separate
    chaining.  A key is the text of a C string. *)

Module Hashmap.
Import CString.
Local Open Scope res_scope.

Definition INITIAL_NUM_BUCKETS : Z := 32.

(** [get_hash]: [hash * 33 + c] over the characters of the key, in
    [uint64_t]. *)
Definition get_hash (key : string) : Z :=
  foldl (λ hash c, wrap64 (wrap64 (wrap64 (Z.shiftl hash 5) + hash) + code c))
        0x1505 (chars key).

(** [bucket_index]: the [int] [num_buckets - 1] is converted to
    [uint64_t] for the mask, and the masked hash back to [int]. *)
Definition bucket_index (num_buckets : Z) (key : string) : Z :=
  to_int32 (wrap32 (Z.land (get_hash key) (wrap64 (num_buckets - 1)))).

Section WithValue.
Context {V : Type}.

(** An [Item] without its link: the key and the value, a [void *] that
    is [None] when it is null.  A bucket is the list of its items from
    the head. *)
Definition Item : Type := string * option V.

Record HashMap : Type := {
  buckets : list (list Item);
  size : Z;
  num_buckets : Z
}.

Fixpoint item_list_get_item (head : list Item) (key : string) : option Item :=
  match head with
  | [] => None
  | item :: next =>
      if streq item.1 key then Some item else item_list_get_item next key
  end.

Definition create_new_buckets (size : Z) : result (list (list Item)) :=
  Decode.assert_msg (0 <? size) "Size must be greater than 0";;;
  Ok (replicate (Z.to_nat size) []).

Definition hashmap_init : result HashMap :=
  new_buckets <- create_new_buckets INITIAL_NUM_BUCKETS;;
  Ok {| buckets := new_buckets; size := 0; num_buckets := INITIAL_NUM_BUCKETS |}.

(** [hmap->buckets[index]]: an index outside the array reads outside
    the allocation; the model stops there. *)
Definition bucket (hmap : HashMap) (index : Z) : result (list Item) :=
  if index <? 0 then Fatal (IndexOutOfBounds index)
  else match buckets hmap !! Z.to_nat index with
       | Some head => Ok head
       | None => Fatal (IndexOutOfBounds index)
       end.

(** One round of the re-insertion loop: the item becomes the head of
    its new bucket.  The index is inside the new array, whose size
    [create_new_buckets] has checked to be positive. *)
Definition reinsert (num_buckets : Z) (new_buckets : list (list Item))
    (item : Item) : list (list Item) :=
  alter (cons item) (Z.to_nat (bucket_index num_buckets item.1)) new_buckets.

(** [resize_if_necessary].  The test [size < num_buckets * 0.75] is made
    in [double], where both sides are exact; the doubling is made in
    [int]. *)
Definition resize_if_necessary (hmap : HashMap) : result HashMap :=
  if 4 * size hmap <? 3 * num_buckets hmap then Ok hmap
  else let previous_buckets := buckets hmap in
       let previous_num_buckets := num_buckets hmap in
       let num := to_int32 (wrap32 (num_buckets hmap * 2)) in
       new_buckets <- create_new_buckets num;;
       Ok {| buckets :=
               foldl (reinsert num) new_buckets
                 (mjoin (take (Z.to_nat previous_num_buckets) previous_buckets));
             size := size hmap;
             num_buckets := num |}.

Definition hashmap_contains (hmap : HashMap) (key : string) : result bool :=
  head <- bucket hmap (bucket_index (num_buckets hmap) key);;
  Ok (bool_decide (is_Some (item_list_get_item head key))).

Definition hashmap_get (hmap : HashMap) (key : string) : result (option V) :=
  head <- bucket hmap (bucket_index (num_buckets hmap) key);;
  match item_list_get_item head key with
  | Some item => Ok item.2
  | None => Ok None
  end.

(** The traversal of [hashmap_set]: the first item with the key gets
    the new value, and its old value is returned. *)
Fixpoint item_list_set (head : list Item) (key : string) (value : option V)
  : option (option V * list Item) :=
  match head with
  | [] => None
  | item :: next =>
      if streq item.1 key then Some (item.2, (item.1, value) :: next)
      else match item_list_set next key value with
           | Some (old_value, next') => Some (old_value, item :: next')
           | None => None
           end
  end.

(** A new item at the head of bucket [index], whose former head is
    [head]. *)
Definition insert_new (hmap : HashMap) (index : Z) (head : list Item)
    (key : string) (value : option V) : result (option V * HashMap) :=
  hmap' <- resize_if_necessary
             {| buckets := <[Z.to_nat index := (key, value) :: head]> (buckets hmap);
                size := to_int32 (wrap32 (size hmap + 1));
                num_buckets := num_buckets hmap |};;
  Ok (None, hmap').

Definition hashmap_set (hmap : HashMap) (key : string) (value : option V)
  : result (option V * HashMap) :=
  let index := bucket_index (num_buckets hmap) key in
  head <- bucket hmap index;;
  match head with
  | [] => insert_new hmap index [] key value
  | _ :: _ =>
      match item_list_set head key value with
      | Some (old_value, head') =>
          Ok (old_value,
              {| buckets := <[Z.to_nat index := head']> (buckets hmap);
                 size := size hmap;
                 num_buckets := num_buckets hmap |})
      | None => insert_new hmap index head key value
      end
  end.

Definition hashmap_size (hmap : HashMap) : Z := size hmap.

(** The loop of [hashmap_remove] over [head->next]: the first item with
    the key is unlinked. *)
Fixpoint item_list_remove_next (next : list Item) (key : string)
  : option (option V * list Item) :=
  match next with
  | [] => None
  | item :: rest =>
      if streq item.1 key then Some (item.2, rest)
      else match item_list_remove_next rest key with
           | Some (value, rest') => Some (value, item :: rest')
           | None => None
           end
  end.

Definition hashmap_remove (hmap : HashMap) (key : string)
  : result (option V * HashMap) :=
  let index := bucket_index (num_buckets hmap) key in
  head <- bucket hmap index;;
  let without head' :=
    {| buckets := <[Z.to_nat index := head']> (buckets hmap);
       size := to_int32 (wrap32 (size hmap - 1));
       num_buckets := num_buckets hmap |} in
  match head with
  | [] => Ok (None, hmap)
  | item :: next =>
      if streq item.1 key then Ok (item.2, without next)
      else match item_list_remove_next next key with
           | Some (value, next') => Ok (value, without (item :: next'))
           | None => Ok (None, hmap)
           end
  end.

Definition hashmap_clear (hmap : HashMap) : result HashMap :=
  new_buckets <- create_new_buckets INITIAL_NUM_BUCKETS;;
  Ok {| buckets := new_buckets; size := 0; num_buckets := INITIAL_NUM_BUCKETS |}.

(** The items of a map, the finite map they represent, and the
    invariant of the representation: the array has [num_buckets]
    buckets, every item lies in the bucket of its hash, no key occurs
    twice, [size] counts the items, and the load stays below 3/4. *)
Definition items (hmap : HashMap) : list Item := mjoin (buckets hmap).

Definition contents (hmap : HashMap) : gmap string (option V) :=
  list_to_map (items hmap).

Record placed (hmap : HashMap) : Prop := {
  placed_num : 2 ≤ num_buckets hmap < 2 ^ 31;
  placed_length : length (buckets hmap) = Z.to_nat (num_buckets hmap);
  placed_index : ∀ i head item,
    buckets hmap !! i = Some head → item ∈ head →
    Z.to_nat (bucket_index (num_buckets hmap) item.1) = i;
  placed_keys : NoDup (items hmap).*1;
  placed_size : size hmap = Z.of_nat (length (items hmap))
}.

Definition consistent (hmap : HashMap) : Prop :=
  placed hmap ∧ 4 * size hmap < 3 * num_buckets hmap.

End WithValue.

Arguments HashMap V : clear implicits.
Arguments Item V : clear implicits.

(** The map that [hashmap_set] makes of the initial map for the label
    [end] at address 8: one item, alone in the bucket of its hash. *)
Definition one_label : HashMap Z :=
  {| buckets := <[Z.to_nat (bucket_index 32 "end") := [("end", Some 8)]]>
                  (replicate 32 []);
     size := 1;
     num_buckets := 32 |}.

End Hashmap.

(** A computation keeps a component of the machine when every run of it
    that returns leaves that component as it found it. *)
Definition keeps {A X : Type} (f : machine → X) (m : M A) : Prop :=
  ∀ s a s', m s = Ok (a, s') → f s' = f s.

(** Every address that holds a written byte lies inside the array
    [mem]. *)
Definition within_memory (s : machine) : bool :=
  bool_decide (map_Forall (λ a _, 0 ≤ a < Memory.NUM_OF_MEMORY_ADDRESS) (mem s)).

(** * Properties *)

(** ** Bit fields *)

Section BitsFacts.

Lemma wrap32_range z : 0 ≤ wrap32 z < 2 ^ 32.
Proof. unfold wrap32. apply Z.mod_pos_bound. lia. Qed.

Lemma wrap64_range z : 0 ≤ wrap64 z < 2 ^ 64.
Proof. unfold wrap64. apply Z.mod_pos_bound. lia. Qed.

Lemma wrap32_small z : 0 ≤ z < 2 ^ 32 → wrap32 z = z.
Proof. intros. unfold wrap32. apply Z.mod_small. lia. Qed.

Lemma wrap64_small z : 0 ≤ z < 2 ^ 64 → wrap64 z = z.
Proof. intros. unfold wrap64. apply Z.mod_small. lia. Qed.

Lemma field_range lo width w : 0 ≤ width → 0 ≤ field lo width w < 2 ^ width.
Proof.
  intros Hw. unfold field. rewrite Z.land_ones by lia.
  apply Z.mod_pos_bound. apply Z.pow_pos_nonneg; lia.
Qed.

Lemma testbit_field lo width w i :
  0 ≤ lo → 0 ≤ width → 0 ≤ i →
  Z.testbit (field lo width w) i = Z.testbit w (i + lo) && (i <? width).
Proof.
  intros Hlo Hw Hi. unfold field.
  rewrite Z.land_spec, Z.shiftr_spec, Z.testbit_ones_nonneg by lia.
  reflexivity.
Qed.

(** A bit of a word after an assignment to one of its fields: inside the
    field it is the bit of the assigned value, outside it is unchanged. *)
Lemma testbit_set_field lo width w v i :
  0 ≤ lo → 0 ≤ width → 0 ≤ i →
  Z.testbit (set_field lo width w v) i =
    if (lo <=? i) && (i <? lo + width) then Z.testbit v (i - lo)
    else Z.testbit w i.
Proof.
  intros Hlo Hw Hi. unfold set_field.
  rewrite Z.lor_spec, Z.land_spec, Z.lnot_spec by lia.
  rewrite !Z.shiftl_spec by lia.
  destruct (Z.leb_spec lo i) as [Hle|Hlt]; simpl.
  - rewrite Z.land_spec, !Z.testbit_ones_nonneg by lia.
    replace (i - lo <? width) with (i <? lo + width)
      by (destruct (Z.ltb_spec i (lo + width)), (Z.ltb_spec (i - lo) width);
          lia || reflexivity).
    destruct (i <? lo + width); simpl.
    + rewrite andb_false_r, andb_true_r. reflexivity.
    + rewrite andb_true_r, andb_false_r, orb_false_r. reflexivity.
  - rewrite !(Z.testbit_neg_r _ (i - lo)) by lia.
    simpl. rewrite andb_true_r, orb_false_r. reflexivity.
Qed.

Lemma set_field_nonneg lo width w v :
  0 ≤ lo → 0 ≤ width → 0 ≤ w → 0 ≤ set_field lo width w v.
Proof.
  intros Hlo Hw Hnn. unfold set_field.
  apply Z.lor_nonneg. split.
  - apply Z.land_nonneg. left. exact Hnn.
  - apply Z.shiftl_nonneg. apply Z.land_nonneg. right.
    unfold Z.ones. rewrite Z.shiftl_1_l.
    assert (0 < 2 ^ width) by (apply Z.pow_pos_nonneg; lia). lia.
Qed.

(** Reading back the field that was assigned, and reading another one. *)
Lemma field_set_field_same lo width w v :
  0 ≤ lo → 0 ≤ width →
  field lo width (set_field lo width w v) = v mod 2 ^ width.
Proof.
  intros Hlo Hw. rewrite <- Z.land_ones by lia.
  apply Z.bits_inj'. intros i Hi.
  rewrite testbit_field, testbit_set_field by lia.
  rewrite Z.land_spec, Z.testbit_ones_nonneg by lia.
  replace (i + lo - lo) with i by lia.
  destruct (Z.ltb_spec i width).
  - replace (lo <=? i + lo) with true by (symmetry; apply Z.leb_le; lia).
    replace (i + lo <? lo + width) with true by (symmetry; apply Z.ltb_lt; lia).
    reflexivity.
  - rewrite !andb_false_r. reflexivity.
Qed.

End BitsFacts.

(** ** Memory *)

Section MemoryFacts.
Import Memory.

Lemma object_value_bytes n v :
  object_value (object_bytes n v) = v mod 2 ^ (8 * Z.of_nat n).
Proof.
  revert v. induction n as [|n IH]; intros v.
  - simpl. rewrite Z.mod_1_r. reflexivity.
  - cbn [object_bytes object_value]. rewrite IH.
    rewrite <- !Z.land_ones by lia. change 255 with (Z.ones 8).
    apply Z.bits_inj'. intros i Hi.
    rewrite Z.lor_spec, !Z.land_spec, !Z.testbit_ones_nonneg by lia.
    destruct (Z.ltb_spec i 8) as [Hlt|Hge].
    + rewrite Z.shiftl_spec by lia.
      rewrite (Z.testbit_neg_r _ (i - 8)) by lia.
      replace (i <? 8 * Z.of_nat (S n)) with true
        by (symmetry; apply Z.ltb_lt; lia).
      rewrite orb_false_r. reflexivity.
    + rewrite Z.shiftl_spec, Z.land_spec, Z.shiftr_spec by lia.
      rewrite Z.testbit_ones_nonneg by lia.
      replace (i - 8 + 8) with i by lia.
      replace (i - 8 <? 8 * Z.of_nat n) with (i <? 8 * Z.of_nat (S n))
        by (destruct (Z.ltb_spec i (8 * Z.of_nat (S n))),
                     (Z.ltb_spec (i - 8) (8 * Z.of_nat n)); lia || reflexivity).
      rewrite andb_false_r. reflexivity.
Qed.

Lemma length_object_bytes n v : length (object_bytes n v) = n.
Proof. revert v. induction n; intros; simpl; congruence. Qed.

(** Byte [i] of the representation is bits [8i .. 8i+7] of the value. *)
Lemma lookup_object_bytes n v i :
  (i < n)%nat →
  object_bytes n v !! i = Some (Z.land (Z.shiftr v (8 * Z.of_nat i)) 255).
Proof.
  revert v i. induction n as [|n IH]; intros v i Hi; [lia|].
  destruct i as [|i]; simpl.
  - rewrite Z.shiftr_0_r. reflexivity.
  - rewrite IH by lia. rewrite Z.shiftr_shiftr by lia.
    do 3 f_equal. lia.
Qed.

Lemma mem_byte_memcpy_to_below mem a bs a0 :
  a0 < a → mem_byte (memcpy_to mem a bs) a0 = mem_byte mem a0.
Proof.
  revert mem a. induction bs as [|b bs IH]; intros mem a Hlt; simpl.
  - reflexivity.
  - rewrite IH by lia. unfold mem_byte.
    rewrite lookup_insert_ne by lia. reflexivity.
Qed.

(** What was copied in is what is copied out. *)
Lemma memcpy_from_memcpy_to mem a bs :
  memcpy_from (memcpy_to mem a bs) a (length bs) = bs.
Proof.
  revert mem a. induction bs as [|b bs IH]; intros mem a; simpl.
  - reflexivity.
  - rewrite IH. f_equal.
    rewrite mem_byte_memcpy_to_below by lia.
    unfold mem_byte. rewrite lookup_insert_eq. reflexivity.
Qed.

Lemma lookup_memcpy_from mem a n i :
  (i < n)%nat → memcpy_from mem a n !! i = Some (mem_byte mem (a + Z.of_nat i)).
Proof.
  revert a i. induction n as [|n IH]; intros a i Hi; [lia|].
  destruct i as [|i]; simpl.
  - rewrite Z.add_0_r. reflexivity.
  - rewrite IH by lia. do 2 f_equal. lia.
Qed.

(** The bytes a store leaves in memory, read one by one. *)
Lemma mem_byte_memcpy_to_object mem a n v i :
  0 ≤ i < Z.of_nat n →
  mem_byte (memcpy_to mem a (object_bytes n v)) (a + i)
  = Z.land (Z.shiftr v (8 * i)) 255.
Proof.
  intros Hi.
  pose proof (memcpy_from_memcpy_to mem a (object_bytes n v)) as Hcopy.
  rewrite length_object_bytes in Hcopy.
  apply (f_equal (λ l, l !! Z.to_nat i)) in Hcopy.
  rewrite lookup_memcpy_from, lookup_object_bytes in Hcopy by lia.
  rewrite Z2Nat.id in Hcopy by lia. congruence.
Qed.

(** C7. Each accessor succeeds at an address [a] exactly when the last
    byte it touches is inside the [2^21]-byte memory: the word accessors
    when [a + 4 <= 2^21], the double-word accessors when [a + 8 <= 2^21];
    otherwise the accessor ends the process. *)
Theorem accessors_fail_exactly_out_of_range (mem : gmap Z Z) (a v : Z) :
  0 ≤ a < 2 ^ 32 →
  (a + 4 ≤ 2 ^ 21 → is_Ok (get_word mem a) ∧ is_Ok (set_word mem a v))
  ∧ (2 ^ 21 < a + 4 →
       get_word mem a = Fatal (OutOfBoundsWord a)
       ∧ set_word mem a v = Fatal (OutOfBoundsWord a))
  ∧ (a + 8 ≤ 2 ^ 21 →
       is_Ok (get_double_word mem a) ∧ is_Ok (set_double_word mem a v))
  ∧ (2 ^ 21 < a + 8 →
       get_double_word mem a = Fatal (OutOfBoundsDoubleWord a)
       ∧ set_double_word mem a v = Fatal (OutOfBoundsDoubleWord a)).
Proof.
  intros Ha.
  unfold get_word, set_word, get_double_word, set_double_word.
  rewrite (wrap32_small a) by exact Ha.
  change NUM_OF_MEMORY_ADDRESS with (2 ^ 21).
  unfold sizeof_word, sizeof_double_word, is_Ok.
  split; [|split; [|split]]; intros Hb.
  - destruct (Z.ltb_spec (2 ^ 21 - 4) a); [lia|eauto].
  - destruct (Z.ltb_spec (2 ^ 21 - 4) a); [split; reflexivity|lia].
  - destruct (Z.ltb_spec (2 ^ 21 - 8) a); [lia|eauto].
  - destruct (Z.ltb_spec (2 ^ 21 - 8) a); [split; reflexivity|lia].
Qed.

Lemma accessors_fail_exactly_out_of_range_witness :
  (is_Ok (get_word ∅ 2097148) ∧ is_Ok (set_word ∅ 2097148 7))
  ∧ (get_word ∅ 2097149 = Fatal (OutOfBoundsWord 2097149)
     ∧ set_word ∅ 2097149 7 = Fatal (OutOfBoundsWord 2097149)).
Proof.
  split.
  - apply (accessors_fail_exactly_out_of_range ∅ 2097148 7); lia.
  - apply (accessors_fail_exactly_out_of_range ∅ 2097149 7); lia.
Defined.

(** C8. A double word stored at any address [0 <= a <= capacity - 8],
    aligned or not, is read back unchanged; a word stored at an address
    with [a + 4 <= capacity] is read back as the low 32 bits of the value;
    byte [i] of the stored object holds bits [8i .. 8i+7] of the value
    (little-endian layout). *)
Theorem store_load_roundtrip (mem : gmap Z Z) (a v : Z) :
  0 ≤ v < 2 ^ 64 → 0 ≤ a →
  (a ≤ NUM_OF_MEMORY_ADDRESS - 8 →
     ∃ mem', set_double_word mem a v = Ok mem'
             ∧ get_double_word mem' a = Ok v
             ∧ ∀ i, 0 ≤ i < 8 →
                 mem_byte mem' (a + i) = Z.land (Z.shiftr v (8 * i)) 255)
  ∧ (a + 4 ≤ NUM_OF_MEMORY_ADDRESS →
     ∃ mem', set_word mem a v = Ok mem'
             ∧ get_word mem' a = Ok (Z.land v 0xFFFFFFFF)
             ∧ ∀ i, 0 ≤ i < 4 →
                 mem_byte mem' (a + i) = Z.land (Z.shiftr v (8 * i)) 255).
Proof.
  intros Hv Ha. change NUM_OF_MEMORY_ADDRESS with (2 ^ 21).
  assert (Hmod : ∀ k, 0 ≤ k → ∀ i, 0 ≤ i → 8 * i + 8 ≤ k →
            Z.land (Z.shiftr (v mod 2 ^ k) (8 * i)) 255
            = Z.land (Z.shiftr v (8 * i)) 255).
  { intros k Hk i Hi Hik. change 255 with (Z.ones 8).
    rewrite <- Z.land_ones by lia.
    apply Z.bits_inj'. intros j Hj.
    rewrite !Z.land_spec, !Z.shiftr_spec, Z.land_spec by lia.
    rewrite !Z.testbit_ones_nonneg by lia.
    destruct (Z.ltb_spec j 8).
    - replace (j + 8 * i <? k) with true by (symmetry; apply Z.ltb_lt; lia).
      rewrite andb_true_r. reflexivity.
    - rewrite !andb_false_r. reflexivity. }
  split; intros Hb.
  - unfold set_double_word, get_double_word.
    rewrite (wrap32_small a) by lia.
    change NUM_OF_MEMORY_ADDRESS with (2 ^ 21). unfold sizeof_double_word.
    destruct (Z.ltb_spec (2 ^ 21 - 8) a); [lia|].
    eexists. split; [reflexivity|]. split.
    + f_equal.
      pose proof (memcpy_from_memcpy_to mem a (object_bytes 8 (wrap64 v))) as Hc.
      rewrite length_object_bytes in Hc. rewrite Hc, object_value_bytes.
      unfold wrap64. change (8 * Z.of_nat 8) with 64.
      rewrite Z.mod_mod by lia. apply Z.mod_small. lia.
    + intros i Hi. rewrite mem_byte_memcpy_to_object by lia.
      unfold wrap64. apply Hmod; lia.
  - unfold set_word, get_word.
    rewrite (wrap32_small a) by lia.
    change NUM_OF_MEMORY_ADDRESS with (2 ^ 21). unfold sizeof_word.
    destruct (Z.ltb_spec (2 ^ 21 - 4) a); [lia|].
    eexists. split; [reflexivity|]. split.
    + f_equal.
      pose proof (memcpy_from_memcpy_to mem a (object_bytes 4 (wrap32 v))) as Hc.
      rewrite length_object_bytes in Hc. rewrite Hc, object_value_bytes.
      unfold wrap32. change (8 * Z.of_nat 4) with 32.
      rewrite Z.mod_mod by lia.
      change 0xFFFFFFFF with (Z.ones 32). rewrite Z.land_ones by lia.
      reflexivity.
    + intros i Hi. rewrite mem_byte_memcpy_to_object by lia.
      unfold wrap32. apply Hmod; lia.
Qed.

Lemma store_load_roundtrip_witness :
  (∃ mem', set_double_word ∅ 3 0x8765432112345678 = Ok mem'
           ∧ get_double_word mem' 3 = Ok 0x8765432112345678
           ∧ ∀ i, 0 ≤ i < 8 →
               mem_byte mem' (3 + i)
               = Z.land (Z.shiftr 0x8765432112345678 (8 * i)) 255)
  ∧ (∃ mem', set_word ∅ 2097148 0x8765432112345678 = Ok mem'
             ∧ get_word mem' 2097148 = Ok (Z.land 0x8765432112345678 0xFFFFFFFF)
             ∧ ∀ i, 0 ≤ i < 4 →
                 mem_byte mem' (2097148 + i)
                 = Z.land (Z.shiftr 0x8765432112345678 (8 * i)) 255).
Proof.
  split.
  - apply (store_load_roundtrip ∅ 3 0x8765432112345678); [lia|lia|].
    change NUM_OF_MEMORY_ADDRESS with 2097152. lia.
  - apply (store_load_roundtrip ∅ 2097148 0x8765432112345678); [lia|lia|].
    change NUM_OF_MEMORY_ADDRESS with 2097152. lia.
Defined.

End MemoryFacts.

(** ** Flag-setting arithmetic *)

Section ArithmeticFacts.
Import Register Cpu.

Lemma msb_test r k : 0 ≤ k → negb (Z.land r (Z.shiftl 1 k) =? 0) = Z.testbit r k.
Proof.
  intros Hk. rewrite Z.shiftl_1_l.
  destruct (Z.testbit r k) eqn:Hbit.
  - destruct (Z.eqb_spec (Z.land r (2 ^ k)) 0) as [Hz|]; [|reflexivity].
    assert (Hb : Z.testbit (Z.land r (2 ^ k)) k = true).
    { rewrite Z.land_spec, Hbit, Z.pow2_bits_true by lia. reflexivity. }
    rewrite Hz, Z.bits_0 in Hb. discriminate.
  - replace (Z.land r (2 ^ k)) with 0; [reflexivity|].
    symmetry. apply Z.bits_inj'. intros i Hi.
    rewrite Z.bits_0, Z.land_spec, Z.pow2_bits_eqb by lia.
    destruct (Z.eqb_spec k i); [subst; rewrite Hbit|]; simpl.
    + reflexivity.
    + apply andb_false_r.
Qed.

(** The detour through the signed type does not change the result. *)
Lemma wrap64_to_int64_add a b : wrap64 (to_int64 a + to_int64 b) = wrap64 (a + b).
Proof.
  unfold wrap64, to_int64.
  destruct (a <? 2 ^ 63), (b <? 2 ^ 63);
    rewrite ?Z.add_sub_assoc; try reflexivity.
  - replace (a + b - 2 ^ 64) with (a + b + (-1) * 2 ^ 64) by lia.
    apply Z.mod_add. lia.
  - replace (a - 2 ^ 64 + b) with (a + b + (-1) * 2 ^ 64) by lia.
    apply Z.mod_add. lia.
  - replace (a - 2 ^ 64 + b - 2 ^ 64) with (a + b + (-2) * 2 ^ 64) by lia.
    apply Z.mod_add. lia.
Qed.

Lemma wrap64_to_int64_sub a b : wrap64 (to_int64 a - to_int64 b) = wrap64 (a - b).
Proof.
  unfold wrap64, to_int64.
  destruct (a <? 2 ^ 63), (b <? 2 ^ 63); try reflexivity.
  - replace (a - (b - 2 ^ 64)) with (a - b + 1 * 2 ^ 64) by lia.
    apply Z.mod_add. lia.
  - replace (a - 2 ^ 64 - b) with (a - b + (-1) * 2 ^ 64) by lia.
    apply Z.mod_add. lia.
  - f_equal. lia.
Qed.

Lemma set_reg_value_ok reg_num value s :
  0 ≤ reg_num ≤ 31 → ∃ s', set_reg_value reg_num value s = Ok (tt, s')
                           ∧ pstate s' = pstate s.
Proof.
  intros Hr. unfold set_reg_value.
  rewrite (wrap32_small reg_num) by lia. unfold NUM_REGISTERS.
  destruct (Z.eqb_spec reg_num 31).
  - eexists. split; reflexivity.
  - destruct (Z.ltb_spec 31 reg_num); [lia|].
    eexists. split; reflexivity.
Qed.

(** C5. For all 64-bit [a] and [b], a flag-setting add sets C exactly
    when [a + b] overflows 64 unsigned bits, a flag-setting subtract sets C
    exactly when [a >= b] as unsigned numbers; in both cases N is bit 63
    of the result and Z tells whether the result is zero. *)
Theorem adds_subs_64_carry_negative_zero (a b dest : Z) (s : machine) :
  0 ≤ a < 2 ^ 64 → 0 ≤ b < 2 ^ 64 → 0 ≤ dest ≤ 31 →
  (∃ s', apply_arithmetic_64 a b dest 1 0 s = Ok (tt, s')
         ∧ (carry_flag (pstate s') = true ↔ 2 ^ 64 ≤ a + b)
         ∧ negative_flag (pstate s') = Z.testbit ((a + b) mod 2 ^ 64) 63
         ∧ zero_flag (pstate s') = ((a + b) mod 2 ^ 64 =? 0))
  ∧ (∃ s', apply_arithmetic_64 a b dest 1 1 s = Ok (tt, s')
           ∧ (carry_flag (pstate s') = true ↔ b ≤ a)
           ∧ negative_flag (pstate s') = Z.testbit ((a - b) mod 2 ^ 64) 63
           ∧ zero_flag (pstate s') = ((a - b) mod 2 ^ 64 =? 0)).
Proof.
  intros Ha Hb Hd. unfold apply_arithmetic_64.
  rewrite (wrap64_small a), (wrap64_small b) by lia.
  rewrite (wrap32_small dest) by lia.
  cbn [Z.eqb negb]. rewrite wrap64_to_int64_add, wrap64_to_int64_sub.
  unfold bind, set_flags, modify, MSB_64_BIT.
  rewrite !msb_test by lia. unfold wrap64.
  split.
  - set (r := (a + b) mod 2 ^ 64).
    assert (Hr : r = a + b ∧ a + b < 2 ^ 64 ∨ r = a + b - 2 ^ 64 ∧ 2 ^ 64 ≤ a + b).
    { destruct (Z.lt_ge_cases (a + b) (2 ^ 64)); [left|right]; split; try lia.
      - apply Z.mod_small. lia.
      - subst r. replace (a + b) with (a + b - 2 ^ 64 + 1 * 2 ^ 64) at 1 by lia.
        rewrite Z.mod_add by lia. apply Z.mod_small. lia. }
    destruct (dest =? NUM_REGISTERS).
    + eexists. split; [reflexivity|]. cbn. split; [|split; reflexivity].
      rewrite orb_true_iff, !Z.ltb_lt. lia.
    + match goal with |- context [set_reg_value dest r ?s0] =>
        destruct (set_reg_value_ok dest r s0 Hd) as (s' & Hs' & Hps) end.
      rewrite Hs'. eexists. split; [reflexivity|]. rewrite Hps. cbn.
      split; [|split; reflexivity].
      rewrite orb_true_iff, !Z.ltb_lt. lia.
  - set (r := (a - b) mod 2 ^ 64).
    destruct (dest =? NUM_REGISTERS).
    + eexists. split; [reflexivity|]. cbn. split; [|split; reflexivity].
      rewrite Z.leb_le. lia.
    + match goal with |- context [set_reg_value dest r ?s0] =>
        destruct (set_reg_value_ok dest r s0 Hd) as (s' & Hs' & Hps) end.
      rewrite Hs'. eexists. split; [reflexivity|]. rewrite Hps. cbn.
      split; [|split; reflexivity].
      rewrite Z.leb_le. lia.
Qed.

Lemma adds_subs_64_carry_negative_zero_witness :
  ∃ s', apply_arithmetic_64 (2 ^ 64 - 1) 1 2 1 0 (Scenario.machine_with 0 0)
        = Ok (tt, s')
        ∧ (carry_flag (pstate s') = true ↔ 2 ^ 64 ≤ 2 ^ 64 - 1 + 1)
        ∧ negative_flag (pstate s') = Z.testbit ((2 ^ 64 - 1 + 1) mod 2 ^ 64) 63
        ∧ zero_flag (pstate s') = ((2 ^ 64 - 1 + 1) mod 2 ^ 64 =? 0).
Proof.
  apply (adds_subs_64_carry_negative_zero (2 ^ 64 - 1) 1 2
           (Scenario.machine_with 0 0)); lia.
Defined.

(** The overflow test of both widths never yields [true]: its third
    conjunct compares an unsigned result with zero. *)
Lemma overflow_test_false src operand2 result :
  0 ≤ result → (0 <? src) && (0 <? operand2) && (result <? 0) = false.
Proof.
  intros Hr. destruct (Z.ltb_spec result 0); [lia|]. apply andb_false_r.
Qed.

Lemma apply_arithmetic_64_overflow_flag src operand2 dest opc_op s s' :
  apply_arithmetic_64 src operand2 dest 1 opc_op s = Ok (tt, s') →
  overflow_flag (pstate s') = false.
Proof.
  unfold apply_arithmetic_64, bind, set_flags, modify. cbn [Z.eqb negb].
  rewrite overflow_test_false by apply wrap64_range.
  destruct (wrap32 dest =? NUM_REGISTERS).
  - intros [= <-]. reflexivity.
  - unfold set_reg_value, ret, exit_failure, modify.
    destruct (wrap32 dest =? NUM_REGISTERS); [intros [= <-]; reflexivity|].
    destruct (NUM_REGISTERS <? wrap32 dest); [discriminate|].
    intros [= <-]. reflexivity.
Qed.

Lemma apply_arithmetic_32_overflow_flag src operand2 dest opc_op s s' :
  apply_arithmetic_32 src operand2 dest 1 opc_op s = Ok (tt, s') →
  overflow_flag (pstate s') = false.
Proof.
  unfold apply_arithmetic_32, bind, set_flags, modify. cbn [Z.eqb negb].
  rewrite overflow_test_false by apply wrap32_range.
  destruct (wrap32 dest =? NUM_REGISTERS).
  - intros [= <-]. reflexivity.
  - unfold set_reg_value, ret, exit_failure, modify.
    destruct (wrap32 dest =? NUM_REGISTERS); [intros [= <-]; reflexivity|].
    destruct (NUM_REGISTERS <? wrap32 dest); [discriminate|].
    intros [= <-]. reflexivity.
Qed.

(** C1 (the code departs from the claim). [adds x2, x0, x1] with
    [X0 = 2^63 - 1] and [X1 = 1], and [subs w2, w0, w1] with
    [W0 = 0x80000000] and [W1 = 1], overflow as signed operations, yet
    the executor leaves V clear after both. *)
Theorem signed_overflow_not_flagged :
  (∃ s', decode_and_execute Scenario.adds_x2_x0_x1
           (Scenario.machine_with (2 ^ 63 - 1) 1) = Ok (tt, s')
         ∧ gen_registers s' !! 2%nat = Some (2 ^ 63)
         ∧ overflow_flag (pstate s') = false
         ∧ Reference.signed_overflow 64 false (2 ^ 63 - 1) 1 = true)
  ∧ (∃ s', decode_and_execute Scenario.subs_w2_w0_w1
             (Scenario.machine_with 0x80000000 1) = Ok (tt, s')
           ∧ gen_registers s' !! 2%nat = Some 0x7FFFFFFF
           ∧ overflow_flag (pstate s') = false
           ∧ Reference.signed_overflow 32 true 0x80000000 1 = true).
Proof.
  split; eexists; (split; [vm_compute; reflexivity|]);
    repeat split; vm_compute; reflexivity.
Qed.

End ArithmeticFacts.

(** ** Data transfer, multiplication and the run of a program *)

Section ExecutionFacts.
Import Register Cpu.

Lemma bind_Ok {A B} (m : M A) (k : A → M B) s a s' :
  m s = Ok (a, s') → bind m k s = k a s'.
Proof. intros H. unfold bind. rewrite H. reflexivity. Qed.

Lemma get_reg_value_64_field r s :
  0 ≤ r ≤ 31 →
  get_reg_value_64 r s
  = Ok (if r =? 31 then 0 else default 0 (gen_registers s !! Z.to_nat r), s).
Proof.
  intros Hr. unfold get_reg_value_64, NUM_REGISTERS.
  rewrite (wrap32_small r) by lia.
  destruct (Z.eqb_spec r 31); [reflexivity|].
  destruct (Z.ltb_spec 31 r); [lia|]. reflexivity.
Qed.

Lemma get_reg_value_32_field r s :
  0 ≤ r ≤ 31 →
  get_reg_value_32 r s
  = Ok (wrap32 (if r =? 31 then 0 else default 0 (gen_registers s !! Z.to_nat r)),
        s).
Proof.
  intros Hr. unfold get_reg_value_32, NUM_REGISTERS.
  rewrite (wrap32_small r) by lia.
  destruct (Z.eqb_spec r 31); [reflexivity|].
  destruct (Z.ltb_spec 31 r); [lia|]. reflexivity.
Qed.

Lemma field5_range lo0 inst : 0 ≤ lo0 → 0 ≤ get (BitField lo0 5) inst ≤ 31.
Proof.
  intros Hlo. pose proof (field_range lo0 5 inst ltac:(lia)) as H.
  unfold get. cbn [lo width]. change (2 ^ 5) with 32 in H. lia.
Qed.

Lemma wrap64_sub_wrap64 a b :
  wrap64 (wrap64 (a - wrap64 b)) = (a - b) mod 2 ^ 64.
Proof.
  unfold wrap64. rewrite Z.mod_mod by lia. apply Zminus_mod_idemp_r.
Qed.

Lemma wrap64_add_wrap64 a b :
  wrap64 (wrap64 (a + wrap64 b)) = (a + b) mod 2 ^ 64.
Proof.
  unfold wrap64. rewrite Z.mod_mod by lia. apply Zplus_mod_idemp_r.
Qed.

Lemma wrap32_sub_wrap32 a b :
  wrap32 (wrap32 (a - wrap32 b)) = (a - b) mod 2 ^ 32.
Proof.
  unfold wrap32. rewrite Z.mod_mod by lia. apply Zminus_mod_idemp_r.
Qed.

Lemma wrap32_add_wrap32 a b :
  wrap32 (wrap32 (a + wrap32 b)) = (a + b) mod 2 ^ 32.
Proof.
  unfold wrap32. rewrite Z.mod_mod by lia. apply Zplus_mod_idemp_r.
Qed.

(** C3 (the code departs from the claim). [str w0, [x1], #8] is decoded
    as a post-index transfer, and with [X0 = 0x1122334455667788] it
    writes all eight bytes of [X0] at the address in [X1]: the four bytes
    above the word are overwritten, and at the last word of memory the
    store ends the process.  The pre-index form of the same store writes
    four bytes. *)
Theorem post_index_store_32_writes_double_word :
  decode_and_execute Scenario.str_w0_x1_post_8
    = exec_dt_post_index Scenario.str_w0_x1_post_8
  ∧ (DTPrePostIndex.sf Scenario.str_w0_x1_post_8 = 0
     ∧ DTPrePostIndex.L Scenario.str_w0_x1_post_8 = 0
     ∧ DTPrePostIndex.I Scenario.str_w0_x1_post_8 = 0)
  ∧ (∃ s', decode_and_execute Scenario.str_w0_x1_post_8
             (Scenario.machine_with 0x1122334455667788 0x100) = Ok (tt, s')
           ∧ Memory.memcpy_from (mem s') 0x100 8
             = [0x88; 0x77; 0x66; 0x55; 0x44; 0x33; 0x22; 0x11]
           ∧ gen_registers s' !! 1%nat = Some 0x108)
  ∧ decode_and_execute Scenario.str_w0_x1_post_8
      (Scenario.machine_with 0x1122334455667788 (2 ^ 21 - 4))
    = Fatal (OutOfBoundsDoubleWord (2 ^ 21 - 4))
  ∧ (∃ s', decode_and_execute Scenario.str_w0_x1_pre_0
             (Scenario.machine_with 0x1122334455667788 0x100) = Ok (tt, s')
           ∧ Memory.memcpy_from (mem s') 0x100 8
             = [0x88; 0x77; 0x66; 0x55; 0; 0; 0; 0]).
Proof.
  split; [reflexivity|].
  split; [repeat split; vm_compute; reflexivity|].
  split; [eexists; split; [vm_compute; reflexivity|];
          split; vm_compute; reflexivity|].
  split; [vm_compute; reflexivity|].
  eexists; split; vm_compute; reflexivity.
Qed.

(** C4, as the code has it. The source text assembles to the two words;
    run from the initial state the program halts after one instruction
    with [X0 = 5] and [PC = 4]; the flags are those of the initial
    state, in which Z is set, and the dump line reads [PSTATE : -Z--]. *)
Theorem movz_halt_final_state :
  Assemble.assemble Scenario.movz_halt_source = Ok Scenario.movz_halt_image
  ∧ ∀ fuel, ∃ s,
      emulate (S fuel) Scenario.movz_halt_image = Ok (true, s)
      ∧ gen_registers s !! 0%nat = Some 5
      ∧ program_counter s = 4
      ∧ pstate s = {| negative_flag := false; zero_flag := true;
                      carry_flag := false; overflow_flag := false |}
      ∧ pstate_line (pstate s) = "PSTATE : -Z--".
Proof.
  split; [vm_compute; reflexivity|].
  intros [|fuel]; eexists; (split; [vm_compute; reflexivity|]);
    repeat split; vm_compute; reflexivity.
Qed.

(** C4, as the claim states it, fails: no run of the program ends with
    the four flags clear and the dump line [PSTATE : ----]. *)
Lemma movz_halt_flags_not_all_clear :
  ¬ ∃ fuel s,
      emulate fuel Scenario.movz_halt_image = Ok (true, s)
      ∧ gen_registers s !! 0%nat = Some 5
      ∧ program_counter s = 4
      ∧ pstate s = {| negative_flag := false; zero_flag := false;
                      carry_flag := false; overflow_flag := false |}
      ∧ pstate_line (pstate s) = "PSTATE : ----".
Proof.
  intros (fuel & s & Hrun & _ & _ & Hflags & _).
  destruct fuel as [|[|fuel]]; vm_compute in Hrun.
  - discriminate Hrun.
  - injection Hrun as <-. vm_compute in Hflags. discriminate Hflags.
  - injection Hrun as <-. vm_compute in Hflags. discriminate Hflags.
Qed.

(** C10. The accumulator field of a multiply instruction is a 5-bit
    field, so it is between 0 and 31 and never 32: the branch of
    [exec_reg_multiply] that substitutes 0 for the accumulator is not
    taken for any instruction word.  The accumulator read never fails and
    yields the value the register file gives for [ra] (zero for register
    number 31), and [exec_reg_multiply] writes to [rd] that value plus or
    minus the product of the registers [rn] and [rm], at 64 or at 32
    bits. *)
Theorem multiply_accumulator_read_through_registers (inst : Z) (s : machine) :
  let reg r :=
    if r =? 31 then 0 else default 0 (gen_registers s !! Z.to_nat r) in
  let acc := reg (RegMultiply.ra inst) in
  let rn := reg (RegMultiply.rn inst) in
  let rm := reg (RegMultiply.rm inst) in
  0 ≤ RegMultiply.ra inst ≤ 31
  ∧ (RegMultiply.ra inst =? 32) = false
  ∧ get_reg_value_64 (RegMultiply.ra inst) s = Ok (acc, s)
  ∧ get_reg_value_32 (RegMultiply.ra inst) s = Ok (wrap32 acc, s)
  ∧ exec_reg_multiply inst s
    = set_reg_value (RegMultiply.rd inst)
        (if negb (RegMultiply.sf inst =? 0)
         then (if negb (RegMultiply.x inst =? 0)
               then acc - rn * rm else acc + rn * rm) mod 2 ^ 64
         else (if negb (RegMultiply.x inst =? 0)
               then wrap32 acc - wrap32 rn * wrap32 rm
               else wrap32 acc + wrap32 rn * wrap32 rm) mod 2 ^ 32)
        s.
Proof.
  intros reg acc rn rm.
  pose proof (field5_range 10 inst ltac:(lia)) as Hra.
  pose proof (field5_range 5 inst ltac:(lia)) as Hrn.
  pose proof (field5_range 16 inst ltac:(lia)) as Hrm.
  change (get (BitField 10 5) inst) with (RegMultiply.ra inst) in Hra.
  change (get (BitField 5 5) inst) with (RegMultiply.rn inst) in Hrn.
  change (get (BitField 16 5) inst) with (RegMultiply.rm inst) in Hrm.
  assert (Hne : (RegMultiply.ra inst =? 32) = false) by (apply Z.eqb_neq; lia).
  split; [exact Hra|]. split; [exact Hne|].
  split; [apply get_reg_value_64_field; exact Hra|].
  split; [apply get_reg_value_32_field; exact Hra|].
  unfold exec_reg_multiply, exec_reg_multiply_fields, accumulator_64,
    accumulator_32.
  rewrite Hne.
  destruct (negb (RegMultiply.sf inst =? 0)).
  - rewrite (bind_Ok _ _ _ _ _ (get_reg_value_64_field _ s Hrn)).
    rewrite (bind_Ok _ _ _ _ _ (get_reg_value_64_field _ s Hrm)).
    rewrite (bind_Ok _ _ _ _ _ (get_reg_value_64_field _ s Hra)).
    fold (reg (RegMultiply.rn inst)) (reg (RegMultiply.rm inst))
      (reg (RegMultiply.ra inst)). fold acc rn rm.
    f_equal.
    destruct (negb (RegMultiply.x inst =? 0)).
    + apply wrap64_sub_wrap64.
    + apply wrap64_add_wrap64.
  - rewrite (bind_Ok _ _ _ _ _ (get_reg_value_32_field _ s Hrn)).
    rewrite (bind_Ok _ _ _ _ _ (get_reg_value_32_field _ s Hrm)).
    rewrite (bind_Ok _ _ _ _ _ (get_reg_value_32_field _ s Hra)).
    fold (reg (RegMultiply.rn inst)) (reg (RegMultiply.rm inst))
      (reg (RegMultiply.ra inst)). fold acc rn rm.
    f_equal.
    destruct (negb (RegMultiply.x inst =? 0)).
    + apply wrap32_sub_wrap32.
    + apply wrap32_add_wrap32.
Qed.

End ExecutionFacts.

(** ** Back-patching *)

Section SymbolTableFacts.
Import SymbolTable.

Lemma get_put_same f v w :
  0 ≤ lo f → 0 ≤ width f → get f (put f v w) = v mod 2 ^ width f.
Proof. intros. unfold get, put. apply field_set_field_same; assumption. Qed.

Lemma get_put_disjoint f g v w :
  0 ≤ lo f → 0 ≤ width f → 0 ≤ lo g → 0 ≤ width g →
  disjoint_fields f g → get f (put g v w) = get f w.
Proof.
  intros Hf1 Hf2 Hg1 Hg2 Hd. unfold get, put.
  apply Z.bits_inj'. intros i Hi.
  rewrite !testbit_field, testbit_set_field by lia.
  destruct (Z.ltb_spec i (width f)); [|rewrite !andb_false_r; reflexivity].
  replace ((lo g <=? i + lo f) && (i + lo f <? lo g + width g)) with false;
    [reflexivity|].
  symmetry. apply andb_false_iff.
  rewrite Z.leb_gt, Z.ltb_ge. destruct Hd; lia.
Qed.

Lemma put_range f v w :
  fits32 f → 0 ≤ w < 2 ^ 32 → 0 ≤ put f v w < 2 ^ 32.
Proof.
  intros (Hlo & Hw & Hfit) Hr. unfold put.
  assert (Hnn : 0 ≤ set_field (lo f) (width f) w v)
    by (apply set_field_nonneg; lia).
  split; [exact Hnn|].
  apply (Z.bounded_iff_bits_nonneg 32); [lia|exact Hnn|].
  intros i Hi. rewrite testbit_set_field by lia.
  replace ((lo f <=? i) && (i <? lo f + width f)) with false.
  - apply (Z.bounded_iff_bits_nonneg 32 w); lia.
  - symmetry. apply andb_false_iff. right. apply Z.ltb_ge. lia.
Qed.

Lemma literal_field_fits k : fits32 (literal_field k).
Proof. destruct k; unfold fits32; cbn; lia. Qed.

(** Patching the displacement keeps the encoding of the word. *)
Lemma literal_kind_of_put k v w :
  literal_kind_of w = Some k → literal_kind_of (put (literal_field k) v w) = Some k.
Proof.
  unfold literal_kind_of. intros Hk.
  assert (Hsame : ∀ f, 0 ≤ lo f → 0 ≤ width f → 25 ≤ lo f → k ≠ LitBranchUncond →
                       get f (put (literal_field k) v w) = get f w).
  { intros f ? ? ? Hne. apply get_put_disjoint; try lia.
    - destruct k; cbn; lia.
    - destruct k; cbn; lia.
    - right. destruct k; cbn; try lia. congruence. }
  assert (Hsame26 : ∀ f, 0 ≤ lo f → 0 ≤ width f → 26 ≤ lo f →
                         get f (put (literal_field k) v w) = get f w).
  { intros f ? ? ?. apply get_put_disjoint; try lia.
    - destruct k; cbn; lia.
    - destruct k; cbn; lia.
    - right. destruct k; cbn; lia. }
  rewrite (Hsame26 GeneralBranch.op0), (Hsame26 BranchUncond.id),
    (Hsame26 BranchCond.id), (Hsame26 GeneralDT.op0_1),
    (Hsame26 DTLoadLiteral.id) by (cbn; lia).
  destruct ((GeneralBranch.op0 w =? ITP_BRANCH)
            && (BranchUncond.id w =? ITP_BRANCH_UNCOND)); [exact Hk|].
  destruct ((GeneralBranch.op0 w =? ITP_BRANCH)
            && (BranchCond.id w =? ITP_BRANCH_COND)); [exact Hk|].
  rewrite (Hsame GeneralDT.op0_2) by (cbn; try lia;
    intros ->; destruct ((GeneralDT.op0_1 w =? ITP_DT_1)
                         && (GeneralDT.op0_2 w =? ITP_DT_2)
                         && (DTLoadLiteral.id w =? ITP_DT_LOAD_LITERAL));
    congruence).
  exact Hk.
Qed.

Lemma modify_line_offset addr R :
  to_int32 (wrap32 (wrap32 addr - wrap32 R) / INSTR_SIZE) = wrap32 (addr - R) / 4.
Proof.
  unfold INSTR_SIZE.
  replace (wrap32 (wrap32 addr - wrap32 R)) with (wrap32 (addr - R))
    by (unfold wrap32; apply Zminus_mod).
  pose proof (wrap32_range (addr - R)) as Hr.
  unfold to_int32.
  assert (wrap32 (addr - R) / 4 < 2 ^ 31)
    by (apply Z.div_lt_upper_bound; lia).
  destruct (Z.ltb_spec (wrap32 (addr - R) / 4) (2 ^ 31)); [reflexivity|lia].
Qed.

Lemma modify_line_ok w R addr k :
  0 ≤ w < 2 ^ 32 → literal_kind_of w = Some k →
  modify_line w R addr = Ok (put (literal_field k) (wrap32 (addr - R) / 4) w).
Proof.
  intros Hw Hk. unfold modify_line.
  rewrite (wrap32_small w) by exact Hw. rewrite Hk, modify_line_offset.
  reflexivity.
Qed.

Lemma modify_line_fatal w R addr :
  0 ≤ w < 2 ^ 32 → literal_kind_of w = None →
  modify_line w R addr = Fatal (NotABranchLiteral w).
Proof.
  intros Hw Hk. unfold modify_line.
  rewrite (wrap32_small w) by exact Hw. rewrite Hk. reflexivity.
Qed.

Lemma modify_line_inv w R addr w' :
  modify_line w R addr = Ok w' →
  ∃ k, literal_kind_of (wrap32 w) = Some k
       ∧ w' = put (literal_field k) (wrap32 (addr - R) / 4) (wrap32 w).
Proof.
  unfold modify_line. rewrite modify_line_offset.
  destruct (literal_kind_of (wrap32 w)) as [k|]; [|discriminate].
  intros [= <-]. eauto.
Qed.

Lemma patched_word k addr R w :
  0 ≤ w < 2 ^ 32 → literal_kind_of w = Some k →
  let w' := put (literal_field k) (wrap32 (addr - R) / 4) w in
  0 ≤ w' < 2 ^ 32 ∧ literal_kind_of w' = Some k
  ∧ displacement k w' = Reference.patched_displacement k addr R.
Proof.
  intros Hw Hk. cbn zeta. split; [|split].
  - apply put_range; [apply literal_field_fits|exact Hw].
  - apply literal_kind_of_put. exact Hk.
  - unfold displacement, Reference.patched_displacement.
    destruct (literal_field_fits k) as (? & ? & _).
    apply get_put_same; assumption.
Qed.

(** Index of the word an address refers to. *)
Local Notation "'word_index' R" := (Z.to_nat (R / INSTR_SIZE)) (at level 10, R at level 9).

(** The loop changes no word outside the recorded addresses and keeps
    the number of words. *)
Lemma modify_lines_frame (ins : list Z) addr rs ins' :
  modify_lines ins addr rs = Ok ins' →
  length ins' = length ins
  ∧ ∀ i, (∀ R, R ∈ rs → word_index R ≠ i) → ins' !! i = ins !! i.
Proof.
  revert ins. induction rs as [|R rs IH]; intros ins; cbn [modify_lines].
  - intros [= <-]. split; reflexivity.
  - destruct (ins !! word_index R) as [w|]; [|discriminate].
    destruct (modify_line w R addr) as [w1|]; [|discriminate].
    cbn [result_bind]. intros Hrest.
    destruct (IH _ Hrest) as [Hlen Hother]. split.
    + rewrite Hlen. apply length_insert.
    + intros i Hi. rewrite Hother.
      * apply list_lookup_insert_ne. apply Hi. apply list_elem_of_here.
      * intros R' HR'. apply Hi. apply list_elem_of_further. exact HR'.
Qed.

(** A word with a displacement field keeps its encoding through the
    loop, and either stays as it is or carries the displacement of one
    of the recorded addresses that refer to it. *)
Lemma modify_lines_lookup (ins : list Z) addr rs ins' i w k :
  modify_lines ins addr rs = Ok ins' →
  ins !! i = Some w → 0 ≤ w < 2 ^ 32 → literal_kind_of w = Some k →
  ∃ w', ins' !! i = Some w' ∧ 0 ≤ w' < 2 ^ 32 ∧ literal_kind_of w' = Some k
        ∧ (w' = w
           ∨ ∃ R, R ∈ rs ∧ word_index R = i
                  ∧ displacement k w' = Reference.patched_displacement k addr R).
Proof.
  revert ins w. induction rs as [|R rs IH]; intros ins w; cbn [modify_lines].
  - intros [= <-] Hi Hw Hk. eauto 10.
  - destruct (ins !! word_index R) as [w0|] eqn:Hw0; [|discriminate].
    destruct (modify_line w0 R addr) as [w1|] eqn:Hw1; [|discriminate].
    cbn [result_bind]. intros Hrest Hi Hw Hk.
    destruct (decide (word_index R = i)) as [Heq|Hne].
    + rewrite Heq, Hi in Hw0. injection Hw0 as <-.
      rewrite (modify_line_ok w R addr k Hw Hk) in Hw1. injection Hw1 as <-.
      destruct (patched_word k addr R w Hw Hk) as (Hr1 & Hk1 & Hd1).
      assert (Hi1 : <[word_index R := put (literal_field k)
                                        (wrap32 (addr - R) / 4) w]> ins !! i
                    = Some (put (literal_field k) (wrap32 (addr - R) / 4) w)).
      { rewrite Heq. apply list_lookup_insert_eq.
        apply lookup_lt_Some with w. exact Hi. }
      destruct (IH _ _ Hrest Hi1 Hr1 Hk1) as (w' & Hl & Hr & Hk' & Hcase).
      exists w'. split; [exact Hl|]. split; [exact Hr|]. split; [exact Hk'|].
      right. destruct Hcase as [->|(R' & HR' & Hidx & Hd)].
      * exists R. split; [apply list_elem_of_here|split; assumption].
      * exists R'. split; [apply list_elem_of_further; exact HR'|split; assumption].
    + assert (Hi1 : <[word_index R := w1]> ins !! i = Some w)
        by (rewrite list_lookup_insert_ne by exact Hne; exact Hi).
      destruct (IH _ _ Hrest Hi1 Hw Hk) as (w' & Hl & Hr & Hk' & Hcase).
      exists w'. split; [exact Hl|]. split; [exact Hr|]. split; [exact Hk'|].
      destruct Hcase as [->|(R' & HR' & Hidx & Hd)]; [left; reflexivity|].
      right. exists R'. split; [apply list_elem_of_further; exact HR'|split; assumption].
Qed.

(** The loop runs to its end when every recorded address refers to a
    word that has a displacement field. *)
Lemma modify_lines_succeeds (ins : list Z) addr rs :
  (∀ R, R ∈ rs → ∃ w k, ins !! word_index R = Some w ∧ 0 ≤ w < 2 ^ 32
                         ∧ literal_kind_of w = Some k) →
  ∃ ins', modify_lines ins addr rs = Ok ins'.
Proof.
  revert ins. induction rs as [|R rs IH]; intros ins Hall; cbn [modify_lines].
  - eauto.
  - destruct (Hall R (list_elem_of_here _ _)) as (w & k & Hw & Hr & Hk).
    rewrite Hw, (modify_line_ok w R addr k Hr Hk). cbn [result_bind].
    apply IH. intros R' HR'.
    destruct (decide (word_index R = word_index R')) as [Heq|Hne].
    + destruct (patched_word k addr R w Hr Hk) as (Hr1 & Hk1 & _).
      eexists _, k. split; [|split; eassumption].
      rewrite <- Heq. apply list_lookup_insert_eq.
      apply lookup_lt_Some with w. exact Hw.
    + destruct (Hall R' (list_elem_of_further _ _ _ HR')) as (w' & k' & Hw' & Hr' & Hk').
      exists w', k'. split; [|split; assumption].
      rewrite list_lookup_insert_ne by exact Hne. exact Hw'.
Qed.

(** The loop ends the process when a recorded address refers to a word
    of another encoding. *)
Lemma modify_lines_fatal (ins : list Z) addr rs :
  (∃ R w, R ∈ rs ∧ ins !! word_index R = Some w ∧ 0 ≤ w < 2 ^ 32
          ∧ literal_kind_of w = None) →
  is_Fatal (modify_lines ins addr rs).
Proof.
  revert ins. induction rs as [|R0 rs IH]; intros ins (R & w & HR & Hw & Hr & Hk).
  - inversion HR.
  - cbn [modify_lines].
    destruct (ins !! word_index R0) as [w0|] eqn:Hw0; [|eexists; reflexivity].
    destruct (modify_line w0 R0 addr) as [w1|] eqn:Hw1;
      [|eexists; reflexivity].
    cbn [result_bind].
    assert (Hne : word_index R0 ≠ word_index R).
    { intros Heq. rewrite Heq, Hw in Hw0. injection Hw0 as <-.
      rewrite (modify_line_fatal w R0 addr Hr Hk) in Hw1. discriminate. }
    apply IH. exists R, w. split; [|split; [|split; assumption]].
    + apply elem_of_cons in HR as [->|HR]; [congruence|exact HR].
    + rewrite list_lookup_insert_ne by exact Hne. exact Hw.
Qed.

(** Every recorded address is patched by the loop: the word it refers to
    ends with the displacement of a recorded address of the same word. *)
Lemma modify_lines_patched (ins : list Z) addr rs ins' :
  modify_lines ins addr rs = Ok ins' →
  ∀ R, R ∈ rs →
    ∃ w' k, ins' !! word_index R = Some w' ∧ literal_kind_of w' = Some k
            ∧ ∃ R', R' ∈ rs ∧ word_index R' = word_index R
                    ∧ displacement k w' = Reference.patched_displacement k addr R'.
Proof.
  revert ins. induction rs as [|R0 rs IH]; intros ins Hrun R HR.
  - inversion HR.
  - cbn [modify_lines] in Hrun.
    destruct (ins !! word_index R0) as [w0|] eqn:Hw0; [|discriminate].
    destruct (modify_line w0 R0 addr) as [w1|] eqn:Hw1; [|discriminate].
    cbn [result_bind] in Hrun.
    apply elem_of_cons in HR as [->|HR].
    + destruct (modify_line_inv _ _ _ _ Hw1) as (k & Hk & ->).
      destruct (patched_word k addr R0 (wrap32 w0) (wrap32_range w0) Hk)
        as (Hr1 & Hk1 & Hd1).
      assert (Hi1 : <[word_index R0 := put (literal_field k)
                        (wrap32 (addr - R0) / 4) (wrap32 w0)]> ins
                    !! word_index R0
                    = Some (put (literal_field k) (wrap32 (addr - R0) / 4)
                              (wrap32 w0))).
      { apply list_lookup_insert_eq. apply lookup_lt_Some with w0. exact Hw0. }
      destruct (modify_lines_lookup _ _ _ _ _ _ _ Hrun Hi1 Hr1 Hk1)
        as (w' & Hl & _ & Hk' & Hcase).
      exists w', k. split; [exact Hl|]. split; [exact Hk'|].
      destruct Hcase as [->|(R' & HR' & Hidx & Hd)].
      * exists R0. split; [apply list_elem_of_here|split; [reflexivity|exact Hd1]].
      * exists R'. split; [apply list_elem_of_further; exact HR'|].
        split; assumption.
    + destruct (IH _ Hrun R HR) as (w' & k & Hl & Hk & R' & HR' & Hidx & Hd).
      exists w', k. split; [exact Hl|]. split; [exact Hk|].
      exists R'. split; [apply list_elem_of_further; exact HR'|].
      split; assumption.
Qed.

Lemma word_index_inj R R' :
  0 ≤ R → 0 ≤ R' → R mod 4 = 0 → R' mod 4 = 0 →
  word_index R' = word_index R → R' = R.
Proof.
  unfold INSTR_SIZE. intros HR HR' Hm Hm' Heq.
  apply Z2Nat.inj in Heq; try (apply Z.div_pos; lia).
  rewrite (Z.div_mod R 4), (Z.div_mod R' 4) by lia. lia.
Qed.

(** C6, as the code has it. Defining a label that has pending references
    rewrites, in every word recorded at a reference address [R], the
    displacement field of the encoding of that word (simm26 of an
    unconditional branch, simm19 of a conditional branch or of a load
    literal) to [(addr - R) / 4] reduced modulo two to the width of the
    field: [modify_line] checks no range.  The field is [(addr - R) / 4]
    when that quotient is below two to the width of the field.  A
    recorded word of any other encoding ends the process. *)
Theorem define_rewrites_forward_references
    (st : symbol_table) (ins : list Z) (addr : Z) (label : string)
    (rs : list Z) :
  labels st !! label = None →
  addresses st !! label = Some rs →
  Forall (λ w, 0 ≤ w < 2 ^ 32) ins →
  0 ≤ addr < 2 ^ 32 →
  Forall (λ R, 0 ≤ R ≤ addr ∧ R mod 4 = 0) rs →
  ((∀ R, R ∈ rs → ∃ w k, ins !! Z.to_nat (R / 4) = Some w
                         ∧ literal_kind_of w = Some k) →
   ∃ st' ins',
     symbol_table_add_label st ins addr label = Ok (st', ins')
     ∧ labels st' !! label = Some addr
     ∧ ∀ R, R ∈ rs →
         ∃ w w' k,
           ins !! Z.to_nat (R / 4) = Some w ∧ literal_kind_of w = Some k
           ∧ ins' !! Z.to_nat (R / 4) = Some w' ∧ literal_kind_of w' = Some k
           ∧ get (literal_field k) w'
             = ((addr - R) / 4) mod 2 ^ width (literal_field k)
           ∧ ((addr - R) / 4 < 2 ^ width (literal_field k) →
              get (literal_field k) w' = (addr - R) / 4))
  ∧ ((∃ R w, R ∈ rs ∧ ins !! Z.to_nat (R / 4) = Some w
             ∧ literal_kind_of w = None) →
     is_Fatal (symbol_table_add_label st ins addr label)).
Proof.
  intros Hlab Hpend Hins Haddr Hrs.
  rewrite Forall_forall in Hrs.
  assert (Hrange : ∀ i w, ins !! i = Some w → 0 ≤ w < 2 ^ 32).
  { intros i w Hi. rewrite Forall_lookup in Hins. exact (Hins i w Hi). }
  unfold symbol_table_add_label. rewrite Hlab, Hpend.
  split.
  - intros Hall.
    destruct (modify_lines_succeeds ins addr rs) as [ins' Hrun].
    { intros R HR. destruct (Hall R HR) as (w & k & Hw & Hk).
      exists w, k. split; [exact Hw|]. split; [exact (Hrange _ _ Hw)|exact Hk]. }
    rewrite Hrun. cbn [result_bind]. eexists _, ins'.
    split; [reflexivity|]. split.
    { cbn. rewrite lookup_insert_eq. f_equal. apply wrap32_small. exact Haddr. }
    intros R HR. destruct (Hall R HR) as (w & k & Hw & Hk).
    destruct (modify_lines_lookup _ _ _ _ _ _ _ Hrun Hw (Hrange _ _ Hw) Hk)
      as (w' & Hl & _ & Hk' & _).
    destruct (modify_lines_patched _ _ _ _ Hrun R HR)
      as (w'' & k' & Hl' & Hk'' & R' & HR' & Hidx & Hd).
    change (Z.to_nat (R / INSTR_SIZE)) with (Z.to_nat (R / 4)) in *.
    rewrite Hl in Hl'. injection Hl' as <-.
    rewrite Hk' in Hk''. injection Hk'' as <-.
    destruct (Hrs R HR) as [HR1 HR2]. destruct (Hrs R' HR') as [HR1' HR2'].
    assert (R' = R) as -> by (apply word_index_inj; lia || assumption).
    assert (Hdisp : get (literal_field k) w'
                    = ((addr - R) / 4) mod 2 ^ width (literal_field k)).
    { unfold displacement, Reference.patched_displacement in Hd.
      rewrite Hd, (wrap32_small (addr - R)) by lia. reflexivity. }
    exists w, w', k. repeat (split; [assumption|]).
    intros Hfit. rewrite Hdisp. apply Z.mod_small.
    split; [apply Z.div_pos; lia|exact Hfit].
  - intros (R & w & HR & Hw & Hk).
    destruct (modify_lines_fatal ins addr rs) as [e He].
    { exists R, w. split; [exact HR|]. split; [exact Hw|].
      split; [exact (Hrange _ _ Hw)|exact Hk]. }
    rewrite He. exists e. reflexivity.
Qed.

Lemma define_rewrites_forward_references_witness :
  (∃ st' ins',
     symbol_table_add_label Scenario.pending_end Scenario.emitted_branch 8 "end"
       = Ok (st', ins')
     ∧ labels st' !! "end" = Some 8
     ∧ ∀ R, R ∈ [0] →
         ∃ w w' k,
           Scenario.emitted_branch !! Z.to_nat (R / 4) = Some w
           ∧ literal_kind_of w = Some k
           ∧ ins' !! Z.to_nat (R / 4) = Some w' ∧ literal_kind_of w' = Some k
           ∧ get (literal_field k) w'
             = ((8 - R) / 4) mod 2 ^ width (literal_field k)
           ∧ ((8 - R) / 4 < 2 ^ width (literal_field k) →
              get (literal_field k) w' = (8 - R) / 4))
  ∧ is_Fatal
      (symbol_table_add_label Scenario.pending_end Scenario.emitted_other 8 "end").
Proof.
  split.
  - apply (define_rewrites_forward_references Scenario.pending_end
             Scenario.emitted_branch 8 "end" [0]).
    + reflexivity.
    + reflexivity.
    + repeat constructor; lia.
    + lia.
    + repeat constructor; lia.
    + intros R HR. apply list_elem_of_singleton in HR. subst R.
      exists 0x14000000, LitBranchUncond. split; reflexivity.
  - apply (define_rewrites_forward_references Scenario.pending_end
             Scenario.emitted_other 8 "end" [0]).
    + reflexivity.
    + reflexivity.
    + repeat constructor; lia.
    + lia.
    + repeat constructor; lia.
    + exists 0, 0xD28000E0. split; [apply list_elem_of_here|].
      split; reflexivity.
Defined.

(** C6, as the claim states it, fails: for a conditional branch at
    address 0 and a label defined [2 ^ 19] words further, the quotient
    [(addr - R) / 4] is [2 ^ 19], which the 19-bit field does not hold;
    [modify_line] stores its low 19 bits, and the word keeps the
    displacement 0. *)
Lemma far_forward_reference_is_truncated :
  modify_line 0x54000000 0 (4 * 2 ^ 19) = Ok 0x54000000
  ∧ ∃ st' ins' w',
      symbol_table_add_label Scenario.pending_end [0x54000000] (4 * 2 ^ 19)
        "end" = Ok (st', ins')
      ∧ labels st' !! "end" = Some (4 * 2 ^ 19)
      ∧ ins' !! Z.to_nat (0 / 4) = Some w'
      ∧ literal_kind_of w' = Some LitBranchCond
      ∧ get (literal_field LitBranchCond) w' = 0
      ∧ get (literal_field LitBranchCond) w' ≠ (4 * 2 ^ 19 - 0) / 4.
Proof.
  split; [vm_compute; reflexivity|].
  eexists _, _, 0x54000000.
  split; [vm_compute; reflexivity|].
  split; [vm_compute; reflexivity|].
  split; [vm_compute; reflexivity|].
  split; [vm_compute; reflexivity|].
  split; [vm_compute; reflexivity|].
  vm_compute. discriminate.
Qed.

(** C9. Back-patching changes only the displacement field of the words
    it refers to: [modify_line] leaves every bit outside the displacement
    field of the word as it was, and [symbol_table_add_label] keeps the
    number of emitted words and leaves every word that no address of the
    label's pending list refers to unchanged. *)
Theorem back_patching_changes_only_displacement :
  (∀ w R addr w',
     0 ≤ w < 2 ^ 32 → modify_line w R addr = Ok w' →
     ∃ k, literal_kind_of w = Some k
          ∧ 0 ≤ w' < 2 ^ 32
          ∧ ∀ i, 0 ≤ i →
              i < lo (literal_field k)
              ∨ lo (literal_field k) + width (literal_field k) ≤ i →
              Z.testbit w' i = Z.testbit w i)
  ∧ (∀ st (ins : list Z) addr label st' ins',
       symbol_table_add_label st ins addr label = Ok (st', ins') →
       length ins' = length ins
       ∧ ∀ i, (∀ R, R ∈ default [] (addresses st !! label) →
                    Z.to_nat (R / 4) ≠ i) →
              ins' !! i = ins !! i).
Proof.
  split.
  - intros w R addr w' Hw Hrun.
    destruct (modify_line_inv _ _ _ _ Hrun) as (k & Hk & ->).
    rewrite (wrap32_small w) in * by exact Hw.
    exists k. split; [exact Hk|]. split.
    + apply put_range; [apply literal_field_fits|exact Hw].
    + intros i Hi Hout. unfold put.
      destruct (literal_field_fits k) as (Hlo & Hwd & _).
      rewrite testbit_set_field by assumption.
      replace ((lo (literal_field k) <=? i)
               && (i <? lo (literal_field k) + width (literal_field k)))
        with false; [reflexivity|].
      symmetry. apply andb_false_iff. rewrite Z.leb_gt, Z.ltb_ge. exact Hout.
  - intros st ins addr label st' ins'. unfold symbol_table_add_label.
    destruct (labels st !! label); [discriminate|].
    destruct (addresses st !! label) as [rs|]; cbn [default].
    + destruct (modify_lines ins addr rs) as [ins1|] eqn:Hrun; [|discriminate].
      cbn [result_bind]. intros [= <- <-].
      exact (modify_lines_frame _ _ _ _ Hrun).
    + intros [= <- <-]. split; reflexivity.
Qed.

Lemma back_patching_changes_only_displacement_witness :
  (∃ k, literal_kind_of 0x54000001 = Some k
        ∧ 0 ≤ 0x54000041 < 2 ^ 32
        ∧ ∀ i, 0 ≤ i →
            i < lo (literal_field k)
            ∨ lo (literal_field k) + width (literal_field k) ≤ i →
            Z.testbit 0x54000041 i = Z.testbit 0x54000001 i)
  ∧ (length [0x14000002; 0xD28000E0] = length Scenario.emitted_branch
     ∧ ∀ i, (∀ R, R ∈ default [] (addresses Scenario.pending_end !! "end") →
                  Z.to_nat (R / 4) ≠ i) →
            [0x14000002; 0xD28000E0] !! i = Scenario.emitted_branch !! i).
Proof.
  split.
  - apply (proj1 back_patching_changes_only_displacement 0x54000001 4 12);
      [lia|reflexivity].
  - apply (proj2 back_patching_changes_only_displacement Scenario.pending_end
             Scenario.emitted_branch 8 "end"
             {| labels := {["end" := 8]}; addresses := {["end" := [0]]} |}).
    reflexivity.
Defined.

End SymbolTableFacts.

(** ** The assembler and unresolved labels *)

Section AssemblerFacts.
Import SymbolTable CString Decode Assemble.

Lemma testbit_put f v w i :
  0 ≤ lo f → 0 ≤ width f → 0 ≤ i →
  Z.testbit (put f v w) i =
    if (lo f <=? i) && (i <? lo f + width f) then Z.testbit v (i - lo f)
    else Z.testbit w i.
Proof. intros. unfold put. apply testbit_set_field; assumption. Qed.

Lemma get_one_bit f w :
  0 ≤ lo f → width f = 1 → get f w = Z.b2z (Z.testbit w (lo f)).
Proof.
  intros Hlo Hw. unfold get, field. rewrite Hw.
  rewrite Z.land_ones by lia. change (2 ^ 1) with 2.
  rewrite <- Z.bit0_mod, Z.shiftr_spec by lia. reflexivity.
Qed.

(** A word with bit 27 set and bits 25 and 31 clear is a load literal. *)
Lemma literal_kind_of_load_literal w :
  Z.testbit w 27 = true → Z.testbit w 25 = false → Z.testbit w 31 = false →
  literal_kind_of w = Some LitLoadLiteral.
Proof.
  intros H27 H25 H31. unfold literal_kind_of.
  assert (Hop0 : (GeneralBranch.op0 w =? ITP_BRANCH) = false).
  { apply Z.eqb_neq. intros Heq.
    apply (f_equal (λ z, Z.testbit z 1)) in Heq.
    unfold get in Heq. cbn [lo width GeneralBranch.op0] in Heq.
    rewrite testbit_field in Heq by lia.
    change (1 + 26) with 27 in Heq. rewrite H27 in Heq. discriminate Heq. }
  rewrite Hop0. cbn [andb].
  rewrite (get_one_bit GeneralDT.op0_1), (get_one_bit GeneralDT.op0_2),
    (get_one_bit DTLoadLiteral.id) by (cbn; lia).
  cbn [lo GeneralDT.op0_1 GeneralDT.op0_2 DTLoadLiteral.id].
  rewrite H27, H25, H31. reflexivity.
Qed.

Lemma symbol_table_get_address_cases st cur label offset st' :
  symbol_table_get_address st cur label = (offset, st') →
  st' = st
  ∨ (labels st !! label = None ∧ offset = 0
     ∧ st' = {| labels := labels st;
                addresses :=
                  <[label := default [] (addresses st !! label) ++ [wrap32 cur]]>
                    (addresses st) |}).
Proof.
  unfold symbol_table_get_address.
  destruct (labels st !! label).
  - intros [= _ <-]. left. reflexivity.
  - intros [= <- <-]. right. repeat split; reflexivity.
Qed.

(** Case analysis of a computation that returned [Ok]. *)
Ltac step_ok H :=
  match type of H with
  | result_bind ?m _ = Ok _ =>
      let E := fresh "E" in
      destruct m eqn:E; cbn [result_bind] in H; [|discriminate H]
  | (if ?b then _ else _) = Ok _ => let E := fresh "E" in destruct b eqn:E
  | match ?o with Some _ => _ | None => _ end = Ok _ =>
      let E := fresh "E" in destruct o eqn:E
  | Fatal _ = Ok _ => discriminate H
  end.

Lemma read_branch_cond_type_values s c :
  read_branch_cond_type s = Ok c → c ∈ [0; 1; 10; 11; 12; 13; 14].
Proof.
  unfold read_branch_cond_type. intros H. repeat step_ok H;
    injection H as <-; set_solver.
Qed.

(** The encoders that consult the symbol table: either the label was
    defined, or the reference was recorded and the displacement is 0. *)
Ltac split_get_address H :=
  match type of H with
  | context [symbol_table_get_address ?st ?cur ?l] =>
      let Hga := fresh "Hga" in
      let Hl := fresh "Hl" in
      destruct (symbol_table_get_address st cur l) as [offset st1] eqn:Hga;
      injection H as <- <-;
      destruct (symbol_table_get_address_cases _ _ _ _ _ Hga)
        as [->|(Hl & -> & ->)]; [left; reflexivity|right; exists l]
  end.

Lemma assemble_branch_table_step st cur opcode operands w st' :
  assemble_branch st cur opcode operands = Ok (w, st') →
  table_step st cur w st'.
Proof.
  unfold assemble_branch. intros H. repeat step_ok H.
  - split_get_address H.
    exists LitBranchUncond. repeat split; assumption || reflexivity.
  - split_get_address H.
    exists LitBranchCond.
    match goal with
    | E : read_branch_cond_type _ = Ok _ |- _ =>
        apply read_branch_cond_type_values in E;
        repeat (apply elem_of_cons in E as [->|E]);
        [repeat split; assumption || reflexivity ..|inversion E]
    end.
  - injection H as <- <-. left. reflexivity.
Qed.

Lemma assemble_load_store_table_step st cur opcode operands w st' :
  assemble_load_store st cur opcode operands = Ok (w, st') →
  table_step st cur w st'.
Proof.
  unfold assemble_load_store. intros H. repeat step_ok H;
    try (injection H as <- <-; left; reflexivity).
  split_get_address H.
  exists LitLoadLiteral.
  split; [assumption|]. split; [reflexivity|]. split.
  - apply literal_kind_of_load_literal;
      rewrite !testbit_put by (cbn; lia); reflexivity.
  - cbn [literal_field]. rewrite get_put_same by (cbn; lia). reflexivity.
Qed.

Lemma determine_and_assemble_table_step st cur opcode operands w st' :
  determine_and_assemble st cur opcode operands = Ok (w, st') →
  table_step st cur w st'.
Proof.
  unfold determine_and_assemble. intros H. repeat step_ok H;
    try (injection H as <- <-; left; reflexivity).
  - exact (assemble_load_store_table_step _ _ _ _ _ _ H).
  - exact (assemble_branch_table_step _ _ _ _ _ _ H).
Qed.

Lemma symbol_table_add_label_inv st (ins : list Z) addr label st' ins' :
  symbol_table_add_label st ins addr label = Ok (st', ins') →
  labels st !! label = None
  ∧ st' = {| labels := <[label := wrap32 addr]> (labels st);
             addresses := addresses st |}
  ∧ modify_lines ins addr (default [] (addresses st !! label)) = Ok ins'.
Proof.
  unfold symbol_table_add_label.
  destruct (labels st !! label); [discriminate|].
  destruct (addresses st !! label) as [rs|]; simpl.
  - destruct (modify_lines ins addr rs); [|discriminate].
    simpl. intros [= <- <-]. repeat split; reflexivity.
  - intros [= <- <-]. repeat split; reflexivity.
Qed.

(** The two ways [decode] ends well: a label definition, which patches
    the words recorded for the label, or one more emitted word. *)
Lemma decode_inv line a a' :
  decode line a = Ok a' →
  (∃ label st' ins',
     symbol_table_add_label (table a) (instructions a) (current_address a) label
       = Ok (st', ins')
     ∧ a' = {| table := st'; instructions := ins';
               current_address := current_address a |})
  ∨ (∃ w st',
       table_step (table a) (current_address a) w st'
       ∧ a' = {| table := st'; instructions := instructions a ++ [w];
                 current_address := wrap32 (current_address a + 4) |}).
Proof.
  unfold decode. intros H.
  destruct (tokens ", " (strtok_cut "/" line)) as [|segment rest];
    [discriminate|].
  destruct (is_label segment).
  - step_ok H. injection H as <-. left.
    match goal with
    | E : symbol_table_add_label _ _ _ ?l = Ok ?r |- _ =>
        exists l, r.1, r.2; destruct r; split; [exact E|reflexivity]
    end.
  - step_ok H; [discriminate H|].
    match type of H with
    | context [convert_aliases ?s ?o] =>
        destruct (convert_aliases s o) as [opcode operands]
    end.
    step_ok H. injection H as <-. right.
    match goal with
    | E : determine_and_assemble _ _ _ _ = Ok ?r |- _ =>
        exists r.1, r.2; destruct r; split;
        [exact (determine_and_assemble_table_step _ _ _ _ _ _ E)|reflexivity]
    end.
Qed.

Lemma decode_length line a a' :
  decode line a = Ok a' →
  (length (instructions a) ≤ length (instructions a'))%nat.
Proof.
  intros H. destruct (decode_inv _ _ _ H)
    as [(label & st' & ins' & Hadd & ->)|(w & st' & _ & ->)]; cbn.
  - destruct (symbol_table_add_label_inv _ _ _ _ _ _ Hadd) as (_ & _ & Hrun).
    destruct (modify_lines_frame _ _ _ _ Hrun) as [Hlen _]. lia.
  - rewrite length_app. cbn. lia.
Qed.

Lemma for_each_line_length lines a a' :
  for_each_line lines a = Ok a' →
  (length (instructions a) ≤ length (instructions a'))%nat.
Proof.
  revert a. induction lines as [|line lines IH]; intros a; cbn [for_each_line].
  - intros [= <-]. lia.
  - destruct (decode line a) as [a1|] eqn:Hd; [|discriminate].
    cbn [result_bind]. intros Hrest.
    apply decode_length in Hd. apply IH in Hrest. lia.
Qed.

Lemma well_formed_init : well_formed decode_init.
Proof.
  split; cbn.
  - reflexivity.
  - lia.
  - intros label rs R H. rewrite lookup_empty in H. discriminate.
  - intros label1 label2 rs1 rs2 R H. rewrite lookup_empty in H. discriminate.
  - intros label rs R _ H. rewrite lookup_empty in H. discriminate.
Qed.

(** One line keeps the invariant, as long as the addresses fit 32 bits. *)
Lemma decode_well_formed line a a' :
  decode line a = Ok a' → well_formed a →
  4 * Z.of_nat (length (instructions a')) < 2 ^ 32 → well_formed a'.
Proof.
  intros Hd [Haddr Hbound Hpend Hown Hplace] Hb'.
  destruct (decode_inv _ _ _ Hd)
    as [(label & st' & ins' & Hadd & ->)|(w & st' & Hstep & ->)].
  - (* a label definition *)
    destruct (symbol_table_add_label_inv _ _ _ _ _ _ Hadd)
      as (Hnone & -> & Hrun).
    destruct (modify_lines_frame _ _ _ _ Hrun) as [Hlen Hframe].
    cbn in Hb'. split; cbn.
    + rewrite Hlen. exact Haddr.
    + exact Hb'.
    + exact Hpend.
    + exact Hown.
    + intros l rs R Hl Hrs HR.
      assert (Hne : l ≠ label)
        by (intros ->; rewrite lookup_insert_eq in Hl; discriminate).
      rewrite lookup_insert_ne in Hl by congruence.
      destruct (Hplace l rs R Hl Hrs HR) as (w & k & Hw & Hk & Hz).
      exists w, k. split; [|split; assumption].
      rewrite <- Hw. apply Hframe. intros R' HR' Heq.
      destruct (addresses (table a) !! label) as [rsl|] eqn:Hrsl;
        cbn in HR'; [|inversion HR'].
      destruct (Hpend _ _ _ Hrsl HR') as [HR1' HR2'].
      destruct (Hpend _ _ _ Hrs HR) as [HR1 HR2].
      assert (R' = R) by (apply word_index_inj; lia || assumption).
      subst R'. apply Hne. symmetry.
      exact (Hown _ _ _ _ _ Hrsl Hrs HR' HR).
  - (* one more word *)
    cbn in Hb'. rewrite length_app in Hb'. cbn in Hb'.
    set (cur := current_address a) in *.
    set (ins := instructions a) in *.
    assert (Hcur : wrap32 cur = cur) by (apply wrap32_small; lia).
    assert (Hnext : wrap32 (cur + 4) = cur + 4) by (apply wrap32_small; lia).
    assert (Hold : ∀ R, 0 ≤ R < cur →
                     (ins ++ [w]) !! Z.to_nat (R / 4) = ins !! Z.to_nat (R / 4)).
    { intros R HR. apply lookup_app_l.
      assert (R / 4 < Z.of_nat (length ins))
        by (apply Z.div_lt_upper_bound; lia).
      assert (0 ≤ R / 4) by (apply Z.div_pos; lia). lia. }
    assert (Hnew : (ins ++ [w]) !! Z.to_nat (cur / 4) = Some w).
    { apply list_lookup_middle. rewrite Haddr, Z.mul_comm, Z.div_mul by lia.
      apply Nat2Z.id. }
    assert (Hmod : cur mod 4 = 0)
      by (rewrite Haddr, Z.mul_comm; apply Z.mod_mul; lia).
    destruct Hstep as [->|(label & k & Hnone & -> & Hk & Hz)].
    + split; cbn; fold cur ins.
      * rewrite Hnext, length_app. cbn. lia.
      * rewrite length_app. cbn. lia.
      * intros l rs R Hrs HR. destruct (Hpend l rs R Hrs HR). rewrite Hnext.
        split; [lia|assumption].
      * exact Hown.
      * intros l rs R Hl Hrs HR.
        destruct (Hplace l rs R Hl Hrs HR) as (w0 & k0 & Hw0 & Hk0 & Hz0).
        exists w0, k0. split; [|split; assumption].
        rewrite Hold; [exact Hw0|]. destruct (Hpend l rs R Hrs HR). lia.
    + rewrite Hcur.
      assert (Hlist : ∀ l rs R,
                <[label := default [] (addresses (table a) !! label) ++ [cur]]>
                  (addresses (table a)) !! l = Some rs → R ∈ rs →
                (R = cur ∧ l = label)
                ∨ (∃ rs0, addresses (table a) !! l = Some rs0 ∧ R ∈ rs0)).
      { intros l rs R Hrs HR.
        destruct (decide (l = label)) as [->|Hne].
        - rewrite lookup_insert_eq in Hrs. injection Hrs as <-.
          apply elem_of_app in HR as [HR|HR].
          + right. destruct (addresses (table a) !! label) as [rs0|];
              cbn in HR; [eauto|inversion HR].
          + left. apply list_elem_of_singleton in HR. auto.
        - rewrite lookup_insert_ne in Hrs by congruence. right. eauto. }
      split; cbn; fold cur ins.
      * rewrite Hnext, length_app. cbn. lia.
      * rewrite length_app. cbn. lia.
      * intros l rs R Hrs HR. rewrite Hnext.
        destruct (Hlist l rs R Hrs HR) as [[-> _]|(rs0 & Hrs0 & HR0)].
        -- split; [lia|exact Hmod].
        -- destruct (Hpend l rs0 R Hrs0 HR0). split; [lia|assumption].
      * intros l1 l2 rs1 rs2 R Hrs1 Hrs2 HR1 HR2.
        destruct (Hlist l1 rs1 R Hrs1 HR1) as [[-> ->]|(rs01 & Hrs01 & HR01)];
          destruct (Hlist l2 rs2 _ Hrs2 HR2) as [[Heq ->]|(rs02 & Hrs02 & HR02)].
        -- reflexivity.
        -- destruct (Hpend l2 rs02 cur Hrs02 HR02). lia.
        -- subst R. destruct (Hpend l1 rs01 cur Hrs01 HR01). lia.
        -- exact (Hown _ _ _ _ _ Hrs01 Hrs02 HR01 HR02).
      * intros l rs R Hl Hrs HR.
        destruct (Hlist l rs R Hrs HR) as [[-> ->]|(rs0 & Hrs0 & HR0)].
        -- exists w, k. split; [exact Hnew|split; assumption].
        -- destruct (Hplace l rs0 R Hl Hrs0 HR0) as (w0 & k0 & Hw0 & Hk0 & Hz0).
           exists w0, k0. split; [|split; assumption].
           rewrite Hold; [exact Hw0|]. destruct (Hpend l rs0 R Hrs0 HR0). lia.
Qed.

(** The whole input keeps the invariant. *)
Lemma for_each_line_well_formed lines a a' :
  for_each_line lines a = Ok a' → well_formed a →
  4 * Z.of_nat (length (instructions a')) < 2 ^ 32 → well_formed a'.
Proof.
  revert a. induction lines as [|line lines IH]; intros a; cbn [for_each_line].
  - intros [= <-] Hwf _. exact Hwf.
  - destruct (decode line a) as [a1|] eqn:Hd; [|discriminate].
    cbn [result_bind]. intros Hrest Hwf Hb.
    apply (IH a1 Hrest); [|exact Hb].
    apply (decode_well_formed line a a1 Hd Hwf).
    apply for_each_line_length in Hrest. lia.
Qed.

(** The bytes of word [n] in the output file. *)
Lemma write_to_binary_file_word (ins : list Z) n w :
  ins !! n = Some w →
  take 4 (drop (4 * n) (write_to_binary_file ins)) = Memory.object_bytes 4 w.
Proof.
  unfold write_to_binary_file.
  revert n. induction ins as [|w0 ins IH]; intros n Hn; [discriminate|].
  destruct n as [|n].
  - injection Hn as ->. reflexivity.
  - replace (4 * S n)%nat with (4 + 4 * n)%nat by lia.
    cbn in Hn. exact (IH n Hn).
Qed.

(** C2, as the code has it. When every line of the input is accepted,
    a label that was referenced and never defined is no error: the
    assembler ends with success and writes all emitted words; the output
    file holds, at each address recorded for the label, a word whose
    displacement field is the zero placeholder. *)
Theorem unresolved_label_is_not_rejected
    (input : string) (a : assembler) (label : string) (rs : list Z) :
  for_each_line (lines_from [] (chars input)) decode_init = Ok a →
  4 * Z.of_nat (length (instructions a)) < 2 ^ 32 →
  labels (table a) !! label = None →
  addresses (table a) !! label = Some rs →
  ∃ output,
    assemble input = Ok output
    ∧ output = write_to_binary_file (instructions a)
    ∧ ∀ R, R ∈ rs →
        ∃ w k, instructions a !! Z.to_nat (R / 4) = Some w
               ∧ literal_kind_of w = Some k
               ∧ get (literal_field k) w = 0
               ∧ take 4 (drop (Z.to_nat R) output) = Memory.object_bytes 4 w.
Proof.
  intros Hrun Hb Hlab Hrs.
  pose proof (for_each_line_well_formed _ _ _ Hrun well_formed_init Hb) as Hwf.
  exists (write_to_binary_file (instructions a)).
  split; [unfold assemble; rewrite Hrun; reflexivity|].
  split; [reflexivity|].
  intros R HR.
  destruct (wf_placeholder a Hwf label rs R Hlab Hrs HR) as (w & k & Hw & Hk & Hz).
  destruct (wf_pending a Hwf label rs R Hrs HR) as [HR1 HR2].
  exists w, k. repeat (split; [assumption|]).
  rewrite <- (write_to_binary_file_word _ _ _ Hw). do 2 f_equal.
  rewrite (Z.div_mod R 4) at 1 by lia. rewrite HR2, Z.add_0_r.
  assert (0 ≤ R / 4) by (apply Z.div_pos; lia). lia.
Qed.

Lemma unresolved_label_is_not_rejected_witness :
  ∃ output,
    assemble Scenario.dangling_branch_source = Ok output
    ∧ output = write_to_binary_file (instructions Scenario.dangling_branch_state)
    ∧ ∀ R, R ∈ [0] →
        ∃ w k, instructions Scenario.dangling_branch_state !! Z.to_nat (R / 4)
               = Some w
               ∧ literal_kind_of w = Some k
               ∧ get (literal_field k) w = 0
               ∧ take 4 (drop (Z.to_nat R) output) = Memory.object_bytes 4 w.
Proof.
  apply (unresolved_label_is_not_rejected Scenario.dangling_branch_source
           Scenario.dangling_branch_state "foo" [0]).
  - vm_compute. reflexivity.
  - vm_compute. reflexivity.
  - reflexivity.
  - reflexivity.
Defined.

(** C2, as the claim states it, fails: the input [b foo] refers to a
    label that is never defined, and the assembler ends with success,
    having written the branch with its zero placeholder. *)
Lemma dangling_branch_is_assembled :
  (∃ a, for_each_line (lines_from [] (chars Scenario.dangling_branch_source))
          decode_init = Ok a
        ∧ labels (table a) !! "foo" = None
        ∧ addresses (table a) !! "foo" = Some [0])
  ∧ assemble Scenario.dangling_branch_source = Ok [0x00; 0x00; 0x00; 0x14]
  ∧ ¬ is_Fatal (assemble Scenario.dangling_branch_source).
Proof.
  split; [|split].
  - exists Scenario.dangling_branch_state.
    split; [vm_compute; reflexivity|]. split; reflexivity.
  - vm_compute. reflexivity.
  - intros [e He]. vm_compute in He. discriminate He.
Qed.

End AssemblerFacts.

(** * Further properties *)

(** ** Memory: frame, composition of the accessors, loading an image *)

Section MemoryFrame.
Import Memory.

Lemma mem_byte_memcpy_to_outside mem a bs b :
  b < a ∨ a + Z.of_nat (length bs) ≤ b →
  mem_byte (memcpy_to mem a bs) b = mem_byte mem b.
Proof.
  revert mem a. induction bs as [|x bs IH]; intros mem a Hb; cbn [memcpy_to].
  - reflexivity.
  - cbn [length] in Hb. rewrite IH by lia.
    unfold mem_byte. rewrite lookup_insert_ne by lia. reflexivity.
Qed.

Lemma mem_byte_memcpy_to_inside mem a bs j x :
  bs !! j = Some x → mem_byte (memcpy_to mem a bs) (a + Z.of_nat j) = x.
Proof.
  intros Hj.
  pose proof (memcpy_from_memcpy_to mem a bs) as Hc.
  apply (f_equal (λ l, l !! j)) in Hc.
  rewrite lookup_memcpy_from in Hc by (apply lookup_lt_Some with x; exact Hj).
  congruence.
Qed.

Lemma memcpy_from_ext mem mem' a n :
  (∀ i, 0 ≤ i < Z.of_nat n → mem_byte mem' (a + i) = mem_byte mem (a + i)) →
  memcpy_from mem' a n = memcpy_from mem a n.
Proof.
  revert a. induction n as [|n IH]; intros a Hext; cbn [memcpy_from].
  - reflexivity.
  - f_equal.
    + rewrite <- (Z.add_0_r a). apply Hext. lia.
    + apply IH. intros i Hi. replace (a + 1 + i) with (a + (1 + i)) by lia.
      apply Hext. lia.
Qed.

Lemma memcpy_from_app mem a n1 n2 :
  memcpy_from mem a (n1 + n2)
  = memcpy_from mem a n1 ++ memcpy_from mem (a + Z.of_nat n1) n2.
Proof.
  revert a. induction n1 as [|n1 IH]; intros a; cbn [memcpy_from Nat.add app].
  - rewrite Z.add_0_r. reflexivity.
  - rewrite IH. do 3 f_equal. lia.
Qed.

Lemma object_value_app l1 l2 :
  object_value (l1 ++ l2)
  = Z.lor (object_value l1)
          (Z.shiftl (object_value l2) (8 * Z.of_nat (length l1))).
Proof.
  induction l1 as [|b l1 IH]; cbn [app object_value length].
  - rewrite Z.shiftl_0_r. reflexivity.
  - rewrite IH, Z.shiftl_lor, Z.shiftl_shiftl, Z.lor_assoc by lia.
    do 2 f_equal. lia.
Qed.

(** A load that does not overlap a store is not changed by it. *)
Lemma load_bytes_after_store mem a bs c n :
  c + Z.of_nat n ≤ a ∨ a + Z.of_nat (length bs) ≤ c →
  memcpy_from (memcpy_to mem a bs) c n = memcpy_from mem c n.
Proof.
  intros Hd. apply memcpy_from_ext. intros i Hi.
  apply mem_byte_memcpy_to_outside. lia.
Qed.

(** X1. A store changes no byte outside the four (or eight) bytes it
    writes, and a word or double word loaded from a range that does not
    overlap these bytes is the same before and after the store. *)
Theorem store_changes_only_its_bytes (mem mem' : gmap Z Z) (a v : Z) (n : nat) :
  0 ≤ a < 2 ^ 32 →
  (n = 4%nat ∧ set_word mem a v = Ok mem')
  ∨ (n = 8%nat ∧ set_double_word mem a v = Ok mem') →
  (∀ b, b < a ∨ a + Z.of_nat n ≤ b → mem_byte mem' b = mem_byte mem b)
  ∧ (∀ c, 0 ≤ c < 2 ^ 32 → c + 4 ≤ a ∨ a + Z.of_nat n ≤ c →
          get_word mem' c = get_word mem c)
  ∧ (∀ c, 0 ≤ c < 2 ^ 32 → c + 8 ≤ a ∨ a + Z.of_nat n ≤ c →
          get_double_word mem' c = get_double_word mem c).
Proof.
  intros Ha Hstore.
  assert (Hmem : ∃ bs, length bs = n ∧ mem' = memcpy_to mem a bs).
  { destruct Hstore as [[-> H]|[-> H]].
    - unfold set_word in H. rewrite (wrap32_small a) in H by lia.
      destruct (_ <? a); [discriminate|].
      exists (object_bytes 4 (wrap32 v)).
      split; [apply length_object_bytes|congruence].
    - unfold set_double_word in H. rewrite (wrap32_small a) in H by lia.
      destruct (_ <? a); [discriminate|].
      exists (object_bytes 8 (wrap64 v)).
      split; [apply length_object_bytes|congruence]. }
  destruct Hmem as (bs & Hlen & ->). clear Hstore.
  split; [|split].
  - intros b Hb. apply mem_byte_memcpy_to_outside. lia.
  - intros c Hc Hd. unfold get_word.
    rewrite (load_bytes_after_store mem a bs (wrap32 c) 4); [reflexivity|].
    rewrite (wrap32_small c) by lia. lia.
  - intros c Hc Hd. unfold get_double_word.
    rewrite (load_bytes_after_store mem a bs (wrap32 c) 8); [reflexivity|].
    rewrite (wrap32_small c) by lia. lia.
Qed.

Lemma store_changes_only_its_bytes_witness :
  (∀ b, b < 16 ∨ 16 + Z.of_nat 4 ≤ b →
        mem_byte (memcpy_to ∅ 16 (object_bytes 4 (wrap32 0xCAFE))) b
        = mem_byte ∅ b)
  ∧ (∀ c, 0 ≤ c < 2 ^ 32 → c + 4 ≤ 16 ∨ 16 + Z.of_nat 4 ≤ c →
          get_word (memcpy_to ∅ 16 (object_bytes 4 (wrap32 0xCAFE))) c
          = get_word ∅ c)
  ∧ (∀ c, 0 ≤ c < 2 ^ 32 → c + 8 ≤ 16 ∨ 16 + Z.of_nat 4 ≤ c →
          get_double_word (memcpy_to ∅ 16 (object_bytes 4 (wrap32 0xCAFE))) c
          = get_double_word ∅ c).
Proof.
  apply (store_changes_only_its_bytes ∅ _ 16 0xCAFE 4); [lia|].
  left. split; reflexivity.
Defined.

(** X2. A double word is made of the word at the same address, which
    gives its low half, and the word four bytes above, which gives its
    high half. *)
Theorem double_word_is_two_words (mem : gmap Z Z) (a : Z) :
  0 ≤ a → a + 8 ≤ NUM_OF_MEMORY_ADDRESS →
  ∃ low high,
    get_word mem a = Ok low ∧ get_word mem (a + 4) = Ok high
    ∧ get_double_word mem a = Ok (Z.lor low (Z.shiftl high 32)).
Proof.
  change NUM_OF_MEMORY_ADDRESS with (2 ^ 21). intros Ha Hb.
  unfold get_word, get_double_word.
  rewrite (wrap32_small a), (wrap32_small (a + 4)) by lia.
  change NUM_OF_MEMORY_ADDRESS with (2 ^ 21).
  unfold sizeof_word, sizeof_double_word.
  destruct (Z.ltb_spec (2 ^ 21 - 4) a); [lia|].
  destruct (Z.ltb_spec (2 ^ 21 - 4) (a + 4)); [lia|].
  destruct (Z.ltb_spec (2 ^ 21 - 8) a); [lia|].
  eexists _, _. split; [reflexivity|]. split; [reflexivity|].
  f_equal. change 8%nat with (4 + 4)%nat.
  rewrite memcpy_from_app, object_value_app.
  do 2 f_equal.
Qed.

Lemma double_word_is_two_words_witness :
  ∃ low high,
    get_word {[ 3 := 0x12; 7 := 0x34 ]} 3 = Ok low
    ∧ get_word {[ 3 := 0x12; 7 := 0x34 ]} (3 + 4) = Ok high
    ∧ get_double_word {[ 3 := 0x12; 7 := 0x34 ]} 3
      = Ok (Z.lor low (Z.shiftl high 32)).
Proof.
  apply (double_word_is_two_words {[ 3 := 0x12; 7 := 0x34 ]} 3); [lia|].
  change NUM_OF_MEMORY_ADDRESS with 2097152. lia.
Defined.

End MemoryFrame.

(** ** Loading the binary image *)

Section ImageFacts.
Import Memory Cpu.

Lemma length_memcpy_from mem a n : length (memcpy_from mem a n) = n.
Proof. revert a. induction n; intros; cbn; congruence. Qed.

Lemma memcpy_from_memcpy_to_slice mem a bs k n :
  (k + n ≤ length bs)%nat →
  memcpy_from (memcpy_to mem a bs) (a + Z.of_nat k) n = take n (drop k bs).
Proof.
  intros Hkn. apply list_eq. intros j.
  destruct (decide (j < n)%nat) as [Hj|Hj].
  - rewrite lookup_memcpy_from, lookup_take_lt, lookup_drop by lia.
    destruct (bs !! (k + j)%nat) as [x|] eqn:Hx.
    + f_equal. rewrite <- (mem_byte_memcpy_to_inside mem a bs _ x Hx).
      f_equal. lia.
    + apply lookup_ge_None in Hx. lia.
  - rewrite !(proj2 (lookup_ge_None _ _)); [reflexivity|..].
    + rewrite length_take, length_drop. lia.
    + rewrite length_memcpy_from. lia.
Qed.

Lemma length_write_to_binary_file (ins : list Z) :
  length (Assemble.write_to_binary_file ins) = (4 * length ins)%nat.
Proof.
  unfold Assemble.write_to_binary_file.
  induction ins as [|w ins IH]; [reflexivity|].
  change (mjoin (Memory.object_bytes 4 <$> w :: ins))
    with (Memory.object_bytes 4 w ++ mjoin (Memory.object_bytes 4 <$> ins)).
  rewrite length_app, IH, length_object_bytes. cbn [length]. lia.
Qed.

Lemma int_file_size (n : nat) :
  Z.of_nat n < 2 ^ 31 → to_int32 (wrap32 (Z.of_nat n)) = Z.of_nat n.
Proof.
  intros Hn. rewrite wrap32_small by lia. unfold to_int32.
  destruct (Z.ltb_spec (Z.of_nat n) (2 ^ 31)); lia.
Qed.

(** X3. [load_instructions_to_memory] works on the size of the file as
    the [int] it stores it in, the low 32 bits of the length read as a
    signed number, which is the length itself for a file of less than
    [2^31] bytes.  It rejects the file when that size exceeds [2^21].
    Otherwise it copies the whole 4-byte groups counted from that size
    to the start of memory, byte [k] of the file to address [k], and
    leaves every other byte of memory as it was; bytes of an incomplete
    last group are not loaded. *)
Theorem load_copies_whole_words (mem : gmap Z Z) (file : list Z) :
  let file_size := to_int32 (wrap32 (Z.of_nat (length file))) in
  (Z.of_nat (length file) < 2 ^ 31 → file_size = Z.of_nat (length file))
  ∧ (NUM_OF_MEMORY_ADDRESS < file_size →
     load_instructions_to_memory mem file = Fatal InputTooLarge)
  ∧ (file_size ≤ NUM_OF_MEMORY_ADDRESS →
     ∃ mem',
       load_instructions_to_memory mem file = Ok mem'
       ∧ (∀ k x, file !! k = Some x → Z.of_nat k < 4 * Z.quot file_size 4 →
                 mem_byte mem' (Z.of_nat k) = x)
       ∧ (∀ b, b < 0 ∨ Z.max 0 (4 * Z.quot file_size 4) ≤ b →
               mem_byte mem' b = mem_byte mem b)).
Proof.
  intros file_size. split; [apply int_file_size|].
  unfold load_instructions_to_memory, INSTR_SIZE. fold file_size.
  split; intros Hsize.
  - destruct (Z.ltb_spec NUM_OF_MEMORY_ADDRESS file_size); [reflexivity|lia].
  - destruct (Z.ltb_spec NUM_OF_MEMORY_ADDRESS file_size); [lia|].
    eexists. split; [reflexivity|]. split.
    + intros k x Hk Hlt.
      rewrite <- (Z.add_0_l (Z.of_nat k)).
      apply mem_byte_memcpy_to_inside.
      rewrite lookup_take_lt by lia. exact Hk.
    + intros b Hb. apply mem_byte_memcpy_to_outside.
      rewrite length_take. lia.
Qed.

Lemma load_copies_whole_words_witness :
  let file_size := to_int32 (wrap32 (Z.of_nat (length [1; 2; 3; 4; 5; 6]))) in
  ∃ mem',
    load_instructions_to_memory ∅ [1; 2; 3; 4; 5; 6] = Ok mem'
    ∧ (∀ k x, [1; 2; 3; 4; 5; 6] !! k = Some x →
              Z.of_nat k < 4 * Z.quot file_size 4 →
              mem_byte mem' (Z.of_nat k) = x)
    ∧ (∀ b, b < 0 ∨ Z.max 0 (4 * Z.quot file_size 4) ≤ b →
            mem_byte mem' b = mem_byte ∅ b).
Proof.
  apply (load_copies_whole_words ∅ [1; 2; 3; 4; 5; 6]).
  vm_compute. discriminate.
Defined.

(** X4. The output of the assembler is the image the emulator runs: when
    the words written by [write_to_binray_file] fit the memory, [init_cpu]
    on that file succeeds, starts at address 0 with all registers zero,
    and the word read at address [4 i] is the [i]-th emitted word. *)
Theorem assembled_words_are_fetched (ins : list Z) :
  Forall (λ w, 0 ≤ w < 2 ^ 32) ins →
  4 * Z.of_nat (length ins) ≤ NUM_OF_MEMORY_ADDRESS →
  ∃ s, init_cpu (Assemble.write_to_binary_file ins) = Ok s
       ∧ program_counter s = 0
       ∧ gen_registers s = replicate 31 0
       ∧ ∀ i w, ins !! i = Some w →
           get_word (mem s) (4 * Z.of_nat i) = Ok w.
Proof.
  intros Hins Hfit. unfold init_cpu.
  set (file := Assemble.write_to_binary_file ins).
  assert (Hlen : length file = (4 * length ins)%nat)
    by apply length_write_to_binary_file.
  cbn [Register.init_register with_gen_registers with_program_counter mem
       gen_registers program_counter stack_pointer pstate].
  unfold load_instructions_to_memory, INSTR_SIZE. rewrite Hlen.
  rewrite int_file_size
    by (change NUM_OF_MEMORY_ADDRESS with (2 ^ 21) in Hfit; lia).
  rewrite Z.quot_div_nonneg by lia.
  destruct (Z.ltb_spec NUM_OF_MEMORY_ADDRESS (Z.of_nat (4 * length ins)));
    [lia|].
  cbn [result_bind]. eexists. split; [reflexivity|].
  split; [reflexivity|]. split; [reflexivity|].
  intros i w Hi. cbn [mem with_mem].
  assert (Hi' : (i < length ins)%nat) by (apply lookup_lt_Some with w; exact Hi).
  assert (Hdiv : Z.of_nat (4 * length ins) / 4 = Z.of_nat (length ins)).
  { rewrite Nat2Z.inj_mul. change (Z.of_nat 4) with 4.
    rewrite Z.mul_comm. apply Z.div_mul. lia. }
  rewrite Hdiv, take_ge by lia.
  unfold get_word. change NUM_OF_MEMORY_ADDRESS with (2 ^ 21) in *.
  rewrite wrap32_small by lia. unfold sizeof_word.
  destruct (Z.ltb_spec (2 ^ 21 - 4) (4 * Z.of_nat i)); [lia|].
  f_equal.
  replace (4 * Z.of_nat i) with (0 + Z.of_nat (4 * i)) by lia.
  rewrite memcpy_from_memcpy_to_slice by lia.
  unfold file. rewrite (write_to_binary_file_word ins i w Hi).
  rewrite object_value_bytes. change (8 * Z.of_nat 4) with 32.
  apply Z.mod_small. rewrite Forall_lookup in Hins. exact (Hins i w Hi).
Qed.

Lemma assembled_words_are_fetched_witness :
  ∃ s, init_cpu (Assemble.write_to_binary_file [0xD28000A0; 0x8A000000]) = Ok s
       ∧ program_counter s = 0
       ∧ gen_registers s = replicate 31 0
       ∧ ∀ i w, [0xD28000A0; 0x8A000000] !! i = Some w →
           get_word (mem s) (4 * Z.of_nat i) = Ok w.
Proof.
  apply (assembled_words_are_fetched [0xD28000A0; 0x8A000000]).
  - repeat constructor; lia.
  - change NUM_OF_MEMORY_ADDRESS with 2097152. cbn. lia.
Defined.

End ImageFacts.

(** ** Register file *)

Section RegisterFacts.
Import Register.

Lemma wrap32_wrap64 v : wrap32 (wrap64 v) = wrap32 v.
Proof.
  unfold wrap32, wrap64. apply Z.mod_mod_divide.
  exists (2 ^ 32). reflexivity.
Qed.

(** X5. A value written to one of the registers 0..30 is read back, in
    full by the 64-bit read and as its low 32 bits by the 32-bit read;
    the write changes no other register, nor the program counter, the
    flags or the memory. *)
Theorem register_write_then_read (s : machine) (r v : Z) :
  length (gen_registers s) = 31%nat → 0 ≤ r < 31 →
  ∃ s', set_reg_value r v s = Ok (tt, s')
        ∧ get_reg_value_64 r s' = Ok (v mod 2 ^ 64, s')
        ∧ get_reg_value_32 r s' = Ok (v mod 2 ^ 32, s')
        ∧ (∀ r' x, 0 ≤ r' < 2 ^ 32 → r' ≠ r →
                   get_reg_value_64 r' s = Ok (x, s) →
                   get_reg_value_64 r' s' = Ok (x, s'))
        ∧ length (gen_registers s') = 31%nat
        ∧ program_counter s' = program_counter s
        ∧ pstate s' = pstate s ∧ mem s' = mem s.
Proof.
  intros Hlen Hr.
  unfold set_reg_value, get_reg_value_64, get_reg_value_32, NUM_REGISTERS.
  rewrite (wrap32_small r) by lia.
  destruct (Z.eqb_spec r 31); [lia|].
  destruct (Z.ltb_spec 31 r); [lia|].
  eexists. split; [reflexivity|].
  unfold bind, get_state, ret. cbn [gen_registers with_gen_registers].
  assert (Hin : (Z.to_nat r < length (gen_registers s))%nat) by lia.
  rewrite list_lookup_insert_eq by exact Hin. cbn [default].
  split; [reflexivity|]. split.
  { change (id (wrap64 v)) with (wrap64 v).
    rewrite wrap32_wrap64. reflexivity. }
  split.
  { intros r' x Hr' Hne. rewrite (wrap32_small r') by lia.
    destruct (r' =? 31); [intros [= <-]; reflexivity|].
    destruct (31 <? r'); [discriminate|].
    cbn [gen_registers with_gen_registers].
    rewrite list_lookup_insert_ne by lia.
    intros [= <-]. reflexivity. }
  split; [rewrite length_insert; exact Hlen|].
  repeat split; reflexivity.
Qed.

Lemma register_write_then_read_witness :
  ∃ s', set_reg_value 7 (2 ^ 64 + 5) (Scenario.machine_with 1 2) = Ok (tt, s')
        ∧ get_reg_value_64 7 s' = Ok ((2 ^ 64 + 5) mod 2 ^ 64, s')
        ∧ get_reg_value_32 7 s' = Ok ((2 ^ 64 + 5) mod 2 ^ 32, s')
        ∧ (∀ r' x, 0 ≤ r' < 2 ^ 32 → r' ≠ 7 →
                   get_reg_value_64 r' (Scenario.machine_with 1 2)
                   = Ok (x, Scenario.machine_with 1 2) →
                   get_reg_value_64 r' s' = Ok (x, s'))
        ∧ length (gen_registers s') = 31%nat
        ∧ program_counter s' = program_counter (Scenario.machine_with 1 2)
        ∧ pstate s' = pstate (Scenario.machine_with 1 2)
        ∧ mem s' = mem (Scenario.machine_with 1 2).
Proof.
  apply (register_write_then_read (Scenario.machine_with 1 2) 7 (2 ^ 64 + 5));
    [reflexivity|lia].
Defined.

(** X6. Register number 31 is the zero register: a write to it leaves
    the machine as it is and both reads return 0.  A register number
    above 31 ends the process in the write and in both reads. *)
Theorem zero_register_and_invalid_registers (s : machine) (v : Z) :
  set_reg_value 31 v s = Ok (tt, s)
  ∧ get_reg_value_64 31 s = Ok (0, s)
  ∧ get_reg_value_32 31 s = Ok (0, s)
  ∧ ∀ r, 31 < r < 2 ^ 32 →
      set_reg_value r v s = Fatal (RegisterDoesNotExist r)
      ∧ get_reg_value_64 r s = Fatal (RegisterDoesNotExist r)
      ∧ get_reg_value_32 r s = Fatal (RegisterDoesNotExist r).
Proof.
  repeat split; try reflexivity;
    unfold set_reg_value, get_reg_value_64, get_reg_value_32, NUM_REGISTERS;
    rewrite (wrap32_small r) by lia;
    destruct (Z.eqb_spec r 31); try lia;
    destruct (Z.ltb_spec 31 r); try lia; reflexivity.
Qed.

Lemma zero_register_and_invalid_registers_witness :
  set_reg_value 32 9 (Scenario.machine_with 1 2) = Fatal (RegisterDoesNotExist 32)
  ∧ get_reg_value_64 32 (Scenario.machine_with 1 2)
    = Fatal (RegisterDoesNotExist 32)
  ∧ get_reg_value_32 32 (Scenario.machine_with 1 2)
    = Fatal (RegisterDoesNotExist 32).
Proof.
  apply (zero_register_and_invalid_registers (Scenario.machine_with 1 2) 9).
  lia.
Defined.

End RegisterFacts.

(** ** Sign extension *)

Section SignExtendFacts.
Import Cpu.

Lemma high_ones_mask n :
  0 ≤ n ≤ 64 →
  Z.lxor 0xFFFFFFFFFFFFFFFF (wrap64 (Z.shiftl 1 n - 1)) = 2 ^ 64 - 2 ^ n.
Proof.
  intros Hn. change 0xFFFFFFFFFFFFFFFF with (Z.ones 64).
  rewrite Z.shiftl_1_l. change (2 ^ n - 1) with (Z.pred (2 ^ n)).
  rewrite <- Z.ones_equiv.
  assert (Hpow : 0 < 2 ^ n ≤ 2 ^ 64).
  { split; [apply Z.pow_pos_nonneg; lia|apply Z.pow_le_mono_r; lia]. }
  rewrite wrap64_small by (rewrite Z.ones_equiv; lia).
  replace (2 ^ 64 - 2 ^ n) with (Z.shiftl (Z.ones (64 - n)) n).
  - apply Z.bits_inj'. intros i Hi.
    rewrite Z.lxor_spec, !Z.testbit_ones_nonneg by lia.
    destruct (Z.ltb_spec i n).
    + rewrite Z.shiftl_spec_low by lia.
      destruct (Z.ltb_spec i 64); [reflexivity|lia].
    + rewrite Z.shiftl_spec, Z.testbit_ones_nonneg by lia.
      destruct (Z.ltb_spec i 64), (Z.ltb_spec (i - n) (64 - n));
        reflexivity || lia.
  - rewrite Z.shiftl_mul_pow2, Z.ones_equiv by lia.
    replace (2 ^ 64) with (2 ^ (64 - n) * 2 ^ n)
      by (rewrite <- Z.pow_add_r by lia; f_equal; lia).
    lia.
Qed.

Lemma sign_extend_value (bits bit_length : Z) :
  1 ≤ bit_length ≤ 30 → 0 ≤ bits < 2 ^ bit_length →
  sign_extend bits bit_length
  = if bits <? 2 ^ (bit_length - 1) then bits else bits - 2 ^ bit_length.
Proof.
  intros Hn Hb. unfold sign_extend.
  assert (Hp : 0 < 2 ^ (bit_length - 1)) by (apply Z.pow_pos_nonneg; lia).
  assert (Hp2 : 2 ^ bit_length = 2 * 2 ^ (bit_length - 1)).
  { rewrite <- Z.pow_succ_r by lia. f_equal. lia. }
  assert (Hp3 : 2 ^ bit_length ≤ 2 ^ 30) by (apply Z.pow_le_mono_r; lia).
  rewrite (wrap64_small bits) by lia.
  rewrite Z.shiftr_div_pow2 by lia.
  destruct (Z.ltb_spec bits (2 ^ (bit_length - 1))) as [Hlow|Hhigh].
  - rewrite Z.div_small by lia. cbn [Z.eqb].
    unfold to_int64. destruct (Z.ltb_spec bits (2 ^ 63)); [reflexivity|lia].
  - replace (bits / 2 ^ (bit_length - 1)) with 1.
    2:{ apply Z.div_unique with (bits - 2 ^ (bit_length - 1)); lia. }
    change (1 =? 1) with true. cbv iota. rewrite high_ones_mask by lia.
    assert (Hdisj : Z.land (2 ^ 64 - 2 ^ bit_length) bits = 0).
    { rewrite <- (high_ones_mask bit_length) by lia.
      change 0xFFFFFFFFFFFFFFFF with (Z.ones 64).
      apply Z.bits_inj'. intros i Hi.
      rewrite Z.land_spec, Z.lxor_spec, Z.bits_0.
      destruct (Z.ltb_spec i bit_length).
      - rewrite Z.shiftl_1_l. change (2 ^ bit_length - 1) with (Z.pred (2 ^ bit_length)).
        rewrite <- Z.ones_equiv.
        rewrite wrap64_small
          by (rewrite Z.ones_equiv; lia).
        rewrite !Z.testbit_ones_nonneg by lia.
        destruct (Z.ltb_spec i 64), (Z.ltb_spec i bit_length);
          reflexivity || lia.
      - replace (Z.testbit bits i) with false; [apply andb_false_r|].
        symmetry. apply (Z.bounded_iff_bits_nonneg bit_length bits); lia. }
    pose proof (Z.add_lor_land (2 ^ 64 - 2 ^ bit_length) bits) as Hadd.
    rewrite Hdisj, Z.add_0_r in Hadd. rewrite Hadd.
    unfold to_int64.
    destruct (Z.ltb_spec (2 ^ 64 - 2 ^ bit_length + bits) (2 ^ 63)); lia.
Qed.

(** A signed value that fits the field is recovered from its
    truncation to the field. *)
Lemma sign_extend_truncated (v n : Z) :
  1 ≤ n ≤ 30 → - 2 ^ (n - 1) ≤ v < 2 ^ (n - 1) →
  sign_extend (v mod 2 ^ n) n = v.
Proof.
  intros Hn Hv.
  assert (Hp : 0 < 2 ^ (n - 1)) by (apply Z.pow_pos_nonneg; lia).
  assert (Hp2 : 2 ^ n = 2 * 2 ^ (n - 1)).
  { rewrite <- Z.pow_succ_r by lia. f_equal. lia. }
  rewrite sign_extend_value by (try apply Z.mod_pos_bound; lia).
  destruct (Z.le_gt_cases 0 v).
  - rewrite Z.mod_small by lia.
    destruct (Z.ltb_spec v (2 ^ (n - 1))); lia.
  - replace (v mod 2 ^ n) with (v + 2 ^ n).
    + destruct (Z.ltb_spec (v + 2 ^ n) (2 ^ (n - 1))); lia.
    + symmetry. replace v with (v + 2 ^ n + (-1) * 2 ^ n) at 1 by lia.
      rewrite Z.mod_add by lia. apply Z.mod_small. lia.
Qed.

(** X7. [sign_extend] returns the value of its argument read as a two's
    complement number of [bit_length] bits: the argument itself when bit
    [bit_length - 1] is clear, the argument minus [2^bit_length] when it
    is set.  A signed value that fits in [bit_length] bits is therefore
    recovered from its truncation to the field. *)
Theorem sign_extend_twos_complement (bits bit_length : Z) :
  1 ≤ bit_length ≤ 30 →
  (0 ≤ bits < 2 ^ bit_length →
   sign_extend bits bit_length
   = if bits <? 2 ^ (bit_length - 1) then bits else bits - 2 ^ bit_length)
  ∧ (- 2 ^ (bit_length - 1) ≤ bits < 2 ^ (bit_length - 1) →
     sign_extend (bits mod 2 ^ bit_length) bit_length = bits).
Proof.
  intros Hn. split; intros Hb.
  - apply sign_extend_value; assumption.
  - apply sign_extend_truncated; assumption.
Qed.

Lemma sign_extend_twos_complement_witness :
  sign_extend 0xF8 9 = (if 0xF8 <? 2 ^ (9 - 1) then 0xF8 else 0xF8 - 2 ^ 9)
  ∧ sign_extend (0xF8 mod 2 ^ 9) 9 = 0xF8.
Proof.
  destruct (sign_extend_twos_complement 0xF8 9) as [H1 H2]; [lia|].
  split; [apply H1; lia|apply H2; lia].
Defined.

End SignExtendFacts.

(** ** Arithmetic on the 32-bit view and comparison before a branch *)

Section Arithmetic32Facts.
Import Register Cpu.

Lemma wrap32_to_int32_add a b : wrap32 (to_int32 a + to_int32 b) = wrap32 (a + b).
Proof.
  unfold wrap32, to_int32.
  destruct (a <? 2 ^ 31), (b <? 2 ^ 31);
    rewrite ?Z.add_sub_assoc; try reflexivity.
  - replace (a + b - 2 ^ 32) with (a + b + (-1) * 2 ^ 32) by lia.
    apply Z.mod_add. lia.
  - replace (a - 2 ^ 32 + b) with (a + b + (-1) * 2 ^ 32) by lia.
    apply Z.mod_add. lia.
  - replace (a - 2 ^ 32 + b - 2 ^ 32) with (a + b + (-2) * 2 ^ 32) by lia.
    apply Z.mod_add. lia.
Qed.

Lemma wrap32_to_int32_sub a b : wrap32 (to_int32 a - to_int32 b) = wrap32 (a - b).
Proof.
  unfold wrap32, to_int32.
  destruct (a <? 2 ^ 31), (b <? 2 ^ 31); try reflexivity.
  - replace (a - (b - 2 ^ 32)) with (a - b + 1 * 2 ^ 32) by lia.
    apply Z.mod_add. lia.
  - replace (a - 2 ^ 32 - b) with (a - b + (-1) * 2 ^ 32) by lia.
    apply Z.mod_add. lia.
  - f_equal. lia.
Qed.

Lemma set_reg_value_lt r v s :
  0 ≤ r < 31 →
  set_reg_value r v s
  = Ok (tt, with_gen_registers (<[Z.to_nat r := wrap64 v]> (gen_registers s)) s).
Proof.
  intros Hr. unfold set_reg_value, NUM_REGISTERS.
  rewrite (wrap32_small r) by lia.
  destruct (Z.eqb_spec r 31); [lia|].
  destruct (Z.ltb_spec 31 r); [lia|]. reflexivity.
Qed.

Lemma mod_add_cases a b n :
  0 < n → 0 ≤ a < n → 0 ≤ b < n →
  (a + b) mod n = a + b ∧ a + b < n
  ∨ (a + b) mod n = a + b - n ∧ n ≤ a + b.
Proof.
  intros Hn Ha Hb.
  destruct (Z.lt_ge_cases (a + b) n); [left|right]; split; try lia.
  - apply Z.mod_small. lia.
  - replace (a + b) with (a + b - n + 1 * n) at 1 by lia.
    rewrite Z.mod_add by lia. apply Z.mod_small. lia.
Qed.

(** X8. On 32-bit operands a flag-setting add or subtract writes the
    result modulo [2^32], zero-extended, to the destination register;
    the add sets C exactly when [a + b] overflows 32 unsigned bits, the
    subtract exactly when [a >= b]; N is bit 31 of the result and Z
    tells whether it is zero. *)
Theorem adds_subs_32_result_and_flags (a b dest : Z) (s : machine) :
  0 ≤ a < 2 ^ 32 → 0 ≤ b < 2 ^ 32 → 0 ≤ dest < 31 →
  length (gen_registers s) = 31%nat →
  (∃ s', apply_arithmetic_32 a b dest 1 0 s = Ok (tt, s')
         ∧ gen_registers s' !! Z.to_nat dest = Some ((a + b) mod 2 ^ 32)
         ∧ (carry_flag (pstate s') = true ↔ 2 ^ 32 ≤ a + b)
         ∧ negative_flag (pstate s') = Z.testbit ((a + b) mod 2 ^ 32) 31
         ∧ zero_flag (pstate s') = ((a + b) mod 2 ^ 32 =? 0))
  ∧ (∃ s', apply_arithmetic_32 a b dest 1 1 s = Ok (tt, s')
           ∧ gen_registers s' !! Z.to_nat dest = Some ((a - b) mod 2 ^ 32)
           ∧ (carry_flag (pstate s') = true ↔ b ≤ a)
           ∧ negative_flag (pstate s') = Z.testbit ((a - b) mod 2 ^ 32) 31
           ∧ zero_flag (pstate s') = ((a - b) mod 2 ^ 32 =? 0)).
Proof.
  intros Ha Hb Hd Hlen. unfold apply_arithmetic_32.
  rewrite (wrap32_small a), (wrap32_small b) by lia.
  rewrite (wrap32_small dest) by lia.
  cbn [Z.eqb negb]. rewrite wrap32_to_int32_add, wrap32_to_int32_sub.
  unfold bind, set_flags, modify, MSB_32_BIT, NUM_REGISTERS.
  rewrite !msb_test by lia.
  destruct (Z.eqb_spec dest 31); [lia|].
  rewrite !set_reg_value_lt by lia.
  assert (Hin : (Z.to_nat dest < length (gen_registers s))%nat) by lia.
  split; (eexists; split; [reflexivity|]);
    cbn [gen_registers pstate with_gen_registers with_pstate
         carry_flag negative_flag zero_flag];
    (split; [rewrite list_lookup_insert_eq by exact Hin;
             rewrite wrap64_small;
             [reflexivity
             |pose proof (wrap32_range (a + b));
              pose proof (wrap32_range (a - b)); unfold wrap32 in *; lia]|]);
    (split; [|split; reflexivity]).
  - unfold wrap32.
    destruct (mod_add_cases a b (2 ^ 32)) as [[-> ?]|[-> ?]]; try lia;
      rewrite orb_true_iff, !Z.ltb_lt; lia.
  - rewrite Z.leb_le. lia.
Qed.

Lemma adds_subs_32_result_and_flags_witness :
  ∃ s', apply_arithmetic_32 (2 ^ 32 - 1) 1 2 1 0 (Scenario.machine_with 0 0)
        = Ok (tt, s')
        ∧ gen_registers s' !! Z.to_nat 2 = Some ((2 ^ 32 - 1 + 1) mod 2 ^ 32)
        ∧ (carry_flag (pstate s') = true ↔ 2 ^ 32 ≤ 2 ^ 32 - 1 + 1)
        ∧ negative_flag (pstate s') = Z.testbit ((2 ^ 32 - 1 + 1) mod 2 ^ 32) 31
        ∧ zero_flag (pstate s') = ((2 ^ 32 - 1 + 1) mod 2 ^ 32 =? 0).
Proof.
  apply (adds_subs_32_result_and_flags (2 ^ 32 - 1) 1 2
           (Scenario.machine_with 0 0)); [lia|lia|lia|reflexivity].
Defined.

(** X9. A 64-bit compare (a flag-setting subtract whose destination is
    the zero register) changes no register, and the conditions read
    from its flags are: EQ exactly when the operands are equal, NE
    exactly when they differ, GE when bit 63 of the difference is clear
    and LT when it is set, whatever the signed order of the operands. *)
Theorem compare_then_branch_condition (a b : Z) (s : machine) :
  0 ≤ a < 2 ^ 64 → 0 ≤ b < 2 ^ 64 →
  ∃ s', apply_arithmetic_64 a b 31 1 1 s = Ok (tt, s')
        ∧ gen_registers s' = gen_registers s
        ∧ (branch_condition ITP_EQ (pstate s') = true ↔ a = b)
        ∧ (branch_condition ITP_NE (pstate s') = true ↔ a ≠ b)
        ∧ branch_condition ITP_GE (pstate s')
          = negb (Z.testbit ((a - b) mod 2 ^ 64) 63)
        ∧ branch_condition ITP_LT (pstate s')
          = Z.testbit ((a - b) mod 2 ^ 64) 63.
Proof.
  intros Ha Hb. unfold apply_arithmetic_64.
  rewrite (wrap64_small a), (wrap64_small b) by lia.
  cbn [Z.eqb negb]. rewrite wrap64_to_int64_sub.
  unfold bind, set_flags, modify, MSB_64_BIT.
  rewrite !msb_test by lia.
  rewrite overflow_test_false by apply wrap64_range.
  change (wrap32 31 =? NUM_REGISTERS) with true. cbv iota.
  eexists. split; [reflexivity|]. split; [reflexivity|].
  unfold branch_condition.
  cbn [pstate with_pstate zero_flag negative_flag overflow_flag
       ITP_EQ ITP_NE ITP_GE ITP_LT Z.eqb Pos.eqb].
  assert (Hz : wrap64 (a - b) = 0 ↔ a = b).
  { unfold wrap64. split; [|intros ->; rewrite Z.sub_diag; reflexivity].
    intros Hm. destruct (Z.le_gt_cases b a).
    - rewrite Z.mod_small in Hm by lia. lia.
    - replace (a - b) with (a - b + 2 ^ 64 + (-1) * 2 ^ 64) in Hm by lia.
      rewrite Z.mod_add, Z.mod_small in Hm by lia. lia. }
  split; [|split; [|split]].
  - rewrite Z.eqb_eq. exact Hz.
  - rewrite negb_true_iff, Z.eqb_neq, Hz. reflexivity.
  - unfold wrap64. destruct (Z.testbit _ 63); reflexivity.
  - unfold wrap64. destruct (Z.testbit _ 63); reflexivity.
Qed.

Lemma compare_then_branch_condition_witness :
  ∃ s', apply_arithmetic_64 (2 ^ 63) 1 31 1 1 (Scenario.machine_with 0 0)
        = Ok (tt, s')
        ∧ gen_registers s' = gen_registers (Scenario.machine_with 0 0)
        ∧ (branch_condition ITP_EQ (pstate s') = true ↔ 2 ^ 63 = 1)
        ∧ (branch_condition ITP_NE (pstate s') = true ↔ 2 ^ 63 ≠ 1)
        ∧ branch_condition ITP_GE (pstate s')
          = negb (Z.testbit ((2 ^ 63 - 1) mod 2 ^ 64) 63)
        ∧ branch_condition ITP_LT (pstate s')
          = Z.testbit ((2 ^ 63 - 1) mod 2 ^ 64) 63.
Proof.
  apply (compare_then_branch_condition (2 ^ 63) 1 (Scenario.machine_with 0 0));
    lia.
Defined.

End Arithmetic32Facts.

(** ** What an instruction leaves alone *)

Section FrameFacts.
Import Register Cpu.

Section Keeps.
Context {X : Type} (f : machine → X).

Lemma keeps_ret {A} (a : A) : keeps f (ret a).
Proof. intros s a' s' [= _ <-]. reflexivity. Qed.

Lemma keeps_exit_failure {A} e : keeps f (exit_failure (A := A) e).
Proof. intros s a s' H. discriminate H. Qed.

Lemma keeps_get_state : keeps f get_state.
Proof. intros s a s' [= _ <-]. reflexivity. Qed.

Lemma keeps_bind {A B} (m : M A) (k : A → M B) :
  keeps f m → (∀ a, keeps f (k a)) → keeps f (bind m k).
Proof.
  intros Hm Hk s b s'. unfold bind.
  destruct (m s) as [[a s1]|e] eqn:E; [|discriminate].
  intros H. rewrite (Hk a _ _ _ H). exact (Hm _ _ _ E).
Qed.

Lemma keeps_read_mem {A} (g : gmap Z Z → result A) : keeps f (read_mem g).
Proof.
  intros s a s'. unfold read_mem.
  destruct (g (mem s)); [intros [= _ <-]; reflexivity|discriminate].
Qed.

Lemma keeps_modify g : (∀ s, f (g s) = f s) → keeps f (modify g).
Proof. intros Hg s [] s' [= <-]. apply Hg. Qed.

Lemma keeps_write_mem g :
  (∀ m s, f (with_mem m s) = f s) → keeps f (write_mem g).
Proof.
  intros Hg s [] s'. unfold write_mem.
  destruct (g (mem s)); [intros [= <-]; apply Hg|discriminate].
Qed.

End Keeps.

Ltac keeps_step :=
  lazymatch goal with
  | |- keeps _ (ret _) => apply keeps_ret
  | |- keeps _ (exit_failure _) => apply keeps_exit_failure
  | |- keeps _ get_state => apply keeps_get_state
  | |- keeps _ (read_mem _) => apply keeps_read_mem
  | |- keeps _ (bind _ _) => apply keeps_bind; [|intros ?]
  | |- keeps _ (if ?c then _ else _) => destruct c
  | |- keeps _ (modify _) => apply keeps_modify; intros; reflexivity
  | |- keeps _ (write_mem _) => apply keeps_write_mem; intros; reflexivity
  end.

Ltac unfold_exec :=
  unfold decode_and_execute_dp_reg, decode_and_execute_dt,
    exec_imm_arithmetic, exec_wide_move, exec_reg_arithmetic, exec_reg_logic,
    exec_reg_multiply, exec_reg_multiply_fields, accumulator_64, accumulator_32,
    exec_dt_load_literal, exec_dt_imm_offset, exec_dt_reg_offset,
    exec_dt_pre_index, exec_dt_post_index, exec_branch_uncond,
    exec_branch_cond, exec_branch_reg, unknown_instruction,
    load_double_word, load_word, store_double_word, store_word,
    apply_arithmetic_64, apply_arithmetic_32, set_flags,
    set_reg_value, get_reg_value_64, get_reg_value_32,
    get_program_counter, set_program_counter, increase_pc, increment_pc;
  cbv zeta.

Ltac keeps_auto := unfold_exec; repeat keeps_step.

Lemma keeps_pc_non_branch inst :
  keeps program_counter
    (if GeneralDpImm.op0 inst =? ITP_DP_IMM
     then if ImmArith.opi inst =? ITP_IMM_ARITH
          then exec_imm_arithmetic inst
          else if ImmWide.opi inst =? ITP_WIDE_MOVE
          then exec_wide_move inst
          else decode_and_execute_dp_reg inst
     else decode_and_execute_dp_reg inst).
Proof. keeps_auto. Qed.

Lemma keeps_branch {X} (f : machine → X) inst :
  (∀ pc s, f (with_program_counter pc s) = f s) →
  keeps f (if BranchUncond.id inst =? ITP_BRANCH_UNCOND
           then exec_branch_uncond inst
           else if BranchCond.id inst =? ITP_BRANCH_COND
           then exec_branch_cond inst
           else exec_branch_reg inst).
Proof.
  intros Hf. unfold_exec.
  repeat first [keeps_step | apply keeps_modify; intros; apply Hf].
Qed.

Lemma keeps_registers_length inst :
  keeps (λ s, length (gen_registers s)) (decode_and_execute inst).
Proof.
  unfold decode_and_execute. unfold_exec.
  repeat first
    [keeps_step
    |apply keeps_modify; intros;
     cbn [gen_registers with_gen_registers]; apply length_insert].
Qed.

Lemma keeps_stack_pointer inst :
  keeps stack_pointer (decode_and_execute inst).
Proof. unfold decode_and_execute. keeps_auto. Qed.

(** X10. An instruction that does not belong to the branch group
    leaves the program counter alone (the caller advances it); an
    instruction of the branch group changes nothing but the program
    counter.  No instruction changes the number of registers or the
    stack pointer. *)
Theorem instruction_frame (inst : Z) (s s' : machine) :
  decode_and_execute inst s = Ok (tt, s') →
  (GeneralBranch.op0 inst ≠ ITP_BRANCH →
   program_counter s' = program_counter s)
  ∧ (GeneralBranch.op0 inst = ITP_BRANCH →
     gen_registers s' = gen_registers s ∧ pstate s' = pstate s
     ∧ mem s' = mem s)
  ∧ length (gen_registers s') = length (gen_registers s)
  ∧ stack_pointer s' = stack_pointer s.
Proof.
  intros H. split; [|split; [|split]].
  - intros Hnb. revert H. unfold decode_and_execute.
    destruct (Z.eqb_spec (GeneralBranch.op0 inst) ITP_BRANCH); [contradiction|].
    apply keeps_pc_non_branch.
  - intros Hb. revert H. unfold decode_and_execute.
    rewrite Hb. change (ITP_BRANCH =? ITP_BRANCH) with true. cbv iota.
    intros H. split; [|split].
    + exact (keeps_branch gen_registers inst (λ _ _, eq_refl) _ _ _ H).
    + exact (keeps_branch pstate inst (λ _ _, eq_refl) _ _ _ H).
    + exact (keeps_branch mem inst (λ _ _, eq_refl) _ _ _ H).
  - exact (keeps_registers_length inst _ _ _ H).
  - exact (keeps_stack_pointer inst _ _ _ H).
Qed.

Lemma instruction_frame_witness :
  let s := Scenario.machine_with (2 ^ 63 - 1) 1 in
  let s' := with_pstate {| negative_flag := true; zero_flag := false;
                           carry_flag := false; overflow_flag := false |}
              (with_gen_registers (<[2%nat := 2 ^ 63]> (gen_registers s)) s) in
  (GeneralBranch.op0 Scenario.adds_x2_x0_x1 ≠ ITP_BRANCH →
   program_counter s' = program_counter s)
  ∧ (GeneralBranch.op0 Scenario.adds_x2_x0_x1 = ITP_BRANCH →
     gen_registers s' = gen_registers s ∧ pstate s' = pstate s
     ∧ mem s' = mem s)
  ∧ length (gen_registers s') = length (gen_registers s)
  ∧ stack_pointer s' = stack_pointer s.
Proof.
  apply (instruction_frame Scenario.adds_x2_x0_x1). vm_compute. reflexivity.
Defined.

Lemma flag_bit_clear inst :
  Z.testbit inst 29 = false →
  get (BitField 29 1) inst = 0 ∧ (get (BitField 29 2) inst =? 3) = false.
Proof.
  intros Hbit. unfold get. cbn [lo width]. split.
  - apply Z.bits_inj'. intros i Hi.
    rewrite testbit_field, Z.bits_0 by lia.
    destruct (Z.ltb_spec i 1); [|apply andb_false_r].
    replace (i + 29) with 29 by lia. rewrite Hbit. reflexivity.
  - apply Z.eqb_neq. intros Heq.
    assert (Hb : Z.testbit (field 29 2 inst) 0 = true) by (rewrite Heq; reflexivity).
    rewrite testbit_field in Hb by lia. change (0 + 29) with 29 in Hb.
    rewrite Hbit in Hb. discriminate Hb.
Qed.

Lemma keeps_pstate_flag_bit_clear inst :
  Z.testbit inst 29 = false → keeps pstate (decode_and_execute inst).
Proof.
  intros Hbit. destruct (flag_bit_clear inst Hbit) as [H1 H2].
  unfold decode_and_execute. unfold_exec.
  unfold ImmArith.opc_flag, RegArith.opc_flag, RegLogic.opc, ITP_AND_W_FLAGS.
  rewrite !H1, !H2. change (negb (0 =? 0)) with false. cbv iota.
  repeat keeps_step.
Qed.

Lemma keeps_mem_load_bit inst :
  DTImmOffset.L inst ≠ 0 → keeps mem (decode_and_execute inst).
Proof.
  intros HL. apply Z.eqb_neq in HL.
  unfold decode_and_execute. unfold_exec.
  unfold DTImmOffset.L, DTRegOffset.L, DTPrePostIndex.L in *.
  rewrite !HL. cbn [negb]. cbv iota.
  repeat keeps_step.
Qed.

Lemma keeps_mem_load_literal inst :
  DTLoadLiteral.id inst = ITP_DT_LOAD_LITERAL →
  keeps mem (decode_and_execute inst).
Proof.
  intros Hid. unfold decode_and_execute, decode_and_execute_dp_reg,
    decode_and_execute_dt.
  rewrite Hid. change (ITP_DT_LOAD_LITERAL =? ITP_DT_LOAD_LITERAL) with true.
  cbv iota. keeps_auto.
Qed.

Lemma keeps_mem_not_data_transfer inst :
  (GeneralDT.op0_1 inst =? ITP_DT_1) && (GeneralDT.op0_2 inst =? ITP_DT_2)
  = false →
  keeps mem (decode_and_execute inst).
Proof.
  intros Hdt. unfold decode_and_execute, decode_and_execute_dp_reg,
    decode_and_execute_dt.
  rewrite Hdt. keeps_auto.
Qed.

(** X11. An instruction whose bit 29 is clear (the flag bit of the
    arithmetic encodings, the low bit of [opc] in the logic encoding)
    leaves the four flags alone.  An instruction changes the memory
    only if it has the data-transfer pattern, is not a load literal and
    has its [L] bit clear. *)
Theorem flags_and_memory_writers (inst : Z) (s s' : machine) :
  decode_and_execute inst s = Ok (tt, s') →
  (Z.testbit inst 29 = false → pstate s' = pstate s)
  ∧ (mem s' ≠ mem s →
     GeneralDT.op0_1 inst = ITP_DT_1 ∧ GeneralDT.op0_2 inst = ITP_DT_2
     ∧ DTLoadLiteral.id inst ≠ ITP_DT_LOAD_LITERAL
     ∧ DTImmOffset.L inst = 0).
Proof.
  intros H. split.
  - intros Hbit. exact (keeps_pstate_flag_bit_clear inst Hbit _ _ _ H).
  - intros Hmem.
    destruct (Z.eqb_spec (GeneralDT.op0_1 inst) ITP_DT_1) as [H1|H1].
    2:{ destruct Hmem. refine (keeps_mem_not_data_transfer inst _ _ _ _ H).
        apply andb_false_iff. left. apply Z.eqb_neq. exact H1. }
    destruct (Z.eqb_spec (GeneralDT.op0_2 inst) ITP_DT_2) as [H2|H2].
    2:{ destruct Hmem. refine (keeps_mem_not_data_transfer inst _ _ _ _ H).
        apply andb_false_iff. right. apply Z.eqb_neq. exact H2. }
    destruct (Z.eq_dec (DTLoadLiteral.id inst) ITP_DT_LOAD_LITERAL) as [H3|H3].
    { destruct Hmem. exact (keeps_mem_load_literal inst H3 _ _ _ H). }
    destruct (Z.eq_dec (DTImmOffset.L inst) 0) as [H4|H4].
    2:{ destruct Hmem. exact (keeps_mem_load_bit inst H4 _ _ _ H). }
    repeat split; assumption.
Qed.

Lemma flags_and_memory_writers_witness :
  ∃ s', decode_and_execute Scenario.str_w0_x1_pre_0
          (Scenario.machine_with 0x11223344 0x100) = Ok (tt, s')
        ∧ (Z.testbit Scenario.str_w0_x1_pre_0 29 = false →
           pstate s' = pstate (Scenario.machine_with 0x11223344 0x100))
        ∧ (mem s' ≠ mem (Scenario.machine_with 0x11223344 0x100) →
           GeneralDT.op0_1 Scenario.str_w0_x1_pre_0 = ITP_DT_1
           ∧ GeneralDT.op0_2 Scenario.str_w0_x1_pre_0 = ITP_DT_2
           ∧ DTLoadLiteral.id Scenario.str_w0_x1_pre_0 ≠ ITP_DT_LOAD_LITERAL
           ∧ DTImmOffset.L Scenario.str_w0_x1_pre_0 = 0).
Proof.
  eexists. split; [vm_compute; reflexivity|].
  apply (flags_and_memory_writers Scenario.str_w0_x1_pre_0).
  vm_compute. reflexivity.
Defined.

Lemma memcpy_to_keys (P : Z → Prop) (m : gmap Z Z) a bs :
  (∀ i, 0 ≤ i < Z.of_nat (length bs) → P (a + i)) →
  map_Forall (λ k _, P k) (Memory.memcpy_to m a bs) ↔ map_Forall (λ k _, P k) m.
Proof.
  revert m a. induction bs as [|b bs IH]; intros m a Hin; cbn [Memory.memcpy_to].
  - reflexivity.
  - rewrite IH.
    2:{ intros i Hi. replace (a + 1 + i) with (a + (1 + i)) by lia.
        apply Hin. cbn [length]. lia. }
    assert (Ha : P a).
    { replace a with (a + 0) by lia. apply Hin. cbn [length]. lia. }
    unfold map_Forall. split; intros H k x Hk.
    + destruct (decide (k = a)) as [->|Hne]; [exact Ha|].
      apply (H k x). rewrite lookup_insert_ne by congruence. exact Hk.
    + destruct (decide (k = a)) as [->|Hne]; [exact Ha|].
      rewrite lookup_insert_ne in Hk by congruence. exact (H k x Hk).
Qed.

Lemma keeps_within_memory_set_word a v :
  keeps within_memory (write_mem (λ m, Memory.set_word m a v)).
Proof.
  intros s [] s'. unfold write_mem, Memory.set_word, Memory.sizeof_word.
  change Memory.NUM_OF_MEMORY_ADDRESS with 2097152.
  destruct (Z.ltb_spec (2097152 - 4) (wrap32 a)); [discriminate|].
  intros Heq.
  assert (Hs' : s' = with_mem (Memory.memcpy_to (mem s) (wrap32 a)
                                 (Memory.object_bytes 4 (wrap32 v))) s) by congruence.
  subst s'. unfold within_memory. cbn [mem with_mem].
  apply bool_decide_ext. apply memcpy_to_keys.
  intros i Hi. rewrite length_object_bytes in Hi.
  pose proof (wrap32_range a). change Memory.NUM_OF_MEMORY_ADDRESS with 2097152. lia.
Qed.

Lemma keeps_within_memory_set_double_word a v :
  keeps within_memory (write_mem (λ m, Memory.set_double_word m a v)).
Proof.
  intros s [] s'. unfold write_mem, Memory.set_double_word, Memory.sizeof_double_word.
  change Memory.NUM_OF_MEMORY_ADDRESS with 2097152.
  destruct (Z.ltb_spec (2097152 - 8) (wrap32 a)); [discriminate|].
  intros Heq.
  assert (Hs' : s' = with_mem (Memory.memcpy_to (mem s) (wrap32 a)
                                 (Memory.object_bytes 8 (wrap64 v))) s) by congruence.
  subst s'. unfold within_memory. cbn [mem with_mem].
  apply bool_decide_ext. apply memcpy_to_keys.
  intros i Hi. rewrite length_object_bytes in Hi.
  pose proof (wrap32_range a). change Memory.NUM_OF_MEMORY_ADDRESS with 2097152. lia.
Qed.

Lemma keeps_within_memory_instruction inst :
  keeps within_memory (decode_and_execute inst).
Proof.
  unfold decode_and_execute. unfold_exec.
  repeat first
    [ apply keeps_within_memory_set_word
    | apply keeps_within_memory_set_double_word
    | keeps_step ].
Qed.

Lemma keeps_within_memory_run fuel : keeps within_memory (run_cpu fuel).
Proof.
  induction fuel as [|fuel IH]; cbn [run_cpu]; unfold fetch; unfold_exec.
  - repeat keeps_step.
  - repeat first [ apply keeps_within_memory_instruction | exact IH | keeps_step ].
Qed.

Lemma within_memory_init file s :
  init_cpu file = Ok s → within_memory s = true.
Proof.
  unfold init_cpu, Memory.load_instructions_to_memory, Memory.INSTR_SIZE.
  cbn [mem init_register with_program_counter with_gen_registers].
  set (file_size := to_int32 (wrap32 (Z.of_nat (length file)))).
  destruct (Z.ltb_spec Memory.NUM_OF_MEMORY_ADDRESS file_size);
    [discriminate|].
  cbn [result_bind]. intros Heq.
  set (bs := take (Z.to_nat (Z.quot file_size 4 * 4)) file) in *.
  assert (Hm : mem s = Memory.memcpy_to Memory.init_memory 0 bs)
    by (injection Heq as <-; reflexivity).
  unfold within_memory. rewrite Hm. apply bool_decide_eq_true.
  apply memcpy_to_keys; [|apply map_Forall_empty].
  intros i Hi. subst bs. rewrite length_take in Hi.
  assert (Hq : Z.quot file_size 4 * 4 ≤ Z.max 0 file_size).
  { destruct (Z.le_gt_cases 0 file_size).
    - pose proof (Z.mul_quot_le file_size 4 ltac:(lia) ltac:(lia)). lia.
    - pose proof (Z.mul_quot_ge file_size 4 ltac:(lia) ltac:(lia)). lia. }
  lia.
Qed.

(** X27. The emulator never writes outside its memory: in the state
    that [emulate] returns, after loading the file and running any
    number of instructions, every byte that was ever written lies at an
    address below the size of the memory. *)
Theorem stores_stay_within_memory (file : list Z) (fuel : nat)
    (halted : bool) (s : machine) :
  emulate fuel file = Ok (halted, s) →
  ∀ a b, mem s !! a = Some b → 0 ≤ a < Memory.NUM_OF_MEMORY_ADDRESS.
Proof.
  unfold emulate. destruct (init_cpu file) as [s0|] eqn:Hinit; [|discriminate].
  cbn [result_bind]. intros Hrun.
  pose proof (keeps_within_memory_run fuel _ _ _ Hrun) as Hk.
  rewrite (within_memory_init file s0 Hinit) in Hk.
  apply bool_decide_eq_true in Hk. intros a b Hab. exact (Hk a b Hab).
Qed.

Lemma stores_stay_within_memory_witness :
  ∃ halted s,
    emulate 5 Scenario.movz_halt_image = Ok (halted, s)
    ∧ ∀ a b, mem s !! a = Some b → 0 ≤ a < Memory.NUM_OF_MEMORY_ADDRESS.
Proof.
  eexists _, _. split; [vm_compute; reflexivity|].
  apply (stores_stay_within_memory Scenario.movz_halt_image 5 true).
  vm_compute. reflexivity.
Defined.

End FrameFacts.

(** ** The single step of the debugger *)

Section StepFacts.
Import Register Cpu.

Lemma with_gen_registers_id s : with_gen_registers (gen_registers s) s = s.
Proof. destruct s; reflexivity. Qed.

Lemma get_reg_value_64_lt r s :
  0 ≤ r < 31 →
  get_reg_value_64 r s = Ok (default 0 (gen_registers s !! Z.to_nat r), s).
Proof.
  intros Hr. unfold get_reg_value_64, NUM_REGISTERS.
  rewrite (wrap32_small r) by lia.
  destruct (Z.eqb_spec r 31); [lia|].
  destruct (Z.ltb_spec 31 r); [lia|]. reflexivity.
Qed.

Lemma halt_is_reg_logic :
  decode_and_execute HALT_INSTRUCTION = exec_reg_logic HALT_INSTRUCTION.
Proof. reflexivity. Qed.

Lemma exec_halt s x0 :
  gen_registers s !! 0%nat = Some x0 → 0 ≤ x0 < 2 ^ 64 →
  decode_and_execute HALT_INSTRUCTION s = Ok (tt, s).
Proof.
  intros Hx Hr. rewrite halt_is_reg_logic. unfold exec_reg_logic.
  change (RegLogic.sf HALT_INSTRUCTION) with 1.
  change (RegLogic.rm HALT_INSTRUCTION) with 0.
  change (RegLogic.rn HALT_INSTRUCTION) with 0.
  change (RegLogic.rd HALT_INSTRUCTION) with 0.
  change (RegLogic.operand HALT_INSTRUCTION) with 0.
  change (RegLogic.shift HALT_INSTRUCTION) with 0.
  change (RegLogic.opc HALT_INSTRUCTION) with 0.
  change (RegLogic.N HALT_INSTRUCTION) with 0.
  change (negb (1 =? 0)) with true. cbv iota.
  change (0 =? ITP_AND_W_FLAGS) with false. cbv iota.
  assert (Hget : get_reg_value_64 0 s = Ok (x0, s)).
  { rewrite get_reg_value_64_lt by lia. change (Z.to_nat 0) with 0%nat.
    rewrite Hx. reflexivity. }
  rewrite (bind_Ok _ _ _ _ _ Hget), (bind_Ok _ _ _ _ _ Hget).
  rewrite (bind_Ok _ _ s tt s) by reflexivity.
  assert (Hres : apply_logic x0 (apply_shift_64 x0 0 0) 0 0 = x0).
  { unfold apply_logic, apply_shift_64.
    change (0 =? ITP_LSL) with true. cbv iota.
    change (0 mod CONST_64) with 0. rewrite Z.shiftl_0_r.
    repeat rewrite (wrap64_small x0) by lia.
    change (negb (0 =? 0)) with false. cbv iota.
    change ((0 =? ITP_AND) || (0 =? ITP_AND_W_FLAGS)) with true. cbv iota.
    apply Z.land_diag. }
  rewrite Hres, set_reg_value_lt by lia.
  rewrite wrap64_small by lia. change (Z.to_nat 0) with 0%nat.
  rewrite list_insert_id by exact Hx. rewrite with_gen_registers_id.
  reflexivity.
Qed.

(** X12. The debugger's [step_instruction] and the loop of [run_cpu]
    agree on every instruction but the halt instruction: one more
    iteration of the loop is one step followed by the loop.  At the halt
    instruction the loop returns at once and leaves the machine as it
    is, whereas a step executes the word as the [and x0, x0, x0] it
    encodes, advances the program counter by 4 and then reports the
    halt. *)
Theorem step_instruction_and_run_cpu (s : machine) (inst : Z) :
  Memory.get_word (mem s) (program_counter s) = Ok inst →
  (inst ≠ HALT_INSTRUCTION →
   ∀ fuel, run_cpu (S fuel) s = bind step_instruction (λ _, run_cpu fuel) s)
  ∧ (inst = HALT_INSTRUCTION →
     ∀ x0, gen_registers s !! 0%nat = Some x0 → 0 ≤ x0 < 2 ^ 64 →
     (∀ fuel, run_cpu fuel s = Ok (true, s))
     ∧ step_instruction s
       = Ok (false, with_program_counter (wrap64 (program_counter s + 4)) s)).
Proof.
  intros Hmem.
  assert (Hfetch : fetch s = Ok (inst, s)).
  { unfold fetch, get_program_counter, bind, get_state, ret, read_mem.
    rewrite Hmem. reflexivity. }
  split.
  - intros Hne fuel. cbn [run_cpu]. unfold step_instruction.
    rewrite (bind_Ok _ _ _ _ _ Hfetch).
    apply Z.eqb_neq in Hne. rewrite Hne.
    unfold bind at 1 3 4. rewrite Hfetch.
    unfold bind.
    destruct (decode_and_execute inst s) as [[[] s1]|]; [|reflexivity].
    destruct (GeneralBranch.op0 inst =? ITP_BRANCH); cbn; reflexivity.
  - intros -> x0 Hx Hr. split.
    + intros fuel. destruct fuel; cbn [run_cpu];
        rewrite (bind_Ok _ _ _ _ _ Hfetch); reflexivity.
    + unfold step_instruction.
      rewrite (bind_Ok _ _ _ _ _ Hfetch).
      rewrite (bind_Ok _ _ _ _ _ (exec_halt s x0 Hx Hr)).
      reflexivity.
Qed.

Lemma step_instruction_and_run_cpu_witness :
  let s := with_mem (Memory.memcpy_to ∅ 0 [0; 0; 0; 0x8A])
             (Scenario.machine_with 7 0) in
  (HALT_INSTRUCTION ≠ HALT_INSTRUCTION →
   ∀ fuel, run_cpu (S fuel) s = bind step_instruction (λ _, run_cpu fuel) s)
  ∧ (HALT_INSTRUCTION = HALT_INSTRUCTION →
     ∀ x0, gen_registers s !! 0%nat = Some x0 → 0 ≤ x0 < 2 ^ 64 →
     (∀ fuel, run_cpu fuel s = Ok (true, s))
     ∧ step_instruction s
       = Ok (false, with_program_counter (wrap64 (program_counter s + 4)) s)).
Proof.
  apply (step_instruction_and_run_cpu
           (with_mem (Memory.memcpy_to ∅ 0 [0; 0; 0; 0x8A])
              (Scenario.machine_with 7 0)) HALT_INSTRUCTION).
  vm_compute. reflexivity.
Defined.

End StepFacts.

(** ** Shifts *)

Section ShiftFacts.
Import Cpu.

Lemma testbit_high_zero w x i :
  0 ≤ w → 0 ≤ x < 2 ^ w → w ≤ i → Z.testbit x i = false.
Proof.
  intros Hw Hx Hi. apply (Z.bounded_iff_bits_nonneg w x); lia.
Qed.

Lemma testbit_signed w x j :
  1 < w → 0 ≤ x < 2 ^ w → 0 ≤ j →
  Z.testbit (if x <? 2 ^ (w - 1) then x else x - 2 ^ w) j
  = Z.testbit x (Z.min j (w - 1)).
Proof.
  intros Hw Hx Hj.
  assert (Hp : 2 ^ w = 2 * 2 ^ (w - 1)).
  { rewrite <- Z.pow_succ_r by lia. f_equal. lia. }
  assert (Hpos : 0 < 2 ^ (w - 1)) by (apply Z.pow_pos_nonneg; lia).
  destruct (Z.ltb_spec x (2 ^ (w - 1))) as [Hlow|Hhigh].
  - destruct (Z.le_gt_cases (w - 1) j).
    + rewrite Z.min_r by lia.
      rewrite (testbit_high_zero (w - 1) x j) by lia.
      rewrite (testbit_high_zero (w - 1) x (w - 1)) by lia. reflexivity.
    + rewrite Z.min_l by lia. reflexivity.
  - assert (Hsign : Z.testbit x (w - 1) = true).
    { apply Z.testbit_true; [lia|].
      replace (x / 2 ^ (w - 1)) with 1; [reflexivity|].
      apply Z.div_unique with (x - 2 ^ (w - 1)); lia. }
    destruct (Z.le_gt_cases (w - 1) j).
    + rewrite Z.min_r, Hsign by lia.
      apply Z.bits_above_log2_neg; [lia|].
      destruct (Z.eq_dec (Z.pred (- (x - 2 ^ w))) 0) as [->|Hne].
      * cbn. lia.
      * apply Z.log2_lt_pow2; [lia|].
        apply Z.lt_le_trans with (2 ^ (w - 1)); [lia|].
        apply Z.pow_le_mono_r; lia.
    + rewrite Z.min_l by lia.
      rewrite <- (Z.mod_pow2_bits_low (x - 2 ^ w) w j) by lia.
      replace (x - 2 ^ w) with (x + (-1) * 2 ^ w) by lia.
      rewrite Z.mod_add by lia. rewrite Z.mod_small by lia. reflexivity.
Qed.

(** X13. Bit [i] of a shifted 64-bit operand, for a shift amount below
    64: a logical left shift takes it from bit [i - sh] and fills with
    zeros, a logical right shift takes it from bit [i + sh] and fills
    with zeros, an arithmetic right shift fills with bit 63, and a
    rotation by a non-zero amount takes it from bit [(i + sh) mod 64]. *)
Theorem shift_64_bits (x sh i : Z) :
  0 ≤ x < 2 ^ 64 → 0 ≤ sh < 64 → 0 ≤ i < 64 →
  Z.testbit (apply_shift_64 x sh ITP_LSL) i = (sh <=? i) && Z.testbit x (i - sh)
  ∧ Z.testbit (apply_shift_64 x sh ITP_LSR) i
    = (i + sh <? 64) && Z.testbit x (i + sh)
  ∧ Z.testbit (apply_shift_64 x sh ITP_ASR) i = Z.testbit x (Z.min (i + sh) 63)
  ∧ (0 < sh →
     Z.testbit (apply_shift_64 x sh ITP_ROR) i = Z.testbit x ((i + sh) mod 64)).
Proof.
  intros Hx Hsh Hi. unfold apply_shift_64, CONST_64.
  rewrite (wrap64_small x) by lia. rewrite (Z.mod_small sh 64) by lia.
  cbn [ITP_LSL ITP_LSR ITP_ASR ITP_ROR Z.eqb Pos.eqb]. unfold wrap64.
  split; [|split; [|split]].
  - rewrite Z.mod_pow2_bits_low, Z.shiftl_spec by lia.
    destruct (Z.leb_spec sh i); [reflexivity|].
    apply Z.testbit_neg_r. lia.
  - rewrite Z.shiftr_spec by lia.
    destruct (Z.ltb_spec (i + sh) 64); [reflexivity|].
    apply (testbit_high_zero 64); lia.
  - rewrite Z.mod_pow2_bits_low, Z.shiftr_spec by lia.
    apply (testbit_signed 64 x (i + sh)); lia.
  - intros Hpos.
    rewrite Z.lor_spec, Z.shiftr_spec, Z.mod_pow2_bits_low, Z.shiftl_spec by lia.
    rewrite (Z.mod_small (64 - sh)) by lia.
    destruct (Z.lt_ge_cases (i + sh) 64).
    + rewrite (Z.mod_small (i + sh)) by lia.
      rewrite (Z.testbit_neg_r x (i - (64 - sh))) by lia. apply orb_false_r.
    + rewrite (testbit_high_zero 64 x (i + sh)) by lia.
      replace ((i + sh) mod 64) with (i - (64 - sh)); [reflexivity|].
      symmetry. replace (i + sh) with (i - (64 - sh) + 1 * 64) by lia.
      rewrite Z.mod_add by lia. apply Z.mod_small. lia.
Qed.

Lemma shift_64_bits_witness :
  Z.testbit (apply_shift_64 (2 ^ 63 + 6) 2 ITP_LSL) 3
  = (2 <=? 3) && Z.testbit (2 ^ 63 + 6) (3 - 2)
  ∧ Z.testbit (apply_shift_64 (2 ^ 63 + 6) 2 ITP_LSR) 3
    = (3 + 2 <? 64) && Z.testbit (2 ^ 63 + 6) (3 + 2)
  ∧ Z.testbit (apply_shift_64 (2 ^ 63 + 6) 2 ITP_ASR) 3
    = Z.testbit (2 ^ 63 + 6) (Z.min (3 + 2) 63)
  ∧ (0 < 2 →
     Z.testbit (apply_shift_64 (2 ^ 63 + 6) 2 ITP_ROR) 3
     = Z.testbit (2 ^ 63 + 6) ((3 + 2) mod 64)).
Proof. apply (shift_64_bits (2 ^ 63 + 6) 2 3); lia. Defined.

(** X14. The same reading of the four shifts on the 32-bit view, for a
    shift amount below 32: the fill bit of the arithmetic shift is bit
    31 and the rotation wraps at 32. *)
Theorem shift_32_bits (x sh i : Z) :
  0 ≤ x < 2 ^ 32 → 0 ≤ sh < 32 → 0 ≤ i < 32 →
  Z.testbit (apply_shift_32 x sh ITP_LSL) i = (sh <=? i) && Z.testbit x (i - sh)
  ∧ Z.testbit (apply_shift_32 x sh ITP_LSR) i
    = (i + sh <? 32) && Z.testbit x (i + sh)
  ∧ Z.testbit (apply_shift_32 x sh ITP_ASR) i = Z.testbit x (Z.min (i + sh) 31)
  ∧ (0 < sh →
     Z.testbit (apply_shift_32 x sh ITP_ROR) i = Z.testbit x ((i + sh) mod 32)).
Proof.
  intros Hx Hsh Hi. unfold apply_shift_32, CONST_32.
  rewrite (wrap32_small x) by lia. rewrite (Z.mod_small sh 32) by lia.
  cbn [ITP_LSL ITP_LSR ITP_ASR ITP_ROR Z.eqb Pos.eqb]. unfold wrap32.
  split; [|split; [|split]].
  - rewrite Z.mod_pow2_bits_low, Z.shiftl_spec by lia.
    destruct (Z.leb_spec sh i); [reflexivity|].
    apply Z.testbit_neg_r. lia.
  - rewrite Z.shiftr_spec by lia.
    destruct (Z.ltb_spec (i + sh) 32); [reflexivity|].
    apply (testbit_high_zero 32); lia.
  - rewrite Z.mod_pow2_bits_low, Z.shiftr_spec by lia.
    apply (testbit_signed 32 x (i + sh)); lia.
  - intros Hpos.
    rewrite Z.lor_spec, Z.shiftr_spec, Z.mod_pow2_bits_low, Z.shiftl_spec by lia.
    rewrite (Z.mod_small (32 - sh)) by lia.
    destruct (Z.lt_ge_cases (i + sh) 32).
    + rewrite (Z.mod_small (i + sh)) by lia.
      rewrite (Z.testbit_neg_r x (i - (32 - sh))) by lia. apply orb_false_r.
    + rewrite (testbit_high_zero 32 x (i + sh)) by lia.
      replace ((i + sh) mod 32) with (i - (32 - sh)); [reflexivity|].
      symmetry. replace (i + sh) with (i - (32 - sh) + 1 * 32) by lia.
      rewrite Z.mod_add by lia. apply Z.mod_small. lia.
Qed.

Lemma shift_32_bits_witness :
  Z.testbit (apply_shift_32 (2 ^ 31 + 6) 2 ITP_LSL) 3
  = (2 <=? 3) && Z.testbit (2 ^ 31 + 6) (3 - 2)
  ∧ Z.testbit (apply_shift_32 (2 ^ 31 + 6) 2 ITP_LSR) 3
    = (3 + 2 <? 32) && Z.testbit (2 ^ 31 + 6) (3 + 2)
  ∧ Z.testbit (apply_shift_32 (2 ^ 31 + 6) 2 ITP_ASR) 3
    = Z.testbit (2 ^ 31 + 6) (Z.min (3 + 2) 31)
  ∧ (0 < 2 →
     Z.testbit (apply_shift_32 (2 ^ 31 + 6) 2 ITP_ROR) 3
     = Z.testbit (2 ^ 31 + 6) ((3 + 2) mod 32)).
Proof. apply (shift_32_bits (2 ^ 31 + 6) 2 3); lia. Defined.
End ShiftFacts.

(** ** Wide moves *)

Section WideMoveFacts.
Import Register Cpu.

Lemma rd_is_register inst :
  ImmWide.rd inst ≠ 31 → 0 ≤ ImmWide.rd inst < 31.
Proof.
  intros Hne. pose proof (field_range 0 5 inst ltac:(lia)) as Hr.
  unfold ImmWide.rd, get in *. cbn [lo width] in *.
  change (2 ^ 5) with 32 in Hr. lia.
Qed.

Lemma shifted_immediate_range inst :
  0 ≤ ImmWide.imm16 inst * 2 ^ (16 * ImmWide.hw inst) < 2 ^ 64
  ∧ 0 ≤ 16 * ImmWide.hw inst ≤ 48.
Proof.
  pose proof (field_range 5 16 inst ltac:(lia)) as Hi.
  pose proof (field_range 21 2 inst ltac:(lia)) as Hh.
  unfold ImmWide.imm16, ImmWide.hw, get. cbn [lo width].
  set (imm := field 5 16 inst) in *. set (hw := field 21 2 inst) in *.
  change (2 ^ 2) with 4 in Hh.
  assert (Hp : 0 < 2 ^ (16 * hw) ≤ 2 ^ 48).
  { split; [apply Z.pow_pos_nonneg; lia|apply Z.pow_le_mono_r; lia]. }
  split; [|lia]. split; [nia|].
  apply Z.lt_le_trans with (2 ^ 16 * 2 ^ 48); [nia|].
  rewrite <- Z.pow_add_r by lia. apply Z.pow_le_mono_r; lia.
Qed.

Lemma wrap64_lnot x : 0 ≤ x < 2 ^ 64 → wrap64 (Z.lnot x) = 2 ^ 64 - 1 - x.
Proof.
  intros Hx. unfold wrap64, Z.lnot.
  replace (Z.pred (- x)) with (2 ^ 64 - 1 - x + (-1) * 2 ^ 64) by lia.
  rewrite Z.mod_add by lia. apply Z.mod_small. lia.
Qed.

(** X15. A wide move other than [movk] to a register other than the
    zero register writes [imm16 * 2^(16 hw)] for [movz] (and for the
    unassigned [opc] value 1), its 64-bit complement for [movn], and in
    32-bit mode the low 32 bits of that value, so that the upper half of
    the register is cleared. *)
Theorem wide_move_value (inst : Z) (s : machine) :
  ImmWide.rd inst ≠ 31 → ImmWide.opc inst ≠ ITP_MOVK →
  exec_wide_move inst s
  = Ok (tt, with_gen_registers
              (<[Z.to_nat (ImmWide.rd inst) :=
                   let x := ImmWide.imm16 inst * 2 ^ (16 * ImmWide.hw inst) in
                   let x := if ImmWide.opc inst =? ITP_MOVN
                            then 2 ^ 64 - 1 - x else x in
                   if ImmWide.sf inst =? 0 then x mod 2 ^ 32 else x]>
                 (gen_registers s)) s).
Proof.
  intros Hrd Hopc. unfold exec_wide_move.
  apply Z.eqb_neq in Hopc. rewrite Hopc.
  destruct (shifted_immediate_range inst) as [Hx Hp].
  rewrite set_reg_value_lt by (apply rd_is_register; exact Hrd).
  replace (ImmWide.hw inst * 16) with (16 * ImmWide.hw inst) by lia.
  rewrite Z.shiftl_mul_pow2 by lia.
  set (x := ImmWide.imm16 inst * 2 ^ (16 * ImmWide.hw inst)) in *.
  rewrite (wrap64_small x) by lia. rewrite wrap64_lnot by lia.
  cbv zeta. do 3 f_equal.
  set (y := if ImmWide.opc inst =? ITP_MOVN then 2 ^ 64 - 1 - x else x).
  assert (Hy : 0 ≤ y < 2 ^ 64) by (subst y; destruct (_ =? ITP_MOVN); lia).
  change 0xFFFFFFFF with (Z.ones 32). rewrite Z.land_ones by lia.
  destruct (ImmWide.sf inst =? 0).
  - rewrite wrap64_small; [reflexivity|].
    pose proof (Z.mod_pos_bound y (2 ^ 32)). lia.
  - rewrite wrap64_small by lia. reflexivity.
Qed.

Lemma wide_move_value_witness :
  exec_wide_move 0xD28000A0 (Scenario.machine_with 1 2)
  = Ok (tt, with_gen_registers
              (<[Z.to_nat (ImmWide.rd 0xD28000A0) :=
                   let x := ImmWide.imm16 0xD28000A0
                            * 2 ^ (16 * ImmWide.hw 0xD28000A0) in
                   let x := if ImmWide.opc 0xD28000A0 =? ITP_MOVN
                            then 2 ^ 64 - 1 - x else x in
                   if ImmWide.sf 0xD28000A0 =? 0 then x mod 2 ^ 32 else x]>
                 (gen_registers (Scenario.machine_with 1 2)))
              (Scenario.machine_with 1 2)).
Proof.
  apply (wide_move_value 0xD28000A0 (Scenario.machine_with 1 2));
    vm_compute; lia.
Defined.

(** X16. [movk] to a register other than the zero register replaces
    the 16-bit lane selected by [hw] with [imm16] and keeps every other
    bit of the register; in 32-bit mode bits 32..63 are cleared as
    well. *)
Theorem movk_replaces_one_lane (inst : Z) (s : machine) (old : Z) :
  ImmWide.opc inst = ITP_MOVK → ImmWide.rd inst ≠ 31 →
  gen_registers s !! Z.to_nat (ImmWide.rd inst) = Some old →
  0 ≤ old < 2 ^ 64 →
  ∃ v, exec_wide_move inst s
       = Ok (tt, with_gen_registers
                   (<[Z.to_nat (ImmWide.rd inst) := v]> (gen_registers s)) s)
       ∧ 0 ≤ v < 2 ^ 64
       ∧ ∀ i, 0 ≤ i < 64 →
           Z.testbit v i
           = ((ImmWide.sf inst =? 1) || (i <? 32))
             && (if (16 * ImmWide.hw inst <=? i)
                    && (i <? 16 * ImmWide.hw inst + 16)
                 then Z.testbit (ImmWide.imm16 inst) (i - 16 * ImmWide.hw inst)
                 else Z.testbit old i).
Proof.
  intros Hopc Hrd Hold Hrange. unfold exec_wide_move.
  rewrite Hopc. change (ITP_MOVK =? ITP_MOVK) with true. cbv iota zeta.
  pose proof (rd_is_register inst Hrd) as Hr.
  destruct (shifted_immediate_range inst) as [Hx Hp].
  assert (Hget : get_reg_value_64 (ImmWide.rd inst) s = Ok (old, s)).
  { rewrite get_reg_value_64_lt by lia. rewrite Hold. reflexivity. }
  rewrite (bind_Ok _ _ _ _ _ Hget).
  rewrite set_reg_value_lt by lia.
  eexists. split; [reflexivity|]. split; [apply wrap64_range|].
  intros i Hi. unfold wrap64 at 1. rewrite Z.mod_pow2_bits_low by lia.
  set (p := 16 * ImmWide.hw inst) in *.
  assert (Hbits : Z.testbit
            (Z.lor (Z.land old (wrap64 (Z.lnot (wrap64 (Z.shiftl 65535 p)))))
                   (wrap64 (Z.shiftl (ImmWide.imm16 inst) p))) i
          = if (p <=? i) && (i <? p + 16)
            then Z.testbit (ImmWide.imm16 inst) (i - p)
            else Z.testbit old i).
  { unfold wrap64. rewrite Z.lor_spec, Z.land_spec.
    rewrite !Z.mod_pow2_bits_low by lia.
    rewrite Z.lnot_spec by lia. rewrite Z.mod_pow2_bits_low by lia.
    rewrite !Z.shiftl_spec by lia.
    change 65535 with (Z.ones 16).
    destruct (Z.leb_spec p i); cbn [andb].
    - rewrite Z.testbit_ones_nonneg by lia.
      destruct (Z.ltb_spec (i - p) 16), (Z.ltb_spec i (p + 16)); try lia;
        cbn [negb].
      + rewrite andb_false_r. reflexivity.
      + rewrite andb_true_r.
        replace (Z.testbit (ImmWide.imm16 inst) (i - p)) with false;
          [apply orb_false_r|].
        symmetry. apply (testbit_high_zero 16); [lia| |lia].
        apply (field_range 5 16 inst). lia.
    - rewrite !(Z.testbit_neg_r _ (i - p)) by lia.
      cbn [negb]. rewrite andb_true_r, orb_false_r. reflexivity. }
  destruct (Z.eqb_spec (ImmWide.sf inst) 0) as [Hsf|Hsf].
  - rewrite Hsf. change (0 =? 1) with false. cbn [orb].
    change 4294967295 with (Z.ones 32).
    rewrite Z.land_spec, Z.testbit_ones_nonneg by lia.
    rewrite Hbits. apply andb_comm.
  - assert (Hsf1 : ImmWide.sf inst = 1).
    { pose proof (field_range 31 1 inst ltac:(lia)) as Hs.
      unfold ImmWide.sf, get in *. cbn [lo width] in *.
      change (2 ^ 1) with 2 in Hs. lia. }
    rewrite Hsf1. change (1 =? 1) with true. cbn [orb andb]. exact Hbits.
Qed.

Lemma movk_replaces_one_lane_witness :
  ∃ v, exec_wide_move 0xF2B7DDE0 (Scenario.machine_with 0x1122334455667788 0)
       = Ok (tt, with_gen_registers
                   (<[Z.to_nat (ImmWide.rd 0xF2B7DDE0) := v]>
                      (gen_registers
                         (Scenario.machine_with 0x1122334455667788 0)))
                   (Scenario.machine_with 0x1122334455667788 0))
       ∧ 0 ≤ v < 2 ^ 64
       ∧ ∀ i, 0 ≤ i < 64 →
           Z.testbit v i
           = ((ImmWide.sf 0xF2B7DDE0 =? 1) || (i <? 32))
             && (if (16 * ImmWide.hw 0xF2B7DDE0 <=? i)
                    && (i <? 16 * ImmWide.hw 0xF2B7DDE0 + 16)
                 then Z.testbit (ImmWide.imm16 0xF2B7DDE0)
                        (i - 16 * ImmWide.hw 0xF2B7DDE0)
                 else Z.testbit 0x1122334455667788 i).
Proof.
  apply (movk_replaces_one_lane 0xF2B7DDE0
           (Scenario.machine_with 0x1122334455667788 0) 0x1122334455667788);
    [reflexivity|vm_compute; lia|reflexivity|lia].
Defined.
End WideMoveFacts.

(** ** Assembler and emulator together *)

Section LinkFacts.
Import Register Cpu SymbolTable.

Lemma field_bit lo width w v i :
  0 ≤ lo → 0 ≤ i < width → field lo width w = v →
  Z.testbit w (i + lo) = Z.testbit v i.
Proof.
  intros Hlo Hi <-. rewrite testbit_field by lia.
  destruct (Z.ltb_spec i width); [|lia]. rewrite andb_true_r. reflexivity.
Qed.

(** The classes of [modify_line] are the decoder's: a word that the
    assembler patches as a branch or a load literal is executed as one. *)
Lemma literal_kind_dispatch w k :
  literal_kind_of w = Some k →
  decode_and_execute w
  = match k with
    | LitBranchUncond => exec_branch_uncond w
    | LitBranchCond => exec_branch_cond w
    | LitLoadLiteral => exec_dt_load_literal w
    end.
Proof.
  unfold literal_kind_of, decode_and_execute.
  destruct (Z.eqb_spec (GeneralBranch.op0 w) ITP_BRANCH) as [Hb|Hb];
    cbn [andb].
  - change (BranchCond.id w) with (BranchUncond.id w).
    destruct (Z.eqb_spec (BranchUncond.id w) ITP_BRANCH_UNCOND) as [Hu|Hu].
    { intros [= <-]. reflexivity. }
    destruct (Z.eqb_spec (BranchUncond.id w) ITP_BRANCH_COND) as [Hc|Hc].
    { intros [= <-]. reflexivity. }
    assert (H27 : Z.testbit w 27 = false).
    { exact (field_bit 26 3 w 5 1 ltac:(lia) ltac:(lia) Hb). }
    rewrite (get_one_bit GeneralDT.op0_1) by (cbn; lia).
    cbn [lo GeneralDT.op0_1]. rewrite H27. cbn. discriminate.
  - destruct (Z.eqb_spec (GeneralDT.op0_1 w) ITP_DT_1) as [H1|H1];
      [|discriminate].
    destruct (Z.eqb_spec (GeneralDT.op0_2 w) ITP_DT_2) as [H2|H2];
      [|discriminate].
    cbn [andb].
    destruct (Z.eqb_spec (DTLoadLiteral.id w) ITP_DT_LOAD_LITERAL) as [H3|H3];
      [|discriminate].
    intros [= <-].
    assert (H27 : Z.testbit w 27 = true).
    { exact (field_bit 27 1 w 1 0 ltac:(lia) ltac:(lia) H1). }
    assert (H25 : Z.testbit w 25 = false).
    { exact (field_bit 25 1 w 0 0 ltac:(lia) ltac:(lia) H2). }
    destruct (Z.eqb_spec (GeneralDpImm.op0 w) ITP_DP_IMM) as [Hi|Hi].
    { pose proof (field_bit 26 3 w 4 1 ltac:(lia) ltac:(lia) Hi) as Hx.
      change (1 + 26) with 27 in Hx. rewrite H27 in Hx. discriminate Hx. }
    unfold decode_and_execute_dp_reg.
    destruct (Z.eqb_spec (GeneralDpReg.op0 w) ITP_DP_REG) as [Hr|Hr].
    { pose proof (field_bit 25 3 w 5 0 ltac:(lia) ltac:(lia) Hr) as Hx.
      change (0 + 25) with 25 in Hx. rewrite H25 in Hx. discriminate Hx. }
    unfold decode_and_execute_dt.
    rewrite H1, H2, H3. reflexivity.
Qed.

Lemma patched_offset addr R n :
  0 ≤ R < 2 ^ 32 → 0 ≤ addr < 2 ^ 32 → R mod 4 = 0 → addr mod 4 = 0 →
  1 ≤ n ≤ 30 →
  (wrap32 (addr - R) / 4) mod 2 ^ n = ((addr - R) / 4) mod 2 ^ n.
Proof.
  intros HR Ha HmR Hma Hn.
  destruct (Z.le_gt_cases R addr).
  - rewrite wrap32_small by lia. reflexivity.
  - unfold wrap32.
    replace ((addr - R) mod 2 ^ 32) with (addr - R + 2 ^ 32).
    2:{ symmetry. replace (addr - R) with (addr - R + 2 ^ 32 + (-1) * 2 ^ 32) at 1
          by lia.
        rewrite Z.mod_add by lia. apply Z.mod_small. lia. }
    replace (addr - R + 2 ^ 32) with (addr - R + 2 ^ 30 * 4) by lia.
    rewrite Z.div_add by lia.
    replace (2 ^ 30) with (2 ^ (30 - n) * 2 ^ n)
      by (rewrite <- Z.pow_add_r by lia; f_equal; lia).
    rewrite Z.mul_comm at 1.
    rewrite Z.add_comm, Z.mul_comm.
    rewrite Z.add_comm. rewrite Z.mod_add; [reflexivity|].
    apply Z.pow_nonzero; lia.
Qed.

Lemma patched_displacement_signed addr R n :
  0 ≤ R < 2 ^ 32 → 0 ≤ addr < 2 ^ 32 → R mod 4 = 0 → addr mod 4 = 0 →
  19 ≤ n ≤ 30 → - 2 ^ 20 ≤ addr - R < 2 ^ 20 →
  sign_extend ((wrap32 (addr - R) / 4) mod 2 ^ n) n * 4 = addr - R.
Proof.
  intros HR Ha HmR Hma Hn Hd.
  rewrite patched_offset by (assumption || lia).
  assert (Hdiv : (addr - R) = 4 * ((addr - R) / 4)).
  { apply Z.div_exact; [lia|]. rewrite Zminus_mod, HmR, Hma. reflexivity. }
  assert (Hp : 2 ^ 18 ≤ 2 ^ (n - 1)) by (apply Z.pow_le_mono_r; lia).
  rewrite sign_extend_truncated by lia. lia.
Qed.

(** X17. A word that [modify_line] has patched for a reference at [R]
    to a label at [addr], executed with the program counter at [R],
    does what the reference asks: an unconditional branch continues at
    [addr], a conditional branch continues at [addr] when its condition
    holds and at [R + 4] otherwise, a load literal loads from [addr].
    The displacement may have either sign; it has to fit the 19-bit
    field. *)
Theorem patched_reference_reaches_label
    (w R addr w' : Z) (k : literal_kind) (s : machine) :
  0 ≤ w < 2 ^ 32 → literal_kind_of w = Some k →
  modify_line w R addr = Ok w' →
  0 ≤ R < 2 ^ 32 → 0 ≤ addr < 2 ^ 32 → R mod 4 = 0 → addr mod 4 = 0 →
  - 2 ^ 20 ≤ addr - R < 2 ^ 20 →
  program_counter s = R →
  decode_and_execute w' s
  = match k with
    | LitBranchUncond => Ok (tt, with_program_counter addr s)
    | LitBranchCond =>
        Ok (tt, with_program_counter
                  (if branch_condition (BranchCond.cond w) (pstate s)
                   then addr else R + 4) s)
    | LitLoadLiteral =>
        (if DTLoadLiteral.sf w =? 0
         then load_word (DTLoadLiteral.rt w) addr
         else load_double_word (DTLoadLiteral.rt w) addr) s
    end.
Proof.
  intros Hw Hk Hmod HR Ha HmR Hma Hd Hpc.
  rewrite (modify_line_ok w R addr k Hw Hk) in Hmod. injection Hmod as <-.
  rewrite (literal_kind_dispatch _ k) by (apply literal_kind_of_put; exact Hk).
  destruct k.
  - unfold exec_branch_uncond, increase_pc, modify.
    cbn [literal_field]. rewrite get_put_same by (cbn; lia).
    cbn [width BranchUncond.simm26]. unfold Register.INSTR_SIZE.
    rewrite patched_displacement_signed by (assumption || lia).
    rewrite Hpc. replace (R + (addr - R)) with addr by lia.
    rewrite wrap64_small by lia. reflexivity.
  - unfold exec_branch_cond, increase_pc, increment_pc, modify, bind, get_state.
    cbn [literal_field]. rewrite get_put_same by (cbn; lia).
    cbn [width BranchCond.simm19]. unfold Register.INSTR_SIZE.
    rewrite patched_displacement_signed by (assumption || lia).
    rewrite (get_put_disjoint BranchCond.cond BranchCond.simm19)
      by (cbn; lia || (left; cbn; lia)).
    destruct (branch_condition _ _); cbv beta; rewrite Hpc.
    + replace (R + (addr - R)) with addr by lia.
      rewrite wrap64_small by lia. reflexivity.
    + unfold Register.INSTR_SIZE. rewrite wrap64_small by lia. reflexivity.
  - unfold exec_dt_load_literal.
    rewrite (bind_Ok _ _ s R s) by (rewrite <- Hpc; reflexivity).
    cbn [literal_field]. rewrite get_put_same by (cbn; lia).
    cbn [width DTLoadLiteral.simm19]. unfold Memory.sizeof_word.
    rewrite patched_displacement_signed by (assumption || lia).
    rewrite (get_put_disjoint DTLoadLiteral.sf DTLoadLiteral.simm19)
      by (cbn; lia || (right; cbn; lia)).
    rewrite (get_put_disjoint DTLoadLiteral.rt DTLoadLiteral.simm19)
      by (cbn; lia || (left; cbn; lia)).
    assert (Haddr : wrap32 (wrap64 (R + wrap64 (addr - R))) = addr).
    { unfold wrap64. rewrite Zplus_mod_idemp_r.
      replace (R + (addr - R)) with addr by lia.
      rewrite (Z.mod_small addr (2 ^ 64)) by lia. apply wrap32_small. lia. }
    rewrite !Haddr.
    destruct (DTLoadLiteral.sf w =? 0); reflexivity.
Qed.

Lemma patched_reference_reaches_label_witness :
  decode_and_execute 0x14000002 (Scenario.machine_with 0 0)
  = Ok (tt, with_program_counter 8 (Scenario.machine_with 0 0)).
Proof.
  apply (patched_reference_reaches_label 0x14000000 0 8 0x14000002
           LitBranchUncond (Scenario.machine_with 0 0));
    try reflexivity; lia.
Defined.

Lemma to_int32_wrap32 z : - 2 ^ 31 ≤ z < 2 ^ 31 → to_int32 (wrap32 z) = z.
Proof.
  intros Hz. unfold to_int32, wrap32.
  destruct (Z.le_gt_cases 0 z).
  - rewrite Z.mod_small by lia. destruct (Z.ltb_spec z (2 ^ 31)); lia.
  - replace (z mod 2 ^ 32) with (z + 2 ^ 32).
    + destruct (Z.ltb_spec (z + 2 ^ 32) (2 ^ 31)); lia.
    + symmetry. replace z with (z + 2 ^ 32 + (-1) * 2 ^ 32) at 1 by lia.
      rewrite Z.mod_add by lia. apply Z.mod_small. lia.
Qed.

Lemma get_address_defined st cur l addr :
  labels st !! l = Some addr →
  symbol_table_get_address st cur l
  = (Z.quot (to_int32 (wrap32 (addr - cur))) 4, st).
Proof.
  intros Hl. unfold symbol_table_get_address. rewrite Hl.
  rewrite wrap32_to_int32_sub. unfold wrap32 at 1 2.
  rewrite Zminus_mod_idemp_r. reflexivity.
Qed.

(** X18. [b label] with a label that is already defined is encoded
    without touching the symbol table, whatever the two addresses: the
    emitted word is an unconditional branch whose 26-bit field holds the
    displacement that [symbol_table_get_address] returns, reduced modulo
    [2 ^ 26]; neither function checks a range.  When the two addresses
    are 32-bit and 4-aligned and the label is less than [2 ^ 27] bytes
    behind or ahead, the emitted word, executed with the program counter
    at the address it was assembled for, continues at the address of the
    label. *)
Theorem assembled_branch_reaches_label
    (st : symbol_table) (cur addr : Z) (l : string)
    (operands : list (option string)) (s : machine) :
  labels st !! l = Some addr →
  operands !! 0%nat = Some (Some l) → Decode.is_label_literal l = true →
  ∃ w, Decode.assemble_branch st cur "b" operands = Ok (w, st)
       ∧ 0 ≤ w < 2 ^ 32
       ∧ literal_kind_of w = Some LitBranchUncond
       ∧ get BranchUncond.simm26 w
         = Z.quot (to_int32 (wrap32 (addr - cur))) 4 mod 2 ^ 26
       ∧ (0 ≤ cur < 2 ^ 32 → 0 ≤ addr < 2 ^ 32 →
          cur mod 4 = 0 → addr mod 4 = 0 →
          - 2 ^ 27 ≤ addr - cur < 2 ^ 27 →
          program_counter s = cur →
          decode_and_execute w s = Ok (tt, with_program_counter addr s)).
Proof.
  intros Hl Hop Hlit.
  destruct operands as [|o rest]; [discriminate|].
  injection Hop as ->.
  unfold Decode.assemble_branch, Decode.assert_num_opcodes, Decode.operand,
    Decode.OPERAND_1.
  cbn [take forallb lookup list_lookup default from_option id
       Decode.deref result_bind].
  rewrite bool_decide_eq_true_2 by eauto. cbn [andb Decode.assert_msg result_bind].
  change (CString.streq "b" "b") with true. cbv iota.
  rewrite Hlit. cbn [Decode.assert_msg result_bind].
  rewrite (get_address_defined st cur l addr Hl).
  set (q := Z.quot (to_int32 (wrap32 (addr - cur))) 4).
  set (w0 := put BranchUncond.id ITP_BRANCH_UNCOND
               (put BranchCond.op0 ITP_BRANCH 0)).
  assert (Hk0 : literal_kind_of w0 = Some LitBranchUncond) by reflexivity.
  assert (Hw0 : 0 ≤ w0 < 2 ^ 32) by (vm_compute; split; [discriminate|reflexivity]).
  eexists. split; [reflexivity|]. split.
  { apply put_range; [unfold fits32; cbn; lia|exact Hw0]. }
  split.
  { apply (literal_kind_of_put LitBranchUncond). exact Hk0. }
  split.
  { rewrite get_put_same by (cbn; lia). reflexivity. }
  intros Hc Ha Hmc Hma Hd Hpc.
  assert (Hdiv : addr - cur = 4 * ((addr - cur) / 4)).
  { apply Z.div_exact; [lia|]. rewrite Zminus_mod, Hmc, Hma. reflexivity. }
  assert (Hq : q = (addr - cur) / 4).
  { unfold q. rewrite to_int32_wrap32 by lia.
    rewrite Hdiv at 1. rewrite Z.mul_comm, Z.quot_mul by lia. reflexivity. }
  rewrite Hq.
  rewrite (literal_kind_dispatch _ LitBranchUncond)
    by (apply (literal_kind_of_put LitBranchUncond); exact Hk0).
  unfold exec_branch_uncond, increase_pc, modify.
  rewrite get_put_same by (cbn; lia).
  cbn [width BranchUncond.simm26]. unfold Register.INSTR_SIZE.
  rewrite sign_extend_truncated by lia.
  rewrite Hpc. replace (cur + (addr - cur) / 4 * 4) with addr by lia.
  rewrite wrap64_small by lia. reflexivity.
Qed.

Lemma assembled_branch_reaches_label_witness :
  ∃ w, Decode.assemble_branch
         {| labels := {["loop" := 0]}; addresses := ∅ |} 8 "b"
         [Some "loop"; None; None; None; None]
       = Ok (w, {| labels := {["loop" := 0]}; addresses := ∅ |})
       ∧ 0 ≤ w < 2 ^ 32
       ∧ literal_kind_of w = Some LitBranchUncond
       ∧ get BranchUncond.simm26 w
         = Z.quot (to_int32 (wrap32 (0 - 8))) 4 mod 2 ^ 26
       ∧ decode_and_execute w
           (with_program_counter 8 (Scenario.machine_with 0 0))
         = Ok (tt, with_program_counter 0
                     (with_program_counter 8 (Scenario.machine_with 0 0))).
Proof.
  assert (Hl : labels {| labels := {["loop" := 0]}; addresses := ∅ |} !! "loop"
               = Some 0) by reflexivity.
  assert (Hlit : Decode.is_label_literal "loop" = true) by reflexivity.
  destruct (assembled_branch_reaches_label
              {| labels := {["loop" := 0]}; addresses := ∅ |} 8 0 "loop"
              [Some "loop"; None; None; None; None]
              (with_program_counter 8 (Scenario.machine_with 0 0))
              Hl eq_refl Hlit)
    as (w & Hw & Hr & Hk & Hf & Hrun).
  exists w. split; [exact Hw|]. split; [exact Hr|]. split; [exact Hk|].
  split; [exact Hf|].
  apply Hrun; try reflexivity; lia.
Defined.

(** X19. Once a label is defined, every later reference to it, from
    any address, gets the difference of the two addresses, reduced to a
    signed 32-bit integer and divided by 4 towards zero, and leaves the
    symbol table as it is; the result is [(addr - cur) / 4] towards zero
    when the difference itself is a signed 32-bit integer.  A second
    definition of the label ends the process; the entries of the other
    labels are those from before the definition. *)
Theorem defined_label_is_final
    (st : symbol_table) (ins : list Z) (addr : Z) (l : string)
    (st' : symbol_table) (ins' : list Z) :
  symbol_table_add_label st ins addr l = Ok (st', ins') →
  (∀ cur, symbol_table_get_address st' cur l
          = (Z.quot (to_int32 (wrap32 (addr - cur))) 4, st'))
  ∧ (∀ cur, - 2 ^ 31 ≤ addr - cur < 2 ^ 31 →
            symbol_table_get_address st' cur l = (Z.quot (addr - cur) 4, st'))
  ∧ (∀ ins2 addr2,
       symbol_table_add_label st' ins2 addr2 l = Fatal (MultipleDefinitions l))
  ∧ (∀ l', l' ≠ l → labels st' !! l' = labels st !! l'
                    ∧ addresses st' !! l' = addresses st !! l').
Proof.
  intros Hadd.
  assert (Hst : labels st' = <[l := wrap32 addr]> (labels st)
                ∧ addresses st' = addresses st).
  { unfold symbol_table_add_label in Hadd.
    destruct (labels st !! l); [discriminate|].
    destruct (addresses st !! l).
    - destruct (modify_lines ins addr l0); [|discriminate].
      cbn [result_bind] in Hadd. injection Hadd as <- _. split; reflexivity.
    - injection Hadd as <- _. split; reflexivity. }
  destruct Hst as [Hlab Haddrs].
  assert (Hl : labels st' !! l = Some (wrap32 addr))
    by (rewrite Hlab; apply lookup_insert_eq).
  assert (Hget : ∀ cur, symbol_table_get_address st' cur l
                        = (Z.quot (to_int32 (wrap32 (addr - cur))) 4, st')).
  { intros cur. rewrite (get_address_defined st' cur l _ Hl).
    unfold wrap32 at 1 2. rewrite Zminus_mod_idemp_l. reflexivity. }
  split; [exact Hget|]. split; [|split].
  - intros cur Hc. rewrite Hget, to_int32_wrap32 by exact Hc. reflexivity.
  - intros ins2 addr2. unfold symbol_table_add_label. rewrite Hl. reflexivity.
  - intros l' Hne. rewrite Hlab, Haddrs.
    rewrite lookup_insert_ne by congruence. split; reflexivity.
Qed.

Lemma defined_label_is_final_witness :
  let st' := {| labels := {["end" := 8]}; addresses := {["end" := [0]]} |} in
  (∀ cur, symbol_table_get_address st' cur "end"
          = (Z.quot (to_int32 (wrap32 (8 - cur))) 4, st'))
  ∧ (∀ cur, - 2 ^ 31 ≤ 8 - cur < 2 ^ 31 →
            symbol_table_get_address st' cur "end" = (Z.quot (8 - cur) 4, st'))
  ∧ (∀ ins2 addr2,
       symbol_table_add_label st' ins2 addr2 "end"
       = Fatal (MultipleDefinitions "end"))
  ∧ (∀ l', l' ≠ "end" →
           labels st' !! l' = labels Scenario.pending_end !! l'
           ∧ addresses st' !! l' = addresses Scenario.pending_end !! l').
Proof.
  apply (defined_label_is_final Scenario.pending_end Scenario.emitted_branch 8
           "end" {| labels := {["end" := 8]}; addresses := {["end" := [0]]} |}
           [0x14000002; 0xD28000E0]). vm_compute. reflexivity.
Defined.

(** The difference is formed in [int]: a label at [2 ^ 31] is [2 ^ 29]
    words behind address 0, and a label at 32 is 9 words ahead of
    address [2 ^ 32 - 4]. *)
Example get_address_wraps :
  symbol_table_get_address {| labels := {["far" := 2 ^ 31]}; addresses := ∅ |}
    0 "far" = (- 2 ^ 29, {| labels := {["far" := 2 ^ 31]}; addresses := ∅ |})
  ∧ symbol_table_get_address {| labels := {["near" := 32]}; addresses := ∅ |}
      (2 ^ 32 - 4) "near"
    = (9, {| labels := {["near" := 32]}; addresses := ∅ |}).
Proof. split; vm_compute; reflexivity. Qed.
End LinkFacts.

(** ** The hash map represents a finite map *)

Section HashmapFacts.
Import Hashmap.
Context {V : Type}.
Implicit Types (hmap : HashMap V) (key : string).
Implicit Types (head next rest : list (Item V)) (item : Item V).

Lemma get_hash_range key : 0 ≤ get_hash key < 2 ^ 64.
Proof.
  unfold get_hash.
  assert (H : ∀ l h, 0 ≤ h < 2 ^ 64 →
    0 ≤ foldl (λ hash c,
                 wrap64 (wrap64 (wrap64 (Z.shiftl hash 5) + hash) + CString.code c))
              h l < 2 ^ 64).
  { induction l as [|c l IH]; intros h Hh; [exact Hh|].
    cbn [foldl]. apply IH. apply wrap64_range. }
  apply H. lia.
Qed.

Lemma land_mask_range x m : 0 ≤ m → 0 ≤ Z.land x m ≤ m.
Proof.
  intros Hm. apply Z.ldiff_le; [exact Hm|].
  apply Z.bits_inj'. intros i Hi.
  rewrite Z.ldiff_spec, Z.land_spec, Z.bits_0.
  destruct (Z.testbit x i), (Z.testbit m i); reflexivity.
Qed.

Lemma bucket_index_range n key :
  1 ≤ n < 2 ^ 31 → 0 ≤ bucket_index n key < n.
Proof.
  intros Hn. unfold bucket_index.
  rewrite (wrap64_small (n - 1)) by lia.
  pose proof (land_mask_range (get_hash key) (n - 1) ltac:(lia)) as Hl.
  rewrite wrap32_small by lia.
  unfold to_int32.
  destruct (Z.ltb_spec (Z.land (get_hash key) (n - 1)) (2 ^ 31)); lia.
Qed.

Lemma streq_true (s t : string) : CString.streq s t = true ↔ s = t.
Proof. unfold CString.streq. apply bool_decide_eq_true. Qed.

Lemma item_list_get_item_Some head key item :
  item_list_get_item head key = Some item → item ∈ head ∧ item.1 = key.
Proof.
  induction head as [|it next IH]; cbn [item_list_get_item]; [discriminate|].
  destruct (CString.streq it.1 key) eqn:E.
  - intros [= <-]. split; [apply list_elem_of_here|].
    apply streq_true. exact E.
  - intros H. destruct (IH H) as [Hin Hk].
    split; [apply list_elem_of_further; exact Hin|exact Hk].
Qed.

Lemma item_list_get_item_None head key :
  item_list_get_item head key = None → key ∉ head.*1.
Proof.
  induction head as [|it next IH]; cbn [item_list_get_item].
  - intros _ Hin. inversion Hin.
  - destruct (CString.streq it.1 key) eqn:E; [discriminate|].
    intros H Hin. cbn [fmap list_fmap] in Hin.
    apply elem_of_cons in Hin as [Heq|Hin]; [|exact (IH H Hin)].
    apply not_true_iff_false in E. apply E. apply streq_true. congruence.
Qed.

Lemma item_list_set_Some head key value old head' :
  item_list_set head key value = Some (old, head') →
  ∃ rest, head ≡ₚ (key, old) :: rest ∧ head' ≡ₚ (key, value) :: rest.
Proof.
  revert old head'.
  induction head as [|it next IH]; intros old head'; cbn [item_list_set];
    [discriminate|].
  destruct (CString.streq it.1 key) eqn:E.
  - intros [= <- <-]. apply streq_true in E. exists next.
    destruct it as [k o]; cbn in *; subst k. split; reflexivity.
  - destruct (item_list_set next key value) as [[o n']|] eqn:En; [|discriminate].
    intros [= <- <-]. destruct (IH _ _ eq_refl) as (rest & H1 & H2).
    exists (it :: rest). split.
    + rewrite H1. apply perm_swap.
    + rewrite H2. apply perm_swap.
Qed.

Lemma item_list_set_None head key value :
  item_list_set head key value = None → key ∉ head.*1.
Proof.
  induction head as [|it next IH]; cbn [item_list_set].
  - intros _ Hin. inversion Hin.
  - destruct (CString.streq it.1 key) eqn:E; [discriminate|].
    destruct (item_list_set next key value) as [[o n']|]; [discriminate|].
    intros _ Hin. cbn [fmap list_fmap] in Hin.
    apply elem_of_cons in Hin as [Heq|Hin]; [|exact (IH eq_refl Hin)].
    apply not_true_iff_false in E. apply E. apply streq_true. congruence.
Qed.

Lemma item_list_remove_next_Some next key value next' :
  item_list_remove_next next key = Some (value, next') →
  next ≡ₚ (key, value) :: next'.
Proof.
  revert value next'.
  induction next as [|it rest IH]; intros value next';
    cbn [item_list_remove_next]; [discriminate|].
  destruct (CString.streq it.1 key) eqn:E.
  - intros [= <- <-]. apply streq_true in E.
    destruct it as [k o]; cbn in *; subst k. reflexivity.
  - destruct (item_list_remove_next rest key) as [[o r']|]; [|discriminate].
    intros [= <- <-]. rewrite (IH _ _ eq_refl). apply perm_swap.
Qed.

Lemma item_list_remove_next_None next key :
  item_list_remove_next next key = None → key ∉ next.*1.
Proof.
  induction next as [|it rest IH]; cbn [item_list_remove_next].
  - intros _ Hin. inversion Hin.
  - destruct (CString.streq it.1 key) eqn:E; [discriminate|].
    destruct (item_list_remove_next rest key) as [[o r']|]; [discriminate|].
    intros _ Hin. cbn [fmap list_fmap] in Hin.
    apply elem_of_cons in Hin as [Heq|Hin]; [|exact (IH eq_refl Hin)].
    apply not_true_iff_false in E. apply E. apply streq_true. congruence.
Qed.

Lemma join_insert_perm {A} (bs : list (list A)) i b :
  (i < length bs)%nat → mjoin (<[i := b]> bs) ≡ₚ b ++ mjoin (take i bs) ++ mjoin (drop (S i) bs).
Proof.
  intros Hi. rewrite insert_take_drop by exact Hi.
  rewrite join_app. cbn [mjoin list_join].
  rewrite !(assoc_L (++)). apply Permutation_app_tail. apply Permutation_app_comm.
Qed.

Lemma join_lookup_perm {A} (bs : list (list A)) i b :
  bs !! i = Some b →
  mjoin bs ≡ₚ b ++ mjoin (take i bs) ++ mjoin (drop (S i) bs).
Proof.
  intros Hb. rewrite <- (list_insert_id bs i b Hb) at 1.
  apply join_insert_perm. apply lookup_lt_Some in Hb. exact Hb.
Qed.

Lemma join_alter_perm {A} (bs : list (list A)) i x :
  (i < length bs)%nat → mjoin (alter (cons x) i bs) ≡ₚ x :: mjoin bs.
Proof.
  revert i. induction bs as [|b bs IH]; intros i Hi; [cbn in Hi; lia|].
  destruct i as [|i]; cbn; [reflexivity|].
  rewrite IH by (cbn in Hi; lia).
  symmetry. apply Permutation_middle.
Qed.

Section WithMap.
Variable hmap : HashMap V.
Hypothesis Hplaced : placed hmap.

Lemma bucket_of_key key :
  ∃ head, bucket hmap (bucket_index (num_buckets hmap) key) = Ok head
          ∧ buckets hmap !! Z.to_nat (bucket_index (num_buckets hmap) key)
            = Some head.
Proof.
  destruct Hplaced as [Hnum Hlen _ _ _].
  pose proof (bucket_index_range (num_buckets hmap) key ltac:(lia)) as Hr.
  unfold bucket. destruct (Z.ltb_spec (bucket_index (num_buckets hmap) key) 0);
    [lia|].
  destruct (buckets hmap !! Z.to_nat (bucket_index (num_buckets hmap) key))
    as [head|] eqn:E; [eauto|].
  apply lookup_ge_None in E. lia.
Qed.

Lemma key_in_its_bucket key head :
  buckets hmap !! Z.to_nat (bucket_index (num_buckets hmap) key) = Some head →
  key ∈ (items hmap).*1 → key ∈ head.*1.
Proof.
  intros Hhead Hin.
  apply list_elem_of_fmap in Hin as (item & -> & Hitem).
  unfold items in Hitem. apply list_elem_of_join in Hitem as (b & Hb & Hbs).
  apply list_elem_of_lookup in Hbs as (i & Hi).
  pose proof (placed_index hmap Hplaced i b item Hi Hb) as Hidx.
  subst i. assert (Heq : Some head = Some b)
    by (etrans; [symmetry; exact Hhead|exact Hi]).
  injection Heq as ->.
  apply list_elem_of_fmap. eauto.
Qed.

Lemma lookup_contents key head :
  buckets hmap !! Z.to_nat (bucket_index (num_buckets hmap) key) = Some head →
  contents hmap !! key = snd <$> item_list_get_item head key.
Proof.
  intros Hhead. unfold contents.
  destruct (item_list_get_item head key) as [item|] eqn:E; cbn [fmap option_fmap option_map].
  - apply item_list_get_item_Some in E as [Hin Hk].
    apply elem_of_list_to_map_1; [apply (placed_keys hmap Hplaced)|].
    unfold items. apply list_elem_of_join. exists head. split.
    + destruct item as [k o]; cbn in *; subst k. exact Hin.
    + apply list_elem_of_lookup. eauto.
  - apply not_elem_of_list_to_map_1. intros Hin.
    apply (item_list_get_item_None _ _ E).
    apply key_in_its_bucket; assumption.
Qed.

End WithMap.

Lemma join_replicate_nil {A} n : mjoin (replicate n ([] : list A)) = [].
Proof. induction n as [|n IH]; [reflexivity|exact IH]. Qed.

Lemma consistent_initial :
  consistent (V := V)
    {| buckets := replicate 32 []; size := 0; num_buckets := 32 |}.
Proof.
  split; [|cbn; lia]. constructor; cbn [buckets size num_buckets].
  - lia.
  - reflexivity.
  - intros i head item Hi Hin. apply lookup_replicate in Hi as [-> _].
    inversion Hin.
  - unfold items. cbn [buckets].
    rewrite (join_replicate_nil 32). apply NoDup_nil_2.
  - unfold items. cbn [buckets]. rewrite (join_replicate_nil 32). reflexivity.
Qed.

(** X20. On a well-placed map the bucket search is the lookup of the
    represented finite map: [hashmap_get] returns the value stored
    under the key and the null pointer for an absent key,
    [hashmap_contains] tells whether the key is present (also when the
    stored value is the null pointer), and [hashmap_size] is the number
    of keys. *)
Theorem hashmap_lookup_is_map_lookup (hmap : HashMap V) (key : string) :
  placed hmap →
  hashmap_get hmap key = Ok (default None (contents hmap !! key))
  ∧ hashmap_contains hmap key = Ok (bool_decide (is_Some (contents hmap !! key)))
  ∧ hashmap_size hmap = Z.of_nat (base.size (contents hmap)).
Proof.
  intros Hp. destruct (bucket_of_key hmap Hp key) as (head & Hb & Hl).
  pose proof (lookup_contents hmap Hp key head Hl) as Hc.
  unfold hashmap_get, hashmap_contains. rewrite Hb. cbn [result_bind].
  rewrite Hc. split; [|split].
  - destruct (item_list_get_item head key); reflexivity.
  - f_equal. apply bool_decide_ext.
    destruct (item_list_get_item head key); cbn; split; intros [x Hx];
      eauto; discriminate.
  - unfold hashmap_size, contents.
    rewrite map_size_list_to_map by apply (placed_keys hmap Hp).
    apply (placed_size hmap Hp).
Qed.

Lemma fmap_fst_perm (l k : list (Item V)) : l ≡ₚ k → l.*1 ≡ₚ k.*1.
Proof. intros H. rewrite H. reflexivity. Qed.

Lemma placed_with_bucket hmap i head (head' : list (Item V)) sz :
  placed hmap → buckets hmap !! i = Some head →
  (∀ item, item ∈ head' →
           Z.to_nat (bucket_index (num_buckets hmap) item.1) = i) →
  ∃ rest,
    items hmap ≡ₚ head ++ rest
    ∧ items {| buckets := <[i := head']> (buckets hmap); size := sz;
               num_buckets := num_buckets hmap |} ≡ₚ head' ++ rest
    ∧ (NoDup (head' ++ rest).*1 → sz = Z.of_nat (length (head' ++ rest)) →
       placed {| buckets := <[i := head']> (buckets hmap); size := sz;
                 num_buckets := num_buckets hmap |}).
Proof.
  intros Hp Hi Hidx.
  exists (mjoin (take i (buckets hmap)) ++ mjoin (drop (S i) (buckets hmap))).
  assert (Hlt : (i < length (buckets hmap))%nat) by (eapply lookup_lt_Some; eauto).
  split; [apply join_lookup_perm; exact Hi|].
  split; [apply join_insert_perm; exact Hlt|].
  intros Hnd Hsz. constructor; cbn [buckets size num_buckets].
  - apply (placed_num hmap Hp).
  - rewrite length_insert. apply (placed_length hmap Hp).
  - intros j hd item Hj Hin.
    destruct (decide (j = i)) as [->|Hne].
    + rewrite list_lookup_insert_eq in Hj by exact Hlt.
      injection Hj as <-. apply Hidx. exact Hin.
    + rewrite list_lookup_insert_ne in Hj by congruence.
      apply (placed_index hmap Hp j hd item Hj Hin).
  - unfold items. cbn [buckets].
    rewrite (join_insert_perm (buckets hmap) i head' Hlt). exact Hnd.
  - rewrite Hsz. f_equal. apply Permutation_length.
    symmetry. apply join_insert_perm. exact Hlt.
Qed.

Lemma rehash_placed n (l : list (Item V)) (bs : list (list (Item V))) :
  1 ≤ n < 2 ^ 31 → length bs = Z.to_nat n →
  (∀ i head item, bs !! i = Some head → item ∈ head →
                  Z.to_nat (bucket_index n item.1) = i) →
  length (foldl (reinsert n) bs l) = Z.to_nat n
  ∧ (∀ i head item, foldl (reinsert n) bs l !! i = Some head → item ∈ head →
                    Z.to_nat (bucket_index n item.1) = i)
  ∧ mjoin (foldl (reinsert n) bs l) ≡ₚ l ++ mjoin bs.
Proof.
  intros Hn. revert bs. induction l as [|x l IH]; intros bs Hlen Hidx.
  - cbn [foldl]. split; [exact Hlen|]. split; [exact Hidx|reflexivity].
  - cbn [foldl].
    pose proof (bucket_index_range n x.1 Hn) as Hr.
    assert (Hlt : (Z.to_nat (bucket_index n x.1) < length bs)%nat) by lia.
    destruct (IH (reinsert n bs x)) as (H1 & H2 & H3).
    + unfold reinsert. rewrite length_alter. exact Hlen.
    + unfold reinsert. intros i head item Hi Hin.
      destruct (decide (i = Z.to_nat (bucket_index n x.1))) as [->|Hne].
      * rewrite list_lookup_alter_eq in Hi.
        destruct (bs !! Z.to_nat (bucket_index n x.1)) as [b|] eqn:Eb;
          [|discriminate].
        injection Hi as <-. apply elem_of_cons in Hin as [->|Hin];
          [reflexivity|].
        apply (Hidx _ b item Eb Hin).
      * rewrite list_lookup_alter_ne in Hi by congruence.
        apply (Hidx _ head item Hi Hin).
    + split; [exact H1|]. split; [exact H2|].
      rewrite H3. unfold reinsert. rewrite join_alter_perm by exact Hlt.
      symmetry. apply Permutation_middle.
Qed.

Lemma resize_ok hmap :
  placed hmap → num_buckets hmap < 2 ^ 30 →
  4 * size hmap < 3 * num_buckets hmap + 4 →
  ∃ hmap', resize_if_necessary hmap = Ok hmap'
           ∧ consistent hmap'
           ∧ items hmap' ≡ₚ items hmap
           ∧ num_buckets hmap'
             = if 4 * size hmap <? 3 * num_buckets hmap
               then num_buckets hmap else 2 * num_buckets hmap.
Proof.
  intros Hp Hnb Hload. unfold resize_if_necessary.
  pose proof (placed_num hmap Hp) as Hnum.
  destruct (Z.ltb_spec (4 * size hmap) (3 * num_buckets hmap)) as [Hlt|Hge].
  - exists hmap. split; [reflexivity|]. split; [split; assumption|].
    split; reflexivity.
  - assert (Hdouble : to_int32 (wrap32 (num_buckets hmap * 2))
                      = 2 * num_buckets hmap).
    { rewrite wrap32_small by lia. unfold to_int32.
      destruct (Z.ltb_spec (num_buckets hmap * 2) (2 ^ 31)); lia. }
    cbv zeta. rewrite Hdouble. unfold create_new_buckets.
    destruct (Z.ltb_spec 0 (2 * num_buckets hmap)); [|lia].
    cbn [Decode.assert_msg result_bind].
    rewrite take_ge by (rewrite (placed_length hmap Hp); lia).
    destruct (rehash_placed (2 * num_buckets hmap) (mjoin (buckets hmap))
                (replicate (Z.to_nat (2 * num_buckets hmap)) []))
      as (H1 & H2 & H3).
    + lia.
    + apply length_replicate.
    + intros i head item Hi Hin. apply lookup_replicate in Hi as [-> _].
      inversion Hin.
    + rewrite join_replicate_nil, app_nil_r in H3.
      eexists. split; [reflexivity|].
      assert (Hpl : placed
        {| buckets := foldl (reinsert (2 * num_buckets hmap))
                        (replicate (Z.to_nat (2 * num_buckets hmap)) [])
                        (mjoin (buckets hmap));
           size := size hmap; num_buckets := 2 * num_buckets hmap |}).
      { constructor; cbn [buckets size num_buckets].
        - lia.
        - exact H1.
        - exact H2.
        - unfold items. cbn [buckets]. rewrite H3.
          apply (placed_keys hmap Hp).
        - rewrite (placed_size hmap Hp). f_equal. apply Permutation_length.
          symmetry. exact H3. }
      split; [split; [exact Hpl|cbn [size num_buckets]; lia]|].
      split; [exact H3|reflexivity].
Qed.

Lemma size_range hmap :
  placed hmap → 4 * size hmap < 3 * num_buckets hmap →
  0 ≤ size hmap < 2 ^ 31 - 1.
Proof.
  intros Hp Hload. pose proof (placed_num hmap Hp).
  rewrite (placed_size hmap Hp) in *. lia.
Qed.

Lemma int_of_small z : 0 ≤ z < 2 ^ 31 → to_int32 (wrap32 z) = z.
Proof.
  intros Hz. rewrite wrap32_small by lia. unfold to_int32.
  destruct (Z.ltb_spec z (2 ^ 31)); lia.
Qed.

Lemma insert_new_ok hmap key value head :
  consistent hmap → num_buckets hmap < 2 ^ 30 →
  buckets hmap !! Z.to_nat (bucket_index (num_buckets hmap) key) = Some head →
  key ∉ head.*1 →
  ∃ hmap', insert_new hmap (bucket_index (num_buckets hmap) key) head key value
           = Ok (None, hmap')
           ∧ consistent hmap'
           ∧ contents hmap' = <[key := value]> (contents hmap)
           ∧ contents hmap !! key = None
           ∧ num_buckets hmap'
             = if 4 * (size hmap + 1) <? 3 * num_buckets hmap
               then num_buckets hmap else 2 * num_buckets hmap.
Proof.
  intros [Hp Hload] Hnb Hhead Hfresh. unfold insert_new.
  pose proof (size_range hmap Hp Hload) as Hsz.
  rewrite int_of_small by lia.
  assert (Hnew : key ∉ (items hmap).*1).
  { intros Hin. apply Hfresh. apply (key_in_its_bucket hmap Hp); assumption. }
  destruct (placed_with_bucket hmap _ head ((key, value) :: head)
              (size hmap + 1) Hp Hhead) as (rest & Hold & Hnew' & Hpl).
  { intros item Hin. apply elem_of_cons in Hin as [->|Hin]; [reflexivity|].
    apply (placed_index hmap Hp _ head item Hhead Hin). }
  assert (Hkeys : NoDup (((key, value) :: head) ++ rest).*1).
  { cbn [app fmap list_fmap]. apply NoDup_cons. split.
    - intros Hin. apply Hnew. rewrite (fmap_fst_perm _ _ Hold). exact Hin.
    - rewrite <- (fmap_fst_perm _ _ Hold). apply (placed_keys hmap Hp). }
  assert (Hlen : size hmap + 1 = Z.of_nat (length (((key, value) :: head) ++ rest))).
  { pose proof (Permutation_length Hold) as Hl0.
    pose proof (placed_size hmap Hp) as Hs0.
    cbn [app length]. rewrite length_app in *. unfold Item in *. lia. }
  specialize (Hpl Hkeys Hlen).
  destruct (resize_ok _ Hpl) as (hmap' & Hres & Hcons & Hitems & Hnum).
  { exact Hnb. }
  { cbn [size num_buckets]. lia. }
  match goal with
  | |- context [resize_if_necessary ?h] =>
      replace (resize_if_necessary h) with (Ok hmap') by (symmetry; exact Hres)
  end.
  cbn [result_bind]. exists hmap'.
  split; [reflexivity|]. split; [exact Hcons|]. split; [|split].
  - unfold contents.
    rewrite (list_to_map_proper (items hmap') ((key, value) :: items hmap)).
    + apply list_to_map_cons.
    + apply (placed_keys hmap' (proj1 Hcons)).
    + rewrite Hitems, Hnew', Hold. reflexivity.
  - apply not_elem_of_list_to_map_1. exact Hnew.
  - exact Hnum.
Qed.

(** X21. [hashmap_set] on a consistent map with room to double is the
    insertion into the represented finite map, resizing included: it
    returns the value the key had (the null pointer for a new key), the
    new map is consistent and represents the old one with the key bound
    to the value, and the number of buckets doubles exactly when a new
    key brings the load to 3/4. *)
Theorem hashmap_set_is_map_insert (hmap : HashMap V) (key : string)
    (value : option V) :
  consistent hmap → num_buckets hmap < 2 ^ 30 →
  ∃ hmap', hashmap_set hmap key value
           = Ok (default None (contents hmap !! key), hmap')
           ∧ consistent hmap'
           ∧ contents hmap' = <[key := value]> (contents hmap)
           ∧ num_buckets hmap'
             = if bool_decide (is_Some (contents hmap !! key))
                  || (4 * (size hmap + 1) <? 3 * num_buckets hmap)
               then num_buckets hmap else 2 * num_buckets hmap.
Proof.
  intros Hc Hnb. pose proof Hc as [Hp Hload].
  destruct (bucket_of_key hmap Hp key) as (head & Hb & Hl).
  unfold hashmap_set. rewrite Hb. cbn [result_bind].
  assert (Hnew : key ∉ head.*1 →
    ∃ hmap', insert_new hmap (bucket_index (num_buckets hmap) key) head key value
             = Ok (default None (contents hmap !! key), hmap')
             ∧ consistent hmap'
             ∧ contents hmap' = <[key := value]> (contents hmap)
             ∧ num_buckets hmap'
               = if bool_decide (is_Some (contents hmap !! key))
                    || (4 * (size hmap + 1) <? 3 * num_buckets hmap)
                 then num_buckets hmap else 2 * num_buckets hmap).
  { intros Hfresh.
    destruct (insert_new_ok hmap key value head Hc Hnb Hl Hfresh)
      as (hmap' & H1 & H2 & H3 & H4 & H5).
    exists hmap'. rewrite H4. cbn [default from_option].
    rewrite bool_decide_eq_false_2 by (intros [x Hx]; discriminate).
    cbn [orb]. auto. }
  destruct head as [|item next].
  { apply Hnew. intros Hin. inversion Hin. }
  destruct (item_list_set (item :: next) key value) as [[old head']|] eqn:Eset.
  2:{ apply Hnew. eapply item_list_set_None. exact Eset. }
  apply item_list_set_Some in Eset as (rest0 & Hhead & Hhead').
  destruct (placed_with_bucket hmap _ (item :: next) head' (size hmap) Hp Hl)
    as (rest & Hold & Hnew' & Hpl).
  { intros it Hin. rewrite Hhead' in Hin.
    apply elem_of_cons in Hin as [->|Hin]; [reflexivity|].
    apply (placed_index hmap Hp _ (item :: next) it Hl).
    rewrite Hhead. apply list_elem_of_further. exact Hin. }
  assert (Hkeys : NoDup (head' ++ rest).*1).
  { rewrite Hhead'. cbn [app fmap list_fmap].
    pose proof (placed_keys hmap Hp) as Hnd0.
    rewrite Hold, Hhead in Hnd0. exact Hnd0. }
  assert (Hlen : size hmap = Z.of_nat (length (head' ++ rest))).
  { pose proof (Permutation_length Hold) as Hl0.
    pose proof (Permutation_length Hhead) as Hl1.
    pose proof (Permutation_length Hhead') as Hl2.
    pose proof (placed_size hmap Hp) as Hs0.
    rewrite length_app in *. cbn [length] in *. unfold Item in *. lia. }
  specialize (Hpl Hkeys Hlen).
  assert (Hm : contents hmap = <[key := old]> (list_to_map (rest0 ++ rest))).
  { unfold contents.
    rewrite (list_to_map_proper (items hmap) ((key, old) :: rest0 ++ rest)).
    - apply list_to_map_cons.
    - apply (placed_keys hmap Hp).
    - rewrite Hold, Hhead. reflexivity. }
  eexists. split; [|split; [split; [exact Hpl|exact Hload]|split]].
  - rewrite Hm, lookup_insert_eq. reflexivity.
  - unfold contents at 1.
    rewrite (list_to_map_proper _ ((key, value) :: rest0 ++ rest)).
    + rewrite list_to_map_cons, Hm, insert_insert_eq. reflexivity.
    + apply (placed_keys _ Hpl).
    + rewrite Hnew', Hhead'. reflexivity.
  - cbn [num_buckets]. rewrite Hm, lookup_insert_eq.
    rewrite bool_decide_eq_true_2 by eauto. reflexivity.
Qed.

(** X22. [hashmap_remove] on a consistent map is the deletion from the
    represented finite map: it returns the value the key had (the null
    pointer when the key is absent, and then the map is unchanged),
    the new map is consistent, and the number of buckets never
    shrinks. *)
Theorem hashmap_remove_is_map_delete (hmap : HashMap V) (key : string) :
  consistent hmap →
  ∃ hmap', hashmap_remove hmap key
           = Ok (default None (contents hmap !! key), hmap')
           ∧ consistent hmap'
           ∧ contents hmap' = delete key (contents hmap)
           ∧ num_buckets hmap' = num_buckets hmap.
Proof.
  intros Hc. pose proof Hc as [Hp Hload].
  destruct (bucket_of_key hmap Hp key) as (head & Hb & Hl).
  pose proof (size_range hmap Hp Hload) as Hsz.
  unfold hashmap_remove. rewrite Hb. cbn [result_bind]. cbv zeta.
  assert (Habsent : key ∉ head.*1 →
    ∃ hmap', Ok (None, hmap) = Ok (default None (contents hmap !! key), hmap')
             ∧ consistent hmap'
             ∧ contents hmap' = delete key (contents hmap)
             ∧ num_buckets hmap' = num_buckets hmap).
  { intros Hfresh.
    assert (Hnone : contents hmap !! key = None).
    { apply not_elem_of_list_to_map_1. intros Hin. apply Hfresh.
      apply (key_in_its_bucket hmap Hp); assumption. }
    exists hmap. rewrite Hnone. split; [reflexivity|]. split; [exact Hc|].
    split; [|reflexivity]. symmetry. apply delete_id. exact Hnone. }
  assert (Hfound : ∀ old head',
    head ≡ₚ (key, old) :: head' →
    ∃ hmap', Ok (old, {| buckets :=
                           <[Z.to_nat (bucket_index (num_buckets hmap) key)
                             := head']> (buckets hmap);
                         size := to_int32 (wrap32 (size hmap - 1));
                         num_buckets := num_buckets hmap |})
             = Ok (default None (contents hmap !! key), hmap')
             ∧ consistent hmap'
             ∧ contents hmap' = delete key (contents hmap)
             ∧ num_buckets hmap' = num_buckets hmap).
  { intros old head' Hhead.
    destruct (placed_with_bucket hmap _ head head'
                (to_int32 (wrap32 (size hmap - 1))) Hp Hl)
      as (rest & Hold & Hnew' & Hpl).
    { intros it Hin. apply (placed_index hmap Hp _ head it Hl).
      rewrite Hhead. apply list_elem_of_further. exact Hin. }
    assert (Hall : NoDup (key :: (head' ++ rest).*1)).
    { pose proof (placed_keys hmap Hp) as Hnd0.
      rewrite Hold, Hhead in Hnd0. exact Hnd0. }
    apply NoDup_cons in Hall as [Hnotin Hkeys].
    assert (Hlen : size hmap = Z.of_nat (S (length (head' ++ rest)))).
    { pose proof (Permutation_length Hold) as Hl0.
      pose proof (Permutation_length Hhead) as Hl1.
      pose proof (placed_size hmap Hp) as Hs0.
      rewrite length_app in *. cbn [length] in *. unfold Item in *. lia. }
    rewrite int_of_small in Hpl |- * by lia.
    assert (Hpl' := Hpl Hkeys ltac:(lia)).
    assert (Hm : contents hmap = <[key := old]> (list_to_map (head' ++ rest))).
    { unfold contents.
      rewrite (list_to_map_proper (items hmap) ((key, old) :: head' ++ rest)).
      - apply list_to_map_cons.
      - apply (placed_keys hmap Hp).
      - rewrite Hold, Hhead. reflexivity. }
    eexists. split; [|split; [split; [exact Hpl'|cbn [size num_buckets]; lia]|
                       split; [|reflexivity]]].
    - rewrite Hm, lookup_insert_eq. reflexivity.
    - unfold contents at 1.
      rewrite (list_to_map_proper _ (head' ++ rest)).
      + rewrite Hm, delete_insert_eq. symmetry. apply delete_id.
        apply not_elem_of_list_to_map_1. exact Hnotin.
      + apply (placed_keys _ Hpl').
      + exact Hnew'. }
  destruct head as [|item next].
  { apply Habsent. intros Hin. inversion Hin. }
  destruct (CString.streq item.1 key) eqn:E.
  { apply streq_true in E. apply Hfound.
    destruct item as [k o]; cbn in *; subst k. reflexivity. }
  destruct (item_list_remove_next next key) as [[v next']|] eqn:En.
  - apply Hfound. rewrite (item_list_remove_next_Some _ _ _ _ En).
    apply perm_swap.
  - apply Habsent. cbn [fmap list_fmap]. intros Hin.
    apply elem_of_cons in Hin as [Heq|Hin].
    + apply not_true_iff_false in E. apply E. apply streq_true. congruence.
    + exact (item_list_remove_next_None _ _ En Hin).
Qed.

(** A map with a single item in the bucket of its hash is consistent. *)
Lemma consistent_one_item (key : string) (value : option V) :
  consistent
    {| buckets := <[Z.to_nat (bucket_index 32 key) := [(key, value)]]>
                    (replicate 32 []);
       size := 1;
       num_buckets := 32 |}.
Proof.
  pose proof consistent_initial as [Hp _].
  pose proof (bucket_index_range 32 key ltac:(lia)) as Hr.
  destruct (placed_with_bucket _ (Z.to_nat (bucket_index 32 key)) []
              [(key, value)] 1 Hp) as (rest & Hold & _ & Hpl).
  { cbn [buckets num_buckets]. apply lookup_replicate. split; [reflexivity|lia]. }
  { cbn [num_buckets]. intros item Hin.
    apply list_elem_of_singleton in Hin. subst item. reflexivity. }
  assert (Hrest : rest = []).
  { unfold items in Hold. cbn [buckets] in Hold.
    rewrite (join_replicate_nil 32) in Hold. cbn [app] in Hold.
    symmetry. apply Permutation_nil_l. exact Hold. }
  subst rest. split; [|cbn; lia].
  apply Hpl.
  - cbn. apply NoDup_singleton.
  - reflexivity.
Qed.

(** X23. [hashmap_init] yields a consistent map with 32 buckets that
    represents the empty map, and [hashmap_clear] turns every map into
    that same map. *)
Theorem hashmap_init_and_clear :
  ∃ empty : HashMap V,
    hashmap_init = Ok empty
    ∧ consistent empty ∧ contents empty = ∅
    ∧ num_buckets empty = 32
    ∧ ∀ hmap, hashmap_clear hmap = Ok empty.
Proof.
  exists {| buckets := replicate 32 []; size := 0; num_buckets := 32 |}.
  split; [reflexivity|]. split; [apply consistent_initial|].
  split; [|split; [reflexivity|intros hmap; reflexivity]].
  unfold contents, items. cbn [buckets].
  rewrite (join_replicate_nil 32). reflexivity.
Qed.

End HashmapFacts.

Section HashmapWitnesses.
Import Hashmap.

Lemma hashmap_lookup_is_map_lookup_witness :
  hashmap_set {| buckets := replicate 32 []; size := 0; num_buckets := 32 |}
    "end" (Some 8) = Ok (None, one_label)
  ∧ contents one_label !! "end" = Some (Some 8)
  ∧ hashmap_get one_label "end" = Ok (Some 8)
  ∧ hashmap_get one_label "end"
    = Ok (default None (contents one_label !! "end"))
  ∧ hashmap_contains one_label "end"
    = Ok (bool_decide (is_Some (contents one_label !! "end")))
  ∧ hashmap_size one_label = Z.of_nat (base.size (contents one_label)).
Proof.
  split; [vm_compute; reflexivity|].
  split; [vm_compute; reflexivity|].
  split; [vm_compute; reflexivity|].
  apply (hashmap_lookup_is_map_lookup one_label "end").
  apply (consistent_one_item "end" (Some 8)).
Defined.

Lemma hashmap_set_is_map_insert_witness :
  let empty : HashMap Z :=
    {| buckets := replicate 32 []; size := 0; num_buckets := 32 |} in
  ∃ hmap', hashmap_set empty "end" (Some 8)
           = Ok (default None (contents empty !! "end"), hmap')
           ∧ consistent hmap'
           ∧ contents hmap' = <["end" := Some 8]> (contents empty)
           ∧ num_buckets hmap'
             = if bool_decide (is_Some (contents empty !! "end"))
                  || (4 * (size empty + 1) <? 3 * num_buckets empty)
               then num_buckets empty else 2 * num_buckets empty.
Proof.
  apply (hashmap_set_is_map_insert
           {| buckets := replicate 32 []; size := 0; num_buckets := 32 |}
           "end" (Some 8)); [apply consistent_initial|cbn; lia].
Defined.

Lemma hashmap_remove_is_map_delete_witness :
  contents one_label !! "end" = Some (Some 8)
  ∧ hashmap_remove one_label "end"
    = Ok (Some 8,
          {| buckets := replicate 32 []; size := 0; num_buckets := 32 |})
  ∧ ∃ hmap', hashmap_remove one_label "end"
             = Ok (default None (contents one_label !! "end"), hmap')
             ∧ consistent hmap'
             ∧ contents hmap' = delete "end" (contents one_label)
             ∧ num_buckets hmap' = num_buckets one_label.
Proof.
  split; [vm_compute; reflexivity|].
  split; [vm_compute; reflexivity|].
  apply (hashmap_remove_is_map_delete one_label "end").
  apply (consistent_one_item "end" (Some 8)).
Defined.

End HashmapWitnesses.

(** ** The state of the assembler between two lines *)

Section AssemblerInvariant.
Import SymbolTable Decode Assemble.

Lemma decode_emits_at_most_one line a a' :
  decode line a = Ok a' →
  (length (instructions a') ≤ S (length (instructions a)))%nat.
Proof.
  intros H. destruct (decode_inv _ _ _ H)
    as [(label & st' & ins' & Hadd & ->)|(w & st' & _ & ->)]; cbn.
  - destruct (symbol_table_add_label_inv _ _ _ _ _ _ Hadd) as (_ & _ & Hrun).
    destruct (modify_lines_frame _ _ _ _ Hrun) as [Hlen _]. lia.
  - rewrite length_app. cbn. lia.
Qed.

Lemma for_each_line_emits_at_most lines a a' :
  for_each_line lines a = Ok a' →
  (length (instructions a') ≤ length (instructions a) + length lines)%nat.
Proof.
  revert a. induction lines as [|line lines IH]; intros a; cbn [for_each_line].
  - intros [= <-]. lia.
  - destruct (decode line a) as [a1|] eqn:Hd; [|discriminate].
    cbn [result_bind]. intros Hrest.
    apply decode_emits_at_most_one in Hd. apply IH in Hrest.
    cbn [length]. lia.
Qed.

(** X24. Whatever lines the assembler has accepted from its initial
    state, as long as the emitted words fit the 32-bit address space:
    the current address is four times the number of emitted words,
    every recorded reference is the aligned address of an emitted word
    and belongs to one label, every reference to a label that is still
    undefined points at a word whose displacement field holds zero, and
    no more words were emitted than lines were read. *)
Theorem assembler_state_invariant (lines : list string) (a : assembler) :
  for_each_line lines decode_init = Ok a →
  4 * Z.of_nat (length (instructions a)) < 2 ^ 32 →
  well_formed a ∧ (length (instructions a) ≤ length lines)%nat.
Proof.
  intros Hrun Hb. split.
  - exact (for_each_line_well_formed lines decode_init a Hrun well_formed_init Hb).
  - apply for_each_line_emits_at_most in Hrun. cbn in Hrun. exact Hrun.
Qed.

Lemma assembler_state_invariant_witness :
  well_formed Scenario.dangling_branch_state
  ∧ (length (instructions Scenario.dangling_branch_state)
     ≤ length ["b foo"])%nat.
Proof.
  apply (assembler_state_invariant ["b foo"] Scenario.dangling_branch_state);
    [vm_compute; reflexivity|cbn; lia].
Defined.
End AssemblerInvariant.

(** ** A wide move through the assembler and the emulator *)

Section RoundTrip.
Import Register Cpu Decode.

Lemma get_zero f : get f 0 = 0.
Proof. unfold get, field. rewrite Z.shiftr_0_l. apply Z.land_0_l. Qed.

Ltac fields :=
  repeat first
    [ rewrite get_put_same by (cbn; lia)
    | rewrite get_put_disjoint by (unfold disjoint_fields; cbn; lia)
    | rewrite get_zero ].

(** X25. [movz rd, #imm] through both programs: for operand strings
    that read as a register 0..30 and as an immediate below [2^16], the
    assembler emits a 32-bit word and leaves the symbol table alone,
    and the emulator executing that word writes the immediate to the
    register and changes nothing else. *)
Theorem movz_assembled_then_executed
    (st : symbol_table) (cur : Z) (op1 op2 : string) (rd : Z) (s : machine) :
  read_reg_value op1 = Ok rd → 0 ≤ rd < 31 →
  read_imm_value op2 < 2 ^ 16 →
  ∃ w, determine_and_assemble st cur "movz"
         [Some op1; Some op2; None; None; None] = Ok (w, st)
       ∧ 0 ≤ w < 2 ^ 32
       ∧ decode_and_execute w s
         = Ok (tt, with_gen_registers
                     (<[Z.to_nat rd := read_imm_value op2]> (gen_registers s)) s).
Proof.
  intros Hrd Hr Himm.
  assert (Himm0 : 0 ≤ read_imm_value op2).
  { unfold read_imm_value.
    destruct (is_hex_number _); apply wrap32_range. }
  unfold determine_and_assemble.
  change (is_directive "movz") with false.
  change (is_opcode "movz" ["add"; "adds"; "sub"; "subs"]) with false.
  change (is_opcode "movz" ["madd"; "msub"]) with false.
  change (is_opcode "movz"
            ["and"; "ands"; "bic"; "bics"; "orn"; "orr"; "eor"; "eon"])
    with false.
  change (is_opcode "movz" ["movn"; "movz"; "movk"]) with true.
  cbv iota.
  unfold assemble_wide_move, assert_num_opcodes, operand,
    OPERAND_1, OPERAND_2, OPERAND_3.
  cbn [take forallb lookup list_lookup default from_option id deref].
  rewrite !bool_decide_eq_true_2 by eauto.
  cbn [andb assert_msg result_bind].
  change (CString.streq "movz" "movn") with false.
  change (CString.streq "movz" "movk") with false.
  change (CString.streq "movz" "movz") with true. cbv iota.
  rewrite Hrd. cbn [result_bind].
  set (sf := bit_mode op1 op2).
  assert (Hsf : 0 ≤ sf < 2).
  { subst sf. unfold bit_mode.
    destruct (is_zero_register op1), (is_bit_mode_64 op1), (is_bit_mode_64 op2);
      cbn; lia. }
  set (w := put ImmWide.imm16 (read_imm_value op2) _).
  exists w. split; [reflexivity|]. split.
  { subst w. repeat (apply put_range; [unfold fits32; cbn; lia|]). lia. }
  assert (Hop0 : get (BitField 26 3) w = 4).
  { subst w. unfold ImmWide.imm16, ImmWide.rd, ImmWide.opc, ImmWide.sf,
      ImmWide.op0, ImmWide.opi. fields. reflexivity. }
  assert (Hopi : get (BitField 23 3) w = 5).
  { subst w. unfold ImmWide.imm16, ImmWide.rd, ImmWide.opc, ImmWide.sf,
      ImmWide.op0, ImmWide.opi. fields. reflexivity. }
  assert (Hopc : ImmWide.opc w = 2).
  { subst w. unfold ImmWide.imm16, ImmWide.rd, ImmWide.opc, ImmWide.sf,
      ImmWide.op0, ImmWide.opi. fields. reflexivity. }
  assert (Hhw : ImmWide.hw w = 0).
  { subst w. unfold ImmWide.imm16, ImmWide.rd, ImmWide.opc, ImmWide.sf,
      ImmWide.op0, ImmWide.opi, ImmWide.hw. fields. reflexivity. }
  assert (Hrdw : ImmWide.rd w = rd).
  { subst w. unfold ImmWide.imm16, ImmWide.rd, ImmWide.opc, ImmWide.sf,
      ImmWide.op0, ImmWide.opi. fields. cbn [width]. apply Z.mod_small. lia. }
  assert (Hi16 : ImmWide.imm16 w = read_imm_value op2).
  { subst w. unfold ImmWide.imm16, ImmWide.rd, ImmWide.opc, ImmWide.sf,
      ImmWide.op0, ImmWide.opi. fields. cbn [width]. apply Z.mod_small. lia. }
  unfold decode_and_execute.
  change (GeneralBranch.op0 w) with (get (BitField 26 3) w).
  change (GeneralDpImm.op0 w) with (get (BitField 26 3) w).
  change (ImmArith.opi w) with (get (BitField 23 3) w).
  change (ImmWide.opi w) with (get (BitField 23 3) w).
  rewrite Hop0, Hopi.
  change (4 =? ITP_BRANCH) with false. change (4 =? ITP_DP_IMM) with true.
  change (5 =? ITP_IMM_ARITH) with false. change (5 =? ITP_WIDE_MOVE) with true.
  cbv iota. unfold exec_wide_move.
  rewrite Hopc, Hhw, Hrdw, Hi16.
  change (2 =? ITP_MOVK) with false. change (2 =? ITP_MOVN) with false.
  cbv iota. change (0 * 16) with 0. rewrite Z.shiftl_0_r.
  rewrite (wrap64_small (read_imm_value op2)) by lia.
  rewrite set_reg_value_lt by lia.
  assert (Hval : (if ImmWide.sf w =? 0
                  then Z.land (read_imm_value op2) 4294967295
                  else read_imm_value op2) = read_imm_value op2).
  { destruct (ImmWide.sf w =? 0); [|reflexivity].
    change 4294967295 with (Z.ones 32). rewrite Z.land_ones by lia.
    apply Z.mod_small. lia. }
  rewrite Hval, wrap64_small by lia. reflexivity.
Qed.

Lemma movz_assembled_then_executed_witness :
  ∃ w, determine_and_assemble SymbolTable.symbol_table_init 0 "movz"
         [Some "x3"; Some "#5"; None; None; None]
       = Ok (w, SymbolTable.symbol_table_init)
       ∧ 0 ≤ w < 2 ^ 32
       ∧ decode_and_execute w (Scenario.machine_with 1 2)
         = Ok (tt, with_gen_registers
                     (<[Z.to_nat 3 := read_imm_value "#5"]>
                        (gen_registers (Scenario.machine_with 1 2)))
                     (Scenario.machine_with 1 2)).
Proof.
  apply (movz_assembled_then_executed SymbolTable.symbol_table_init 0
           "x3" "#5" 3 (Scenario.machine_with 1 2));
    [reflexivity|lia|vm_compute; reflexivity].
Defined.
End RoundTrip.

(** ** A store followed by the matching load *)

Section TransferFacts.
Import Register Cpu Memory.

Lemma get_reg_value_64_same_registers r x s s1 :
  gen_registers s1 = gen_registers s →
  get_reg_value_64 r s = Ok (x, s) → get_reg_value_64 r s1 = Ok (x, s1).
Proof.
  intros Hregs. unfold get_reg_value_64.
  destruct (wrap32 r =? NUM_REGISTERS); [intros [= <-]; reflexivity|].
  destruct (NUM_REGISTERS <? wrap32 r); [discriminate|].
  unfold bind, get_state, ret. rewrite Hregs. intros [= <-]. reflexivity.
Qed.

Lemma get_reg_value_32_of_64 r x s :
  get_reg_value_64 r s = Ok (x, s) → get_reg_value_32 r s = Ok (wrap32 x, s).
Proof.
  unfold get_reg_value_64, get_reg_value_32.
  destruct (wrap32 r =? NUM_REGISTERS); [intros [= <-]; reflexivity|].
  destruct (NUM_REGISTERS <? wrap32 r); [discriminate|].
  unfold bind, get_state, ret. intros [= <-]. reflexivity.
Qed.

Lemma get_after_set_double_word m a v :
  0 ≤ a → a + 8 ≤ NUM_OF_MEMORY_ADDRESS →
  ∃ m', set_double_word m a v = Ok m' ∧ get_double_word m' a = Ok (wrap64 v).
Proof.
  intros Ha Hb. change NUM_OF_MEMORY_ADDRESS with 2097152 in Hb.
  unfold set_double_word, get_double_word, sizeof_double_word.
  change NUM_OF_MEMORY_ADDRESS with 2097152.
  rewrite (wrap32_small a) by lia.
  destruct (Z.ltb_spec (2097152 - 8) a); [lia|].
  eexists. split; [reflexivity|]. f_equal.
  rewrite <- (length_object_bytes 8 (wrap64 v)) at 2.
  rewrite memcpy_from_memcpy_to, object_value_bytes.
  change (2 ^ (8 * Z.of_nat 8)) with (2 ^ 64).
  apply Z.mod_small. apply wrap64_range.
Qed.

Lemma get_after_set_word m a v :
  0 ≤ a → a + 4 ≤ NUM_OF_MEMORY_ADDRESS →
  ∃ m', set_word m a v = Ok m' ∧ get_word m' a = Ok (wrap32 v).
Proof.
  intros Ha Hb. change NUM_OF_MEMORY_ADDRESS with 2097152 in Hb.
  unfold set_word, get_word, sizeof_word.
  change NUM_OF_MEMORY_ADDRESS with 2097152.
  rewrite (wrap32_small a) by lia.
  destruct (Z.ltb_spec (2097152 - 4) a); [lia|].
  eexists. split; [reflexivity|]. f_equal.
  rewrite <- (length_object_bytes 4 (wrap32 v)) at 2.
  rewrite memcpy_from_memcpy_to, object_value_bytes.
  change (2 ^ (8 * Z.of_nat 4)) with (2 ^ 32).
  apply Z.mod_small. apply wrap32_range.
Qed.

(** X26. A store with an unsigned immediate offset followed by the load
    with the same base register, offset and width: when the addressed
    bytes lie inside the memory, the load writes to its target
    register (other than the zero register) the value the store took
    from its source register, in 32-bit mode its low 32 bits
    zero-extended.  The store changes no register and the load no
    memory. *)
Theorem store_then_load_imm_offset (store load : Z) (s : machine) (base v : Z) :
  DTImmOffset.L store = 0 → DTImmOffset.L load ≠ 0 →
  DTImmOffset.sf load = DTImmOffset.sf store →
  DTImmOffset.xn load = DTImmOffset.xn store →
  DTImmOffset.imm12 load = DTImmOffset.imm12 store →
  DTImmOffset.rt load ≠ 31 →
  get_reg_value_64 (DTImmOffset.xn store) s = Ok (base, s) →
  get_reg_value_64 (DTImmOffset.rt store) s = Ok (v, s) →
  0 ≤ v < 2 ^ 64 →
  let bytes := if DTImmOffset.sf store =? 0 then 4 else 8 in
  let address := (base + DTImmOffset.imm12 store * bytes) mod 2 ^ 32 in
  address + bytes ≤ NUM_OF_MEMORY_ADDRESS →
  ∃ s1 s2,
    exec_dt_imm_offset store s = Ok (tt, s1)
    ∧ exec_dt_imm_offset load s1 = Ok (tt, s2)
    ∧ gen_registers s1 = gen_registers s
    ∧ gen_registers s2
      = <[Z.to_nat (DTImmOffset.rt load) :=
            if DTImmOffset.sf store =? 0 then v mod 2 ^ 32 else v]>
          (gen_registers s)
    ∧ mem s2 = mem s1.
Proof.
  intros HLs HLl Hsf Hxn Himm Hrt Hbase Hv Hvr bytes address Hbound.
  assert (Haddr : ∀ k, wrap32 (wrap64 (base + DTImmOffset.imm12 store * k))
                       = (base + DTImmOffset.imm12 store * k) mod 2 ^ 32).
  { intros k. apply wrap32_wrap64. }
  assert (Hpos : 0 ≤ address) by (apply Z.mod_pos_bound; lia).
  assert (Hrtl : 0 ≤ DTImmOffset.rt load < 31).
  { pose proof (field_range 0 5 load ltac:(lia)) as Hr.
    unfold DTImmOffset.rt, get in *. cbn [lo width] in *.
    change (2 ^ 5) with 32 in Hr. lia. }
  apply Z.eqb_neq in HLl.
  unfold exec_dt_imm_offset.
  rewrite (bind_Ok _ _ _ _ _ Hbase).
  rewrite Hsf, Hxn, Himm, HLs, HLl. cbn [negb Z.eqb]. cbv iota.
  subst bytes address.
  unfold sizeof_double_word, sizeof_word. rewrite !Haddr.
  destruct (DTImmOffset.sf store =? 0) eqn:Esf; cbn [negb]; cbv iota.
  - destruct (get_after_set_word (mem s) _ (wrap32 v) Hpos Hbound)
      as (m' & Hset & Hget).
    unfold store_word, load_word.
    rewrite (bind_Ok _ _ _ _ _ (get_reg_value_32_of_64 _ _ _ Hv)).
    unfold write_mem. rewrite Hset.
    eexists _, _. split; [reflexivity|].
    rewrite (bind_Ok _ _ (with_mem m' s) base (with_mem m' s))
      by (apply (get_reg_value_64_same_registers _ _ s); [reflexivity|exact Hbase]).
    rewrite !Haddr.
    unfold bind at 1. unfold read_mem. cbn [mem with_mem].
    assert (Hget' : get_word m' ((base + DTImmOffset.imm12 store * 4) mod 2 ^ 32)
                    = Ok (wrap32 v)).
    { rewrite Hget. f_equal. unfold wrap32. apply Z.mod_mod. lia. }
    rewrite Hget'. rewrite set_reg_value_lt by lia.
    split; [reflexivity|]. split; [reflexivity|].
    cbn [gen_registers with_gen_registers with_mem mem].
    rewrite wrap64_small by (pose proof (wrap32_range v); lia).
    split; reflexivity.
  - destruct (get_after_set_double_word (mem s) _ v Hpos Hbound)
      as (m' & Hset & Hget).
    unfold store_double_word, load_double_word.
    rewrite (bind_Ok _ _ _ _ _ Hv).
    unfold write_mem. rewrite Hset.
    eexists _, _. split; [reflexivity|].
    rewrite (bind_Ok _ _ (with_mem m' s) base (with_mem m' s))
      by (apply (get_reg_value_64_same_registers _ _ s); [reflexivity|exact Hbase]).
    rewrite !Haddr.
    unfold bind at 1. unfold read_mem. cbn [mem with_mem].
    rewrite Hget. rewrite set_reg_value_lt by lia.
    split; [reflexivity|]. split; [reflexivity|].
    cbn [gen_registers with_gen_registers with_mem mem].
    rewrite !wrap64_small by (rewrite ?wrap64_small by lia; lia).
    split; reflexivity.
Qed.
Lemma store_then_load_imm_offset_witness :
  ∃ s1 s2,
    exec_dt_imm_offset 0xF9000420
      (Scenario.machine_with 0x1122334455667788 0x100) = Ok (tt, s1)
    ∧ exec_dt_imm_offset 0xF9400422 s1 = Ok (tt, s2)
    ∧ gen_registers s1
      = gen_registers (Scenario.machine_with 0x1122334455667788 0x100)
    ∧ gen_registers s2
      = <[Z.to_nat (DTImmOffset.rt 0xF9400422) :=
            if DTImmOffset.sf 0xF9000420 =? 0
            then 0x1122334455667788 mod 2 ^ 32 else 0x1122334455667788]>
          (gen_registers (Scenario.machine_with 0x1122334455667788 0x100))
    ∧ mem s2 = mem s1.
Proof.
  apply (store_then_load_imm_offset 0xF9000420 0xF9400422
           (Scenario.machine_with 0x1122334455667788 0x100)
           0x100 0x1122334455667788);
    try reflexivity; try lia; vm_compute; discriminate.
Defined.

End TransferFacts.

(** ** Logical operations *)

Section LogicFacts.
Import Cpu.

(** X28. Bit [i] of the result of [apply_logic] on 64-bit operands is
    the and, or or exclusive or of bit [i] of the first operand and bit
    [i] of the second, the latter complemented when [N] is set; the
    result is a 64-bit value.  The same holds for the low 32 bits that
    the 32-bit instructions keep of it. *)
Theorem logic_bits (a b opc N i : Z) :
  0 ≤ a < 2 ^ 64 → 0 ≤ b < 2 ^ 64 → 0 ≤ opc < 4 → 0 ≤ i < 64 →
  let bit := if (opc =? ITP_AND) || (opc =? ITP_AND_W_FLAGS)
             then Z.testbit a i && xorb (negb (N =? 0)) (Z.testbit b i)
             else if opc =? ITP_OR
             then Z.testbit a i || xorb (negb (N =? 0)) (Z.testbit b i)
             else xorb (Z.testbit a i) (xorb (negb (N =? 0)) (Z.testbit b i)) in
  Z.testbit (apply_logic a b opc N) i = bit
  ∧ 0 ≤ apply_logic a b opc N < 2 ^ 64
  ∧ (i < 32 → Z.testbit (wrap32 (apply_logic a b opc N)) i = bit).
Proof.
  intros Ha Hb Hopc Hi bit.
  set (b' := if negb (N =? 0) then wrap64 (Z.lnot b) else b).
  assert (Hb' : 0 ≤ b' < 2 ^ 64).
  { subst b'. destruct (negb (N =? 0)); [apply wrap64_range|exact Hb]. }
  assert (Hbit' : ∀ j, 0 ≤ j < 64 →
            Z.testbit b' j = xorb (negb (N =? 0)) (Z.testbit b j)).
  { intros j Hj. subst b'. destruct (negb (N =? 0)); cbn [xorb].
    - unfold wrap64. rewrite Z.mod_pow2_bits_low, Z.lnot_spec by lia.
      reflexivity.
    - reflexivity. }
  assert (Hres : apply_logic a b opc N
                 = if (opc =? ITP_AND) || (opc =? ITP_AND_W_FLAGS)
                   then Z.land a b'
                   else if opc =? ITP_OR then Z.lor a b' else Z.lxor a b').
  { unfold apply_logic. rewrite (wrap64_small a), (wrap64_small b) by lia.
    reflexivity. }
  assert (Hhigh : ∀ x, 0 ≤ x < 2 ^ 64 → ∀ j, 64 ≤ j → Z.testbit x j = false).
  { intros x Hx j Hj. apply (testbit_high_zero 64); lia. }
  assert (Hrange : 0 ≤ apply_logic a b opc N < 2 ^ 64).
  { rewrite Hres.
    assert (Hx : ∀ x, 0 ≤ x → (∀ j, 64 ≤ j → Z.testbit x j = false) →
                      0 ≤ x < 2 ^ 64).
    { intros x Hx Hj. split; [exact Hx|].
      apply (Z.bounded_iff_bits_nonneg 64); [lia|exact Hx|exact Hj]. }
    destruct ((opc =? ITP_AND) || (opc =? ITP_AND_W_FLAGS));
      [|destruct (opc =? ITP_OR)]; apply Hx.
    - apply Z.land_nonneg. left. lia.
    - intros j Hj. rewrite Z.land_spec, (Hhigh a Ha j Hj). reflexivity.
    - apply Z.lor_nonneg. lia.
    - intros j Hj. rewrite Z.lor_spec, (Hhigh a Ha j Hj), (Hhigh b' Hb' j Hj).
      reflexivity.
    - apply Z.lxor_nonneg. lia.
    - intros j Hj. rewrite Z.lxor_spec, (Hhigh a Ha j Hj), (Hhigh b' Hb' j Hj).
      reflexivity. }
  assert (Hbit : Z.testbit (apply_logic a b opc N) i = bit).
  { rewrite Hres. subst bit.
    destruct ((opc =? ITP_AND) || (opc =? ITP_AND_W_FLAGS));
      [|destruct (opc =? ITP_OR)];
      rewrite ?Z.land_spec, ?Z.lor_spec, ?Z.lxor_spec, Hbit' by lia;
      reflexivity. }
  split; [exact Hbit|]. split; [exact Hrange|].
  intros Hi32. unfold wrap32. rewrite Z.mod_pow2_bits_low by lia. exact Hbit.
Qed.

Lemma logic_bits_witness :
  let bit := if (ITP_OR =? ITP_AND) || (ITP_OR =? ITP_AND_W_FLAGS)
             then Z.testbit 12 2 && xorb (negb (1 =? 0)) (Z.testbit 10 2)
             else if ITP_OR =? ITP_OR
             then Z.testbit 12 2 || xorb (negb (1 =? 0)) (Z.testbit 10 2)
             else xorb (Z.testbit 12 2) (xorb (negb (1 =? 0)) (Z.testbit 10 2)) in
  Z.testbit (apply_logic 12 10 ITP_OR 1) 2 = bit
  ∧ 0 ≤ apply_logic 12 10 ITP_OR 1 < 2 ^ 64
  ∧ (2 < 32 → Z.testbit (wrap32 (apply_logic 12 10 ITP_OR 1)) 2 = bit).
Proof. apply (logic_bits 12 10 ITP_OR 1 2); unfold ITP_OR; lia. Defined.
End LogicFacts.

(** ** Loads with write-back *)

Section IndexedFacts.
Import Register Cpu Memory.

Lemma field5_register (f : bitfield) inst :
  width f = 5 → 0 ≤ lo f → get f inst ≠ 31 → 0 ≤ get f inst < 31.
Proof.
  intros Hw Hlo Hne. pose proof (field_range (lo f) 5 inst ltac:(lia)) as Hr.
  unfold get in *. rewrite Hw in *. change (2 ^ 5) with 32 in Hr. lia.
Qed.

(** X29. The 64-bit loads with write-back.  The pre-index form adds the
    sign-extended offset first, truncates the sum to a 32-bit address,
    writes that address back to the base register and loads from it;
    when target and base are the same register the loaded value is the
    one that stays.  The post-index form loads from the base truncated
    to 32 bits and then writes that address plus the offset, reduced
    modulo [2^64], back to the base register. *)
Theorem indexed_load_addressing (inst : Z) (s : machine) (base : Z) :
  DTPrePostIndex.sf inst ≠ 0 → DTPrePostIndex.L inst ≠ 0 →
  DTPrePostIndex.xn inst ≠ 31 → DTPrePostIndex.rt inst ≠ 31 →
  gen_registers s !! Z.to_nat (DTPrePostIndex.xn inst) = Some base →
  let offset := sign_extend (DTPrePostIndex.simm9 inst) 9 in
  let xn := Z.to_nat (DTPrePostIndex.xn inst) in
  let rt := Z.to_nat (DTPrePostIndex.rt inst) in
  (∀ v, get_double_word (mem s) ((base + offset) mod 2 ^ 32) = Ok v →
        exec_dt_pre_index inst s
        = Ok (tt, with_gen_registers
                    (<[rt := v mod 2 ^ 64]>
                       (<[xn := (base + offset) mod 2 ^ 32]> (gen_registers s)))
                    s))
  ∧ (∀ v, get_double_word (mem s) (base mod 2 ^ 32) = Ok v →
          exec_dt_post_index inst s
          = Ok (tt, with_gen_registers
                      (<[xn := (base mod 2 ^ 32 + offset) mod 2 ^ 64]>
                         (<[rt := v mod 2 ^ 64]> (gen_registers s)))
                      s)).
Proof.
  intros Hsf HL Hxn Hrt Hbase offset xn rt.
  pose proof (field5_register DTPrePostIndex.xn inst eq_refl ltac:(cbn; lia) Hxn)
    as Hxr.
  pose proof (field5_register DTPrePostIndex.rt inst eq_refl ltac:(cbn; lia) Hrt)
    as Hrr.
  apply Z.eqb_neq in Hsf, HL.
  assert (Hget : get_reg_value_64 (DTPrePostIndex.xn inst) s = Ok (base, s)).
  { rewrite get_reg_value_64_lt by lia. rewrite Hbase. reflexivity. }
  split; intros v Hv.
  - unfold exec_dt_pre_index. rewrite (bind_Ok _ _ _ _ _ Hget).
    rewrite Hsf, HL. cbn [negb]. cbv iota.
    fold offset. rewrite wrap32_wrap64.
    change (wrap32 (base + offset)) with ((base + offset) mod 2 ^ 32).
    set (address := (base + offset) mod 2 ^ 32) in *.
    assert (Ha : 0 ≤ address < 2 ^ 32) by (apply Z.mod_pos_bound; lia).
    rewrite (bind_Ok _ _ _ _ _ (set_reg_value_lt _ address s Hxr)).
    rewrite (wrap64_small address) by lia.
    unfold load_double_word.
    rewrite (bind_Ok _ _ _ v (with_gen_registers (<[Z.to_nat (DTPrePostIndex.xn inst) := address]> (gen_registers s)) s))
      by (unfold read_mem; cbn [mem with_gen_registers]; rewrite Hv; reflexivity).
    rewrite set_reg_value_lt by lia. reflexivity.
  - unfold exec_dt_post_index. rewrite (bind_Ok _ _ _ _ _ Hget).
    rewrite Hsf, HL. cbn [negb]. cbv iota.
    fold offset. change (wrap32 base) with (base mod 2 ^ 32).
    unfold load_double_word.
    rewrite (bind_Ok _ _ s tt
               (with_gen_registers (<[rt := wrap64 v]> (gen_registers s)) s)).
    + rewrite set_reg_value_lt by lia. reflexivity.
    + rewrite (bind_Ok _ _ s v s) by (unfold read_mem; rewrite Hv; reflexivity).
      rewrite set_reg_value_lt by lia. reflexivity.
Qed.
Lemma indexed_load_addressing_witness :
  let s := Scenario.machine_with 0 0x100 in
  let offset := sign_extend (DTPrePostIndex.simm9 0xF8408C20) 9 in
  let xn := Z.to_nat (DTPrePostIndex.xn 0xF8408C20) in
  let rt := Z.to_nat (DTPrePostIndex.rt 0xF8408C20) in
  (∀ v, get_double_word (mem s) ((0x100 + offset) mod 2 ^ 32) = Ok v →
        exec_dt_pre_index 0xF8408C20 s
        = Ok (tt, with_gen_registers
                    (<[rt := v mod 2 ^ 64]>
                       (<[xn := (0x100 + offset) mod 2 ^ 32]> (gen_registers s)))
                    s))
  ∧ (∀ v, get_double_word (mem s) (0x100 mod 2 ^ 32) = Ok v →
          exec_dt_post_index 0xF8408C20 s
          = Ok (tt, with_gen_registers
                      (<[xn := (0x100 mod 2 ^ 32 + offset) mod 2 ^ 64]>
                         (<[rt := v mod 2 ^ 64]> (gen_registers s)))
                      s)).
Proof.
  apply (indexed_load_addressing 0xF8408C20 (Scenario.machine_with 0 0x100)
           0x100); try reflexivity; vm_compute; lia.
Defined.

End IndexedFacts.
